(** * dynamo: scanner, parser and timespec pass of the DYNAMO front end

    A shallow embedding of package [dynamo] (src/dynamo/lex.go, which holds the
    scanner followed by the parser, and the earlier parser kept in
    src/dynamo/parse.go), and the properties of it that the specification
    states.

    Go strings are byte strings: they are [string] here, one [ascii] per byte.
    Go [int], [rune] and [token.Pos] values are [Z].  Pointers to freshly
    allocated nodes are the nodes themselves; a pointer or interface that may
    be nil is an [option]. *)

From Stdlib Require Import ZArith List String Ascii Bool Lia.
Import ListNotations.

Local Open Scope string_scope.
Local Open Scope list_scope.
Local Open Scope Z_scope.

(** ** The outcome of running Go code *)

(** What can stop a call from returning normally. *)
Inductive fault : Type :=
| SliceBounds              (* slice bounds out of range *)
| NilFunc                  (* call of a nil func value *)
| IllegalOffset            (* token.File.Pos: "illegal file offset" *)
| UnknownType (v : string) (* typeIdent: panic("unknown type " + v) *).

Inductive result (A : Type) : Type :=
| Ok (a : A)
| Panic (p : fault)
| Hang        (* the call never returns: a loop that runs forever, or a send
                 on a full channel that nobody drains *)
| OutOfFuel   (* the bound given to the model was too small *).

Arguments Ok {A} a.
Arguments Panic {A} p.
Arguments Hang {A}.
Arguments OutOfFuel {A}.

(** A computation over a mutable receiver of type [S]. *)
Definition M (S A : Type) : Type := S -> result (A * S).

Definition ret {S A} (a : A) : M S A := fun st => Ok (a, st).

Definition bind {S A B} (m : M S A) (k : A -> M S B) : M S B :=
  fun st =>
    match m st with
    | Ok (a, st') => k a st'
    | Panic p => Panic p
    | Hang => Hang
    | OutOfFuel => OutOfFuel
    end.

Definition modify {S} (g : S -> S) : M S unit := fun st => Ok (tt, g st).
Definition gets {S A} (g : S -> A) : M S A := fun st => Ok (g st, st).
Definition throw {S A} (p : fault) : M S A := fun _ => Panic p.

Declare Scope go_scope.
Delimit Scope go_scope with go.
Notation "x <- m ;; k" := (bind m (fun x => k))
  (at level 61, m at next level, right associativity) : go_scope.
Notation "m ;;; k" := (bind m (fun _ => k))
  (at level 61, right associativity) : go_scope.
Local Open Scope go_scope.

(** ** Go strings, runes and the standard library functions the package calls *)

Definition rune : Type := Z.

Definition byte_val (c : ascii) : Z := Z.of_N (N_of_ascii c).
Definition byte_of (z : Z) : ascii := ascii_of_N (Z.to_N z).

(** [len(s)] *)
Definition len (s : string) : Z := Z.of_nat (String.length s).

(** [s[lo:hi]]; [None] is the run-time panic on bad bounds. *)
Definition slice (s : string) (lo hi : Z) : option string :=
  if (0 <=? lo) && (lo <=? hi) && (hi <=? len s)
  then Some (substring (Z.to_nat lo) (Z.to_nat (hi - lo)) s)
  else None.

(** [s[lo:]] *)
Definition slice_from (s : string) (lo : Z) : option string :=
  slice s lo (len s).

Fixpoint bytes (s : string) : list Z :=
  match s with
  | EmptyString => []
  | String c rest => byte_val c :: bytes rest
  end.

Fixpoint index_byte (s : string) (b : Z) (i : Z) : Z :=
  match s with
  | EmptyString => -1
  | String c rest => if byte_val c =? b then i else index_byte rest b (i + 1)
  end.

Module utf8.

Definition RuneError : rune := 0xFFFD.
Definition RuneSelf : Z := 0x80.
Definition locb : Z := 0x80.
Definition hicb : Z := 0xBF.
Definition maskx : Z := 0x3F.

(** [utf8.DecodeRuneInString]: the first rune of [s] and its width in bytes;
    [(RuneError, 0)] on the empty string and [(RuneError, 1)] on a byte
    sequence that is not valid UTF-8. *)
Definition DecodeRuneInString (s : string) : rune * Z :=
  match s with
  | EmptyString => (RuneError, 0)
  | String c0 t0 =>
    let s0 := byte_val c0 in
    if s0 <? RuneSelf then (s0, 1)
    else if (s0 <? 0xC2) || (0xF4 <? s0) then (RuneError, 1)
    else
      let sz := if s0 <? 0xE0 then 2 else if s0 <? 0xF0 then 3 else 4 in
      let lo := if s0 =? 0xE0 then 0xA0 else if s0 =? 0xF0 then 0x90 else locb in
      let hi := if s0 =? 0xED then 0x9F else if s0 =? 0xF4 then 0x8F else hicb in
      if len s <? sz then (RuneError, 1)
      else
        match t0 with
        | EmptyString => (RuneError, 1)
        | String c1 t1 =>
          let s1 := byte_val c1 in
          if (s1 <? lo) || (hi <? s1) then (RuneError, 1)
          else if sz <=? 2
          then (Z.lor (Z.shiftl (Z.land s0 0x1F) 6) (Z.land s1 maskx), 2)
          else
            match t1 with
            | EmptyString => (RuneError, 1)
            | String c2 t2 =>
              let s2 := byte_val c2 in
              if (s2 <? locb) || (hicb <? s2) then (RuneError, 1)
              else if sz <=? 3
              then (Z.lor (Z.lor (Z.shiftl (Z.land s0 0x0F) 12)
                                 (Z.shiftl (Z.land s1 maskx) 6))
                          (Z.land s2 maskx), 3)
              else
                match t2 with
                | EmptyString => (RuneError, 1)
                | String c3 _ =>
                  let s3 := byte_val c3 in
                  if (s3 <? locb) || (hicb <? s3) then (RuneError, 1)
                  else (Z.lor (Z.lor (Z.lor (Z.shiftl (Z.land s0 0x07) 18)
                                            (Z.shiftl (Z.land s1 maskx) 12))
                                     (Z.shiftl (Z.land s2 maskx) 6))
                              (Z.land s3 maskx), 4)
                end
            end
        end
  end.

End utf8.

(** The Unicode tables of the Go release in use.  [unicode.IsSpace],
    [unicode.IsDigit] and [strings.ToUpper] decide Latin-1 (resp. ASCII) input
    by themselves and consult the tables only beyond it; the tables change
    with the Unicode version, so they stay a parameter. *)
Class UnicodeTables : Type := {
  White_Space : rune -> bool;      (* unicode.White_Space, beyond Latin-1 *)
  Digit : rune -> bool;            (* unicode.Digit (category Nd), beyond Latin-1 *)
  MapToUpper : string -> string    (* strings.Map(unicode.ToUpper, s) *)
}.

Module unicode.
Section Tables.
Context {UT : UnicodeTables}.

Definition MaxLatin1 : rune := 0xFF.

(** [unicode.IsSpace] *)
Definition IsSpace (r : rune) : bool :=
  if (0 <=? r) && (r <=? MaxLatin1)
  then (r =? 9) || (r =? 10) || (r =? 11) || (r =? 12) || (r =? 13)
       || (r =? 32) || (r =? 0x85) || (r =? 0xA0)
  else White_Space r.

(** [unicode.IsDigit] *)
Definition IsDigit (r : rune) : bool :=
  if r <=? MaxLatin1 then (48 <=? r) && (r <=? 57) else Digit r.
End Tables.
End unicode.

Module strings.
Section Tables.
Context {UT : UnicodeTables}.

(** [strings.IndexRune(s, r)].  The package only ever passes sets of ASCII
    characters for [s]; in such a string a rune of [utf8.RuneSelf] or more
    does not occur. *)
Definition IndexRune (s : string) (r : rune) : Z :=
  if (0 <=? r) && (r <? utf8.RuneSelf) then index_byte s r 0 else -1.

Definition isASCII (s : string) : bool :=
  forallb (fun b => b <? utf8.RuneSelf) (bytes s).

Definition upper_byte (c : ascii) : ascii :=
  let b := byte_val c in
  if (97 <=? b) && (b <=? 122) then byte_of (b - 32) else c.

Fixpoint upper_ascii (s : string) : string :=
  match s with
  | EmptyString => EmptyString
  | String c rest => String (upper_byte c) (upper_ascii rest)
  end.

(** [strings.ToUpper] *)
Definition ToUpper (s : string) : string :=
  if isASCII s then upper_ascii s else MapToUpper s.
End Tables.
End strings.

Module token.

Definition Pos : Type := Z.

(** [token.File]: where the file sits in its file set, its size, and the
    offsets of the line starts recorded so far. *)
Record File : Type := mkFile {
  base : Z;
  size : Z;
  lines : list Z
}.

(** What [FileSet.AddFile(name, base, size)] hands out. *)
Definition NewFile (b sz : Z) : File :=
  {| base := b; size := sz; lines := [0] |}.

(** [f.Pos(offset)] *)
Definition FilePos (f : File) (offset : Z) : option Pos :=
  if size f <? offset then None else Some (base f + offset).

(** [f.Offset(p)] for a position inside the file *)
Definition Offset (f : File) (p : Pos) : Z := p - base f.

(** [f.AddLine(offset)] *)
Definition AddLine (f : File) (offset : Z) : File :=
  let ok_last := match rev (lines f) with
                 | [] => true
                 | l :: _ => l <? offset
                 end in
  if ok_last && (offset <? size f)
  then {| base := base f; size := size f; lines := lines f ++ [offset] |}
  else f.

Inductive Kind : Type := INT | FLOAT | IMAG | CHAR | STRING.

End token.

(** ** The scanner (src/dynamo/lex.go, lines 1-419) *)

Definition eof : rune := 0.

Inductive itemType : Type :=
| itemEOF | itemIdentifier | itemNumber | itemSemi | itemOperator
| itemKindDecl | itemKeyword | itemLiteral
| itemLBracket | itemRBracket | itemLParen | itemRParen
| itemLSquare | itemRSquare.

Definition itemType_eqb (a b : itemType) : bool :=
  match a, b with
  | itemEOF, itemEOF | itemIdentifier, itemIdentifier
  | itemNumber, itemNumber | itemSemi, itemSemi
  | itemOperator, itemOperator | itemKindDecl, itemKindDecl
  | itemKeyword, itemKeyword | itemLiteral, itemLiteral
  | itemLBracket, itemLBracket | itemRBracket, itemRBracket
  | itemLParen, itemLParen | itemRParen, itemRParen
  | itemLSquare, itemLSquare | itemRSquare, itemRSquare => true
  | _, _ => false
  end.

(** [func (i itemType) String() string] *)
Definition itemType_String (i : itemType) : string :=
  match i with
  | itemEOF => "eof"
  | itemIdentifier => "ident"
  | itemNumber => "num"
  | itemSemi => "semi"
  | itemOperator => "op"
  | itemKindDecl => "kind"
  | itemKeyword => "keyword"
  | itemLiteral => "lit"
  | itemLBracket => "lbrac"
  | itemRBracket => "rbrac"
  | itemLParen => "lparen"
  | itemRParen => "rparen"
  | itemLSquare => "lsquare"
  | itemRSquare => "rsquare"
  end.

(** [type Token struct { pos token.Pos; val string; kind itemType }] *)
Record Token : Type := mkToken {
  t_pos : token.Pos;
  t_val : string;
  t_kind : itemType
}.

(** The zero [Token{}]. *)
Definition Token_zero : Token :=
  {| t_pos := 0; t_val := ""; t_kind := itemEOF |}.

(** [func (t Token) String() string] *)
Definition Token_String (t : Token) : string :=
  let val := if itemType_eqb (t_kind t) itemSemi then ";" else t_val t in
  ("(" ++ itemType_String (t_kind t) ++ " " ++ val ++ ")")%string.

(** The state functions, by name; [nilFn] is the nil [stateFn]. *)
Inductive stateFn : Type :=
| nilFn | beginFn | statementFn | operatorFn | commentFn | multiCommentFn
| lexTypeFn | numberFn | literalFn | identifierFn.

(** What [errorf] hands to [log.Printf]. *)
Inductive LogEntry : Type :=
| LogMustBegin (r : rune)      (* "Dynamo programs must begin with a *, not %#U\n" *)
| LogUnrecognized (r : rune)   (* "unrecognized char: %#U\n" *)
| LogUnexpectedEOF             (* "unexpected EOF" *).

(** [type dynLex struct].  [l_items] is the buffered channel, oldest token
    first; [l_log] is what the scanner has written to the process log.

    Modelled from the spec: the token stream cursor ("peek next token without
    consuming" and "consume next token", one token of lookahead), whose code
    is not in src/.  [l_peeked] is its lookahead slot. *)
Record dynLex : Type := mkLex {
  l_f : token.File;
  l_s : string;
  l_pos : Z;
  l_start : Z;
  l_width : Z;
  l_last : Token;
  l_items : list Token;
  l_state : stateFn;
  l_semi : bool;
  l_peeked : option Token;
  l_log : list LogEntry
}.

Definition set_f (v : token.File) (l : dynLex) : dynLex :=
  mkLex v (l_s l) (l_pos l) (l_start l) (l_width l) (l_last l) (l_items l)
        (l_state l) (l_semi l) (l_peeked l) (l_log l).
Definition set_pos (v : Z) (l : dynLex) : dynLex :=
  mkLex (l_f l) (l_s l) v (l_start l) (l_width l) (l_last l) (l_items l)
        (l_state l) (l_semi l) (l_peeked l) (l_log l).
Definition set_start (v : Z) (l : dynLex) : dynLex :=
  mkLex (l_f l) (l_s l) (l_pos l) v (l_width l) (l_last l) (l_items l)
        (l_state l) (l_semi l) (l_peeked l) (l_log l).
Definition set_width (v : Z) (l : dynLex) : dynLex :=
  mkLex (l_f l) (l_s l) (l_pos l) (l_start l) v (l_last l) (l_items l)
        (l_state l) (l_semi l) (l_peeked l) (l_log l).
Definition set_last (v : Token) (l : dynLex) : dynLex :=
  mkLex (l_f l) (l_s l) (l_pos l) (l_start l) (l_width l) v (l_items l)
        (l_state l) (l_semi l) (l_peeked l) (l_log l).
Definition set_items (v : list Token) (l : dynLex) : dynLex :=
  mkLex (l_f l) (l_s l) (l_pos l) (l_start l) (l_width l) (l_last l) v
        (l_state l) (l_semi l) (l_peeked l) (l_log l).
Definition set_state (v : stateFn) (l : dynLex) : dynLex :=
  mkLex (l_f l) (l_s l) (l_pos l) (l_start l) (l_width l) (l_last l) (l_items l)
        v (l_semi l) (l_peeked l) (l_log l).
Definition set_semi (v : bool) (l : dynLex) : dynLex :=
  mkLex (l_f l) (l_s l) (l_pos l) (l_start l) (l_width l) (l_last l) (l_items l)
        (l_state l) v (l_peeked l) (l_log l).
Definition set_peeked (v : option Token) (l : dynLex) : dynLex :=
  mkLex (l_f l) (l_s l) (l_pos l) (l_start l) (l_width l) (l_last l) (l_items l)
        (l_state l) (l_semi l) v (l_log l).
Definition set_log (v : list LogEntry) (l : dynLex) : dynLex :=
  mkLex (l_f l) (l_s l) (l_pos l) (l_start l) (l_width l) (l_last l) (l_items l)
        (l_state l) (l_semi l) (l_peeked l) v.

(** Scanner methods: computations over the [*dynLex] receiver. *)
Definition L (A : Type) : Type := M dynLex A.

(** [func newLex(input string, file *token.File) *dynLex] *)
Definition newLex (input : string) (file : token.File) : dynLex :=
  {| l_f := file; l_s := input; l_pos := 0; l_start := 0; l_width := 0;
     l_last := Token_zero; l_items := []; l_state := beginFn;
     l_semi := false; l_peeked := None; l_log := [] |}.

(** The channel [make(chan Token, 2)]. *)
Definition items_cap : nat := 2.

(** Bytes of input from the current position to the end. *)
Definition remaining (l : dynLex) : nat := Z.to_nat (len (l_s l) - l_pos l).

(** The next call of [next] finds [l.pos >= len(l.s)]. *)
Definition at_end (l : dynLex) : bool := len (l_s l) <=? l_pos l.

(** Which token kinds set [l.semi] in [emit]. *)
Definition sets_semi (ty : itemType) : bool :=
  match ty with
  | itemRBracket | itemRParen | itemRSquare
  | itemIdentifier | itemNumber | itemKindDecl | itemLiteral => true
  | _ => false
  end.

(** [func isLiteralStart(r rune) bool] *)
Definition isLiteralStart (r : rune) : bool := r =? 34 (* the double quote *).

(** [func isOperator(r rune) bool] *)
Definition isOperator (r : rune) : bool :=
  -1 <? strings.IndexRune ",+-*/|&=(){}[]:" r.

Section Scanner.
Context {UT : UnicodeTables}.

(** [func isIdentifierStart(r rune) bool] *)
Definition isIdentifierStart (r : rune) : bool :=
  negb (unicode.IsDigit r || unicode.IsSpace r || isOperator r).

(** [func isAlphaNumeric(r rune) bool] *)
Definition isAlphaNumeric (r : rune) : bool :=
  negb (unicode.IsSpace r || isOperator r || (r =? 59 (* ';' *))).

(** [func (l *dynLex) next() rune] *)
Definition next : L rune := fun l =>
  if len (l_s l) <=? l_pos l then Ok (0, l)
  else
    match slice_from (l_s l) (l_pos l) with
    | None => Panic SliceBounds
    | Some rest =>
      let '(r, width) := utf8.DecodeRuneInString rest in
      let l1 := set_width width (set_pos (l_pos l + width) l) in
      let l2 := if r =? 10 (* '\n' *)
                then set_f (token.AddLine (l_f l1) (l_pos l1 + 1)) l1
                else l1 in
      Ok (r, l2)
    end.

(** [func (l *dynLex) backup()] *)
Definition backup : L unit := modify (fun l => set_pos (l_pos l - l_width l) l).

(** [func (l *dynLex) peek() rune] *)
Definition peek : L rune :=
  r <- next ;; backup ;;; ret r.

(** [func (l *dynLex) ignore()] *)
Definition ignore : L unit := modify (fun l => set_start (l_pos l) l).

(** [func (l *dynLex) accept(valid string) bool] *)
Definition accept (valid : string) : L bool :=
  r <- next ;;
  if 0 <=? strings.IndexRune valid r then ret true
  else backup ;;; ret false.

(** The loop shape [for p(l.next()) { }] that the scanner uses throughout:
    runes are read as long as [p] holds of them, the first one that fails
    [p] is read too.  At the end of input [next] returns 0 without moving,
    so a [p] that holds of 0 keeps the Go loop turning forever.  Every other
    turn moves [l.pos] forward, which is why [remaining l] turns are always
    enough (lemma [nextWhile_fuel]). *)
Fixpoint nextWhile (p : rune -> bool) (n : nat) : L unit := fun l =>
  match next l with
  | Ok (r, l1) =>
    if p r then
      if at_end l then Hang
      else match n with
           | O => OutOfFuel
           | S n' => nextWhile p n' l1
           end
    else Ok (tt, l1)
  | Panic e => Panic e
  | Hang => Hang
  | OutOfFuel => OutOfFuel
  end.

(** [func (l *dynLex) acceptRun(valid string)] *)
Definition acceptRun (valid : string) : L unit := fun l =>
  (nextWhile (fun r => 0 <=? strings.IndexRune valid r) (remaining l) ;;;
   backup) l.

(** [func (l *dynLex) emit(ty itemType)].  The send blocks for good when
    the channel already holds [items_cap] tokens. *)
Definition emit (ty : itemType) : L unit := fun l =>
  match token.FilePos (l_f l) (l_pos l) with
  | None => Panic IllegalOffset
  | Some p =>
    match slice (l_s l) (l_start l) (l_pos l) with
    | None => Panic SliceBounds
    | Some v =>
      let t := {| t_pos := p; t_val := v; t_kind := ty |} in
      if (items_cap <=? List.length (l_items l))%nat then Hang
      else
        let l1 := set_items (l_items l ++ [t]) (set_last t l) in
        let l2 := set_start (l_pos l1) l1 in
        Ok (tt, set_semi (sets_semi ty) l2)
    end
  end.

(** [func (l *dynLex) errorf(format string, args ...interface{}) stateFn] *)
Definition errorf (msg : LogEntry) : L stateFn :=
  modify (fun l => set_log (l_log l ++ [msg]) l) ;;;
  emit itemEOF ;;;
  ret nilFn.

(** [func (l *dynLex) begin() stateFn] *)
Definition begin : L stateFn :=
  r <- next ;;
  if r =? 42 (* '*' *) then ret commentFn
  else errorf (LogMustBegin r).

(** [func (l *dynLex) statement() stateFn] *)
Definition statement : L stateFn :=
  r <- next ;;
  if r =? eof then
    sm <- gets l_semi ;;
    (if sm then emit itemSemi else ret tt) ;;;
    emit itemEOF ;;;
    ret statementFn
  else if r =? 47 (* '/' *) then
    c <- peek ;;
    if c =? 47 (* '/' *) then next ;;; ret commentFn
    else
      c' <- peek ;;
      if c' =? 42 (* '*' *) then next ;;; ret multiCommentFn
      else emit itemOperator ;;; ret statementFn
  else if r =? 96 (* '`' *) then ret lexTypeFn
  else if r =? 59 (* ';' *) then emit itemSemi ;;; ret statementFn
  else if unicode.IsSpace r then
    sm <- gets l_semi ;;
    (if (r =? 10 (* '\n' *)) && sm then emit itemSemi else ret tt) ;;;
    ignore ;;;
    ret statementFn
  else if unicode.IsDigit r || (r =? 46 (* '.' *)) then backup ;;; ret numberFn
  else if isLiteralStart r then backup ;;; ret literalFn
  else if isIdentifierStart r then backup ;;; ret identifierFn
  else if isOperator r then backup ;;; ret operatorFn
  else errorf (LogUnrecognized r).

(** [func (l *dynLex) operator() stateFn] *)
Definition operator : L stateFn :=
  r <- next ;;
  let ty := if r =? 123 (* '{' *) then itemLBracket
            else if r =? 125 (* '}' *) then itemRBracket
            else if r =? 40 (* '(' *) then itemLParen
            else if r =? 41 (* ')' *) then itemRParen
            else if r =? 91 (* '[' *) then itemLSquare
            else if r =? 93 (* ']' *) then itemRSquare
            else itemOperator in
  emit ty ;;;
  ret statementFn.

(** [func (l *dynLex) comment() stateFn] *)
Definition comment : L stateFn := fun l =>
  (nextWhile (fun r => negb (r =? 10) && negb (r =? eof)) (remaining l) ;;;
   backup ;;;
   ignore ;;;
   ret statementFn) l.

(** The loop of [multiComment].  A turn that reads a '*' as the last rune
    of the input peeks at the end of input, which moves [l.pos] back in
    front of that '*': the Go loop then reads the same '*' for ever.  Every
    other turn moves [l.pos] forward. *)
Fixpoint multiComment_loop (n : nat) : L unit := fun l =>
  match next l with
  | Ok (r, l1) =>
    if r =? eof then backup l1
    else
      let again := match n with
                   | O => fun _ => OutOfFuel
                   | S n' => multiComment_loop n'
                   end in
      if negb (r =? 42 (* '*' *)) then again l1
      else if at_end l1 then Hang
      else (c <- peek ;;
            if c =? 47 (* '/' *) then next ;;; ret tt
            else again) l1
  | Panic e => Panic e
  | Hang => Hang
  | OutOfFuel => OutOfFuel
  end.

(** [func (l *dynLex) multiComment() stateFn] *)
Definition multiComment : L stateFn := fun l =>
  (multiComment_loop (remaining l) ;;;
   ignore ;;;
   ret statementFn) l.

(** [func (l *dynLex) lexType() stateFn] *)
Definition lexType : L stateFn := fun l =>
  (ignore ;;;
   (fun l' => nextWhile (fun r => negb (r =? 96) && negb (r =? eof))
                        (remaining l') l') ;;;
   backup ;;;
   c <- peek ;;
   if negb (c =? 96 (* '`' *)) then errorf LogUnexpectedEOF
   else
     emit itemKindDecl ;;;
     next ;;;
     ignore ;;;
     ret statementFn) l.

(** [func (l *dynLex) number() stateFn] *)
Definition number : L stateFn :=
  acceptRun "0123456789" ;;;
  accept "." ;;;
  acceptRun "0123456789" ;;;
  e <- accept "eE" ;;
  (if e then accept "+-" ;;; acceptRun "0123456789" else ret tt) ;;;
  emit itemNumber ;;;
  ret statementFn.

(** [func (l *dynLex) literal() stateFn] *)
Definition literal : L stateFn :=
  delim <- next ;;
  ignore ;;;
  (fun l' => nextWhile (fun r => negb (r =? delim) && negb (r =? eof))
                       (remaining l') l') ;;;
  backup ;;;
  c <- peek ;;
  if negb (c =? delim) then errorf LogUnexpectedEOF
  else
    emit itemLiteral ;;;
    next ;;;
    ignore ;;;
    ret statementFn.

Definition is_keyword (id : string) : bool :=
  String.eqb id "kind" || String.eqb id "import" || String.eqb id "package"
  || String.eqb id "model" || String.eqb id "interface"
  || String.eqb id "specializes".

(** [func (l *dynLex) identifier() stateFn] *)
Definition identifier : L stateFn :=
  (fun l => nextWhile isAlphaNumeric (remaining l) l) ;;;
  backup ;;;
  (fun l =>
     match slice (l_s l) (l_start l) (l_pos l) with
     | None => Panic SliceBounds
     | Some id =>
       ((if is_keyword id then emit itemKeyword else emit itemIdentifier) ;;;
        ret statementFn) l
     end).

(** Calling a [stateFn] value. *)
Definition call (st : stateFn) : L stateFn :=
  match st with
  | nilFn => throw NilFunc
  | beginFn => begin
  | statementFn => statement
  | operatorFn => operator
  | commentFn => comment
  | multiCommentFn => multiComment
  | lexTypeFn => lexType
  | numberFn => number
  | literalFn => literal
  | identifierFn => identifier
  end.

(** One turn of the [default] branch of [lex_Token]: [l.state = l.state()]. *)
Definition advance : L unit := fun l =>
  (st <- call (l_state l) ;; modify (set_state st)) l.

(** [func (l *dynLex) Token() Token] (the type [Token] has taken the name):
    receive from [l.items] if a token is waiting, else run the current
    state and look again. *)
Fixpoint lex_Token (fuel : nat) : L Token := fun l =>
  match l_items l with
  | t :: rest => Ok (t, set_items rest l)
  | [] =>
    match fuel with
    | O => OutOfFuel
    | S n => (advance ;;; lex_Token n) l
    end
  end.

(** Modelled from the spec: the cursor's "peek next token without
    consuming"; its code is not in src/. *)
Definition Peek (fuel : nat) : L Token := fun l =>
  match l_peeked l with
  | Some t => Ok (t, l)
  | None => (t <- lex_Token fuel ;; modify (set_peeked (Some t)) ;;; ret t) l
  end.

(** Modelled from the spec: the cursor's "consume next token", which is what
    the parser's calls of [p.lex.Token()] get once a lookahead slot exists:
    the peeked token if there is one, else the next token scanned. *)
Definition Consume (fuel : nat) : L Token := fun l =>
  match l_peeked l with
  | Some t => Ok (t, set_peeked None l)
  | None => lex_Token fuel l
  end.

End Scanner.


(** ** The syntax tree *)

(** Modelled from the spec: the node types of the syntax tree (section 3,
    Data model), whose declarations are not in src/; the fields are the ones
    the parser fills in.  An [Ident] is a source position and a name; its
    back-reference to a resolved declaration, which nothing here ever sets,
    is left out. *)
Record Ident : Type := mkIdent {
  Ident_NamePos : token.Pos;
  Ident_Name : string
}.

(** Modelled from the spec: the literal, "kind + raw textual value", with
    the position that [floatLitS] and [expr] give it. *)
Record BasicLit : Type := mkBasicLit {
  BasicLit_ValuePos : token.Pos;
  BasicLit_Kind : token.Kind;
  BasicLit_Value : string
}.

(** Modelled from the spec: an expression is "a variant over literal,
    composite literal (ordered key and expression pairs), forward table
    literal (ordered sequence of numeric literals), identifier reference". *)
Inductive Expr : Type :=
| BasicLitExpr (b : BasicLit)
| CompositeLit (Elts : list KeyValueExpr)
| TableFwdExpr (Ys : list BasicLit)
| IdentExpr (i : Ident)
with KeyValueExpr : Type :=
| mkKeyValueExpr (Key : Ident) (Value : Expr).

(** Modelled from the spec: a variable declaration is "identifier name,
    semantic role"; the role is an identifier, and [VarDecl_Type] is nil on
    the declaration that the timespec pass builds. *)
Record VarDecl : Type := mkVarDecl {
  VarDecl_Name : Ident;
  VarDecl_Type : option Ident
}.

(** Modelled from the spec: a statement is "a variant over variable
    assignment".  [Stmt] is an interface in the source, which asserts the
    type of each statement it looks at; [OtherStmt] stands for any statement
    that is not an [*AssignStmt].  The right-hand side is an interface value
    and may be nil. *)
Inductive Stmt : Type :=
| AssignStmt (Lhs : VarDecl) (Rhs : option Expr)
| OtherStmt.

(** Modelled from the spec: the body of a model, "an ordered sequence of
    statements". *)
Record BlockStmt : Type := mkBlockStmt {
  BlockStmt_List : list Stmt
}.

(** Modelled from the spec: a model declaration is "name, body". *)
Record ModelDecl : Type := mkModelDecl {
  ModelDecl_Name : Ident;
  ModelDecl_Body : BlockStmt
}.

(** Modelled from the spec: a program is "name, ordered sequence of
    top-level declarations", each of them a model. *)
Record File : Type := mkFileNode {
  File_Name : option Ident;
  File_Decls : list ModelDecl
}.

(** A Go [error], by its message. *)
Definition error : Type := string.

(** What the parser takes from outside src/: [float64] with the constants 0
    and 1, the [%f] verb of [fmt.Sprintf], and the package's own [constEval],
    which the spec fixes by signature only ("a pure function with a defined
    signature"). *)
Class Numerics : Type := {
  float64 : Type;
  float64_0 : float64;
  float64_1 : float64;
  Sprintf_f : float64 -> string;
  constEval : option Expr -> float64 * option error
}.

Section Timespec.
Context {UT : UnicodeTables} {NU : Numerics}.

(** [runtime.Timespec] *)
Record Timespec : Type := mkTimespec {
  Start : float64;
  End_ : float64;
  DT : float64;
  SaveStep : float64
}.

(** [func id(n string) *Ident] *)
Definition id (n : string) : Ident :=
  {| Ident_NamePos := 0; Ident_Name := n |}.

(** [func floatLit(f float64) *BasicLit] *)
Definition floatLit (f : float64) : BasicLit :=
  {| BasicLit_ValuePos := 0; BasicLit_Kind := token.FLOAT;
     BasicLit_Value := Sprintf_f f |}.

(** The name a statement assigns to, when it is an assignment. *)
Definition assign_name (st : Stmt) : option string :=
  match st with
  | AssignStmt lhs _ => Some (Ident_Name (VarDecl_Name lhs))
  | OtherStmt => None
  end.

(** The first loop of [extractTimespec]: one turn for [stmt]. *)
Definition eval_stmt (stmt : Stmt) (spec : Timespec) : Timespec * option error :=
  match stmt with
  | OtherStmt => (spec, None)
  | AssignStmt lhs rhs =>
    let up := strings.ToUpper (Ident_Name (VarDecl_Name lhs)) in
    if String.eqb up "TIME" then
      let '(v, err) := constEval rhs in
      (mkTimespec v (End_ spec) (DT spec) (SaveStep spec), err)
    else if String.eqb up "LENGTH" then
      let '(v, err) := constEval rhs in
      (mkTimespec (Start spec) v (DT spec) (SaveStep spec), err)
    else if String.eqb up "SAVPER" then
      let '(v, err) := constEval rhs in
      (mkTimespec (Start spec) (End_ spec) (DT spec) v, err)
    else if String.eqb up "DT" then
      let '(v, err) := constEval rhs in
      (mkTimespec (Start spec) (End_ spec) v (SaveStep spec), err)
    else (spec, None)
  end.

(** [for _, stmt := range m.Body.List { ... }], leaving by [return] at the
    first evaluation that fails. *)
Fixpoint eval_loop (stmts : list Stmt) (spec : Timespec) : Timespec + error :=
  match stmts with
  | [] => inl spec
  | stmt :: rest =>
    match eval_stmt stmt spec with
    | (_, Some err) =>
      inr ("constEval(" ++ match assign_name stmt with
                           | Some n => n
                           | None => ""
                           end ++ "): " ++ err)%string
    | (spec', None) => eval_loop rest spec'
    end
  end.

(** [case "TIME", "LENGTH", "SAVPER", "DT":] on the upper-cased name. *)
Definition is_control (name : string) : bool :=
  let up := strings.ToUpper name in
  String.eqb up "TIME" || String.eqb up "LENGTH"
  || String.eqb up "SAVPER" || String.eqb up "DT".

(** [for i := 0; i < len(m.Body.List); i++ { ... }]: the statement at [i]
    is cut out of the list and [i] stays (the source steps it back, the loop
    header steps it forward again), or [i] moves on.  Each turn shortens
    what is left to look at, so [n] turns are enough for a list of [n]
    statements. *)
Fixpoint remove_loop (n : nat) (i : nat) (lst : list Stmt) : list Stmt :=
  match n with
  | O => lst
  | S n' =>
    match nth_error lst i with
    | None => lst
    | Some stmt =>
      match assign_name stmt with
      | Some name =>
        if is_control name
        then remove_loop n' i (firstn i lst ++ skipn (S i) lst)
        else remove_loop n' (S i) lst
      | None => remove_loop n' (S i) lst
      end
    end
  end.

(** The statement [extractTimespec] builds. *)
Definition timespec_stmt (spec : Timespec) : Stmt :=
  AssignStmt
    {| VarDecl_Name := id "timespec"; VarDecl_Type := None |}
    (Some (CompositeLit
             [ mkKeyValueExpr (id "start") (BasicLitExpr (floatLit (Start spec)));
               mkKeyValueExpr (id "end") (BasicLitExpr (floatLit (End_ spec)));
               mkKeyValueExpr (id "dt") (BasicLitExpr (floatLit (DT spec)));
               mkKeyValueExpr (id "save_step")
                              (BasicLitExpr (floatLit (SaveStep spec))) ])).

Definition set_body (lst : list Stmt) (m : ModelDecl) : ModelDecl :=
  {| ModelDecl_Name := ModelDecl_Name m;
     ModelDecl_Body := {| BlockStmt_List := lst |} |}.

(** [func extractTimespec(m *ModelDecl) error]: the model as the call
    leaves it, and the error returned. *)
Definition extractTimespec (m : ModelDecl) : ModelDecl * option error :=
  let body := BlockStmt_List (ModelDecl_Body m) in
  let spec := {| Start := float64_0; End_ := float64_0;
                 DT := float64_1; SaveStep := float64_1 |} in
  match eval_loop body spec with
  | inr err => (m, Some err)
  | inl spec' =>
    let kept := remove_loop (List.length body) 0 body in
    (set_body (kept ++ [timespec_stmt spec']) m, None)
  end.

End Timespec.

(** ** The parser (src/dynamo/lex.go, lines 463-763) *)

(** One entry of [errBuf]: [p.fset.Position(tok.pos)] is kept as the
    [token.Pos] it renders, followed by the formatted message. *)
Record Diag : Type := mkDiag {
  d_pos : token.Pos;
  d_msg : string
}.

(** [type dynParser struct].  [tokf] is the file the scanner already holds and
    [fset] only renders positions.  [p_out] is what the parser has printed on
    standard output, one entry per [fmt.Printf]. *)
Record dynParser : Type := mkParser {
  p_lex : dynLex;
  p_f : File;
  p_errBuf : list Diag;
  p_nerr : Z;
  p_out : list string
}.

Definition set_lex (v : dynLex) (p : dynParser) : dynParser :=
  mkParser v (p_f p) (p_errBuf p) (p_nerr p) (p_out p).
Definition set_file (v : File) (p : dynParser) : dynParser :=
  mkParser (p_lex p) v (p_errBuf p) (p_nerr p) (p_out p).

Definition P (A : Type) : Type := M dynParser A.

(** A scanner method called through [p.lex]. *)
Definition on_lex {A} (m : L A) : P A := fun p =>
  match m (p_lex p) with
  | Ok (a, l') => Ok (a, set_lex l' p)
  | Panic e => Panic e
  | Hang => Hang
  | OutOfFuel => OutOfFuel
  end.

(** [fmt.Printf] *)
Definition Printf (line : string) : P unit :=
  modify (fun p => mkParser (p_lex p) (p_f p) (p_errBuf p) (p_nerr p)
                            (p_out p ++ [line])).

Definition nl : string := String (ascii_of_nat 10) EmptyString.

(** [func (p *dynParser) errorf(tok Token, f string, args ...interface{})] *)
Definition p_errorf (tok : Token) (msg : string) : P unit :=
  modify (fun p => mkParser (p_lex p) (p_f p)
                            (p_errBuf p ++ [{| d_pos := t_pos tok; d_msg := msg |}])
                            (p_nerr p + 1) (p_out p)).

(** [func newParser(f *token.File, fs *token.FileSet, l *dynLex) *dynParser] *)
Definition newParser (l : dynLex) : dynParser :=
  {| p_lex := l; p_f := {| File_Name := None; File_Decls := [] |};
     p_errBuf := []; p_nerr := 0; p_out := [] |}.

(** [func ident(tok Token) *Ident] *)
Definition ident (tok : Token) : Ident :=
  {| Ident_NamePos := t_pos tok; Ident_Name := t_val tok |}.

(** [func floatLitS(t Token) *BasicLit] *)
Definition floatLitS (t : Token) : BasicLit :=
  {| BasicLit_ValuePos := t_pos t; BasicLit_Kind := token.FLOAT;
     BasicLit_Value := t_val t |}.

(** [func typeIdent(typeTok Token) *Ident] *)
Definition typeIdent {S : Type} (typeTok : Token) : M S Ident :=
  let v := t_val typeTok in
  let mk n := ret {| Ident_NamePos := t_pos typeTok; Ident_Name := n |} in
  if String.eqb v "L" then mk "stock"
  else if String.eqb v "N" then mk "initial"
  else if String.eqb v "C" then mk "const"
  else if String.eqb v "R" then mk "flow"
  else if String.eqb v "A" then mk "aux"
  else if String.eqb v "T" then mk "table"
  else throw (UnknownType v).

(** [m.Body.List = append(m.Body.List, st)] *)
Definition body_append (st : Stmt) (m : ModelDecl) : ModelDecl :=
  {| ModelDecl_Name := ModelDecl_Name m;
     ModelDecl_Body :=
       {| BlockStmt_List := BlockStmt_List (ModelDecl_Body m) ++ [st] |} |}.

Section Parser.
Context {UT : UnicodeTables} {NU : Numerics}.

(** The bound handed to every loop that pulls tokens. *)
Variable fuel : nat.

(** [p.lex.Token()] and [p.lex.Peek()] *)
Definition p_Token : P Token := on_lex (Consume fuel).
Definition p_Peek : P Token := on_lex (Peek fuel).

(** [func (p *dynParser) varDecl(typeTok Token) ( *VarDecl, bool)]:
    [Some d] for [(d, true)], [None] for [(nil, false)]. *)
Definition varDecl (typeTok : Token) : P (option VarDecl) :=
  nameTok <- p_Token ;;
  if negb (itemType_eqb (t_kind nameTok) itemIdentifier) then
    p_errorf nameTok ("expected ident, not " ++ t_val typeTok) ;;;
    ret None
  else
    ty <- typeIdent typeTok ;;
    ret (Some {| VarDecl_Name := ident nameTok; VarDecl_Type := Some ty |}).

(** [func (p *dynParser) consumeEqual() bool] *)
Definition consumeEqual : P bool :=
  tok <- p_Token ;;
  if negb (String.eqb (t_val tok) "=") then
    p_errorf tok ("expected =, not " ++ t_val tok) ;;;
    ret false
  else ret true.

(** [func (p *dynParser) expr() (Expr, bool)] *)
Definition expr : P (option Expr * bool) :=
  tok <- p_Token ;;
  match t_kind tok with
  | itemNumber =>
    ret (Some (BasicLitExpr (mkBasicLit (t_pos tok) token.FLOAT (t_val tok))),
         true)
  | _ =>
    Printf ("expr" ++ nl) ;;;
    ret (None, false)
  end.

(** The loop of [tableDef]; [ys] is [table.Ys]. *)
Fixpoint tableDef_loop (n : nat) (ys : list BasicLit) : P (option Expr * bool) :=
  match n with
  | O => fun _ => OutOfFuel
  | S n' =>
    tok <- p_Token ;;
    if negb (itemType_eqb (t_kind tok) itemNumber) then
      p_errorf tok ("expected float literal in table def, not '"
                    ++ t_val tok ++ "'") ;;;
      ret (None, true)
    else
      let ys' := ys ++ [floatLitS tok] in
      tok' <- p_Token ;;
      if String.eqb (t_val tok') "/" then tableDef_loop n' ys'
      else if itemType_eqb (t_kind tok') itemSemi
              || itemType_eqb (t_kind tok') itemEOF
      then ret (Some (TableFwdExpr ys'), false)
      else
        p_errorf tok' ("expected '/' in table def, not '"
                       ++ t_val tok' ++ "'") ;;;
        tableDef_loop n' ys'
  end.

(** [func (p *dynParser) tableDef() (Expr, bool)] *)
Definition tableDef : P (option Expr * bool) := tableDef_loop fuel [].

Fixpoint discardStmt_loop (n : nat) (tok : Token) : P unit :=
  if negb (itemType_eqb (t_kind tok) itemEOF)
     && negb (itemType_eqb (t_kind tok) itemSemi)
  then
    match n with
    | O => fun _ => OutOfFuel
    | S n' =>
      Printf ("discard: " ++ Token_String tok ++ nl) ;;;
      tok' <- p_Token ;;
      discardStmt_loop n' tok'
    end
  else ret tt.

(** [func (p *dynParser) discardStmt()] *)
Definition discardStmt : P unit :=
  tok <- p_Token ;;
  discardStmt_loop fuel tok.

(** [decl, ok := p.varDecl(typeTok); if !ok || !p.consumeEqual() { ... }]:
    the declaration when both succeed. *)
Definition decl_and_equal (typeTok : Token) : P (option VarDecl) :=
  d <- varDecl typeTok ;;
  match d with
  | None => ret None
  | Some decl =>
    eq <- consumeEqual ;;
    if eq then ret (Some decl) else ret None
  end.

(** [func (p *dynParser) stmtInto(m *ModelDecl)] *)
Definition stmtInto (m : ModelDecl) : P ModelDecl :=
  tok <- p_Token ;;
  let typeTok := mkToken (t_pos tok) (strings.ToUpper (t_val tok)) (t_kind tok) in
  let v := t_val typeTok in
  if String.eqb v "L" || String.eqb v "N" || String.eqb v "C"
     || String.eqb v "R" || String.eqb v "A"
  then
    d <- decl_and_equal typeTok ;;
    match d with
    | None => discardStmt ;;; ret m
    | Some decl =>
      e <- expr ;;
      let '(rhs, ok) := e in
      if negb ok then discardStmt ;;; ret m
      else ret (body_append (AssignStmt decl rhs) m)
    end
  else if String.eqb v "T" then
    d <- decl_and_equal typeTok ;;
    match d with
    | None => discardStmt ;;; ret m
    | Some decl =>
      e <- tableDef ;;
      let '(rhs, ok) := e in
      if negb ok then discardStmt ;;; ret m
      else ret (body_append (AssignStmt decl rhs) m)
    end
  else
    p_errorf typeTok ("unknown type: " ++ v) ;;;
    ret m.

(** The [outer] loop of [declModel]. *)
Fixpoint declModel_loop (n : nat) (m : ModelDecl) : P ModelDecl :=
  match n with
  | O => fun _ => OutOfFuel
  | S n' =>
    tok <- p_Peek ;;
    let bad :=
      p_errorf tok ("expected 1 char ident, not '" ++ t_val tok ++ "'") ;;;
      p_Token ;;;
      declModel_loop n' m in
    match t_kind tok with
    | itemEOF => ret m
    | itemSemi => p_Token ;;; declModel_loop n' m
    | itemIdentifier =>
      if len (t_val tok) =? 1
      then m' <- stmtInto m ;; declModel_loop n' m'
      else bad
    | _ => bad
    end
  end.

(** What [declModel] does once the loop is left. *)
Definition declModel_finish (n : Ident) (m : ModelDecl) : P unit :=
  m' <- (if String.eqb (Ident_Name n) "main" then
           let '(m1, err) := extractTimespec m in
           match err with
           | Some e => p_errorf Token_zero ("extractTimespec: " ++ e) ;;; ret m1
           | None => ret m1
           end
         else ret m) ;;
  modify (fun p => set_file {| File_Name := File_Name (p_f p);
                               File_Decls := File_Decls (p_f p) ++ [m'] |} p).

(** [func (p *dynParser) declModel(n *Ident)] *)
Definition declModel (n : Ident) : P unit :=
  let m := {| ModelDecl_Name := n;
              ModelDecl_Body := {| BlockStmt_List := [] |} |} in
  m' <- declModel_loop fuel m ;;
  declModel_finish n m'.

(** [func (p *dynParser) Parse() ( *File, int)] *)
Definition dynParser_Parse : P (File * Z) :=
  modify (fun p => set_file {| File_Name := Some (id "main");
                               File_Decls := File_Decls (p_f p) |} p) ;;;
  declModel (id "main") ;;;
  f <- gets p_f ;;
  nerr <- gets p_nerr ;;
  ret (f, nerr).

(** The error [Parse] builds with
    [fmt.Errorf("%d parse errors:\n%s", nerr, parser.errBuf.String())]. *)
Record ParseError : Type := mkParseError {
  pe_nerr : Z;
  pe_errBuf : list Diag
}.

(** [func Parse(f *token.File, fset *token.FileSet, str string) ( *File, error)],
    with the parser as the call leaves it. *)
Definition Parse (f : token.File) (str : string)
  : result ((option File * option ParseError) * dynParser) :=
  match dynParser_Parse (newParser (newLex str f)) with
  | Ok ((result, nerr), p) =>
    if negb (nerr =? 0)
    then Ok ((None, Some {| pe_nerr := nerr; pe_errBuf := p_errBuf p |}), p)
    else Ok ((Some result, None), p)
  | Panic e => Panic e
  | Hang => Hang
  | OutOfFuel => OutOfFuel
  end.

End Parser.

(** ** The earlier parser (src/dynamo/parse.go) *)

(** src/dynamo/parse.go keeps an earlier state of the same parser: its model
    loop stops at the first token that cannot start a statement, [expr] is
    still a stub, and there is no timespec pass. *)
Module Earlier.
Section Parser.
Context {UT : UnicodeTables}.
Variable fuel : nat.

(** [func typeIdent(typeTok Token) *Ident] *)
Definition typeIdent {S : Type} (typeTok : Token) : M S Ident :=
  let v := t_val typeTok in
  let mk n := ret {| Ident_NamePos := t_pos typeTok; Ident_Name := n |} in
  if String.eqb v "L" then mk "stock"
  else if String.eqb v "N" then mk "initial"
  else if String.eqb v "C" then mk "constant"
  else if String.eqb v "R" then mk "flow"
  else if String.eqb v "A" then mk "aux"
  else if String.eqb v "T" then mk "table"
  else throw (UnknownType v).

(** [func (p *dynParser) varDecl(typeTok Token) ( *VarDecl, bool)] *)
Definition varDecl (typeTok : Token) : P (option VarDecl) :=
  nameTok <- p_Token fuel ;;
  if negb (itemType_eqb (t_kind nameTok) itemIdentifier) then
    p_errorf nameTok ("expected ident, not " ++ t_val typeTok) ;;;
    ret None
  else
    ty <- typeIdent typeTok ;;
    ret (Some {| VarDecl_Name := ident nameTok; VarDecl_Type := Some ty |}).

(** [func (p *dynParser) expr() (Expr, bool)] *)
Definition expr : P (option Expr * bool) :=
  Printf ("expr" ++ nl) ;;;
  ret (None, false).

(** [func (p *dynParser) stmtInto(m *ModelDecl)] *)
Definition stmtInto (m : ModelDecl) : P ModelDecl :=
  tok <- p_Token fuel ;;
  let typeTok := mkToken (t_pos tok) (strings.ToUpper (t_val tok)) (t_kind tok) in
  let v := t_val typeTok in
  if String.eqb v "L" || String.eqb v "N" || String.eqb v "C"
     || String.eqb v "R" || String.eqb v "A" || String.eqb v "T"
  then
    d <- varDecl typeTok ;;
    ok <- match d with
          | None => ret false
          | Some _ => consumeEqual fuel
          end ;;
    match d, ok with
    | Some decl, true =>
      e <- expr ;;
      let '(rhs, ok') := e in
      if negb ok' then discardStmt fuel ;;; ret m
      else ret (body_append (AssignStmt decl rhs) m)
    | _, _ => discardStmt fuel ;;; ret m
    end
  else
    p_errorf typeTok ("unknown type: " ++ v) ;;;
    ret m.

(** The loop of [declModel]. *)
Fixpoint declModel_loop (n : nat) (m : ModelDecl) : P ModelDecl :=
  match n with
  | O => fun _ => OutOfFuel
  | S n' =>
    tok <- p_Peek fuel ;;
    if itemType_eqb (t_kind tok) itemIdentifier && (len (t_val tok) =? 1)
    then m' <- stmtInto m ;; declModel_loop n' m'
    else
      p_errorf tok ("expected 1 char ident, not '" ++ t_val tok ++ "'") ;;;
      ret m
  end.

(** [func (p *dynParser) declModel(n *Ident)].  The model is a local of
    the function and is dropped when it returns; it is handed back here
    so that what was parsed can be looked at. *)
Definition declModel (n : Ident) : P ModelDecl :=
  declModel_loop fuel {| ModelDecl_Name := n;
                         ModelDecl_Body := {| BlockStmt_List := [] |} |}.

(** [func (p *dynParser) Parse() ( *File, int)] *)
Definition dynParser_Parse : P (File * Z) :=
  modify (fun p => set_file {| File_Name := Some (id "main");
                               File_Decls := File_Decls (p_f p) |} p) ;;;
  declModel (id "main") ;;;
  f <- gets p_f ;;
  nerr <- gets p_nerr ;;
  ret (f, nerr).

(** [func Parse(f *token.File, fset *token.FileSet, str string) ( *File, error)] *)
Definition Parse (f : token.File) (str : string)
  : result ((option File * option ParseError) * dynParser) :=
  match dynParser_Parse (newParser (newLex str f)) with
  | Ok ((result, nerr), p) =>
    if negb (nerr =? 0)
    then Ok ((None, Some {| pe_nerr := nerr; pe_errBuf := p_errBuf p |}), p)
    else Ok ((Some result, None), p)
  | Panic e => Panic e
  | Hang => Hang
  | OutOfFuel => OutOfFuel
  end.

End Parser.
End Earlier.

(** ** The token dump (src/dynamo/lex.go, lines 421-461) *)

(** Between the scanner and the parser, src/dynamo/lex.go holds a parser
    that only reads the tokens up to the end of input, prints them, and
    reports one error. *)
Module TokenDump.
Section Parser.
Context {UT : UnicodeTables}.
Variable fuel : nat.

(** One line of standard output,
    [fmt.Printf("%s: %s\n", p.fset.Position(t.pos), t)]: the position is
    kept as the [token.Pos] it renders. *)
Record Line : Type := mkLine {
  ln_pos : token.Pos;
  ln_tok : string
}.

Definition line_of (t : Token) : Line :=
  {| ln_pos := t_pos t; ln_tok := Token_String t |}.

(** [type dynParser struct { f; fset; lex }], and what it has printed. *)
Record dynParser : Type := mkParser {
  lex : dynLex;
  out : list Line
}.

(** [func newParser(f *token.File, fs *token.FileSet, l *dynLex) *dynParser] *)
Definition newParser (l : dynLex) : dynParser := {| lex := l; out := [] |}.

(** [p.lex.Token()] *)
Definition p_Token : M dynParser Token := fun p =>
  match lex_Token fuel (lex p) with
  | Ok (t, l') => Ok (t, {| lex := l'; out := out p |})
  | Panic e => Panic e
  | Hang => Hang
  | OutOfFuel => OutOfFuel
  end.

Definition Printf (t : Token) : M dynParser unit :=
  modify (fun p => {| lex := lex p; out := out p ++ [line_of t] |}).

(** The loop of [Parse]. *)
Fixpoint Parse_loop (n : nat) : M dynParser unit :=
  match n with
  | O => fun _ => OutOfFuel
  | S n' =>
    t <- p_Token ;;
    if itemType_eqb (t_kind t) itemEOF then ret tt
    else Printf t ;;; Parse_loop n'
  end.

(** [func (p *dynParser) Parse() ( *File, int)] *)
Definition dynParser_Parse : M dynParser (option File * Z) :=
  Parse_loop fuel ;;;
  ret (None, 1).

(** [func Parse(f *token.File, fset *token.FileSet, str string) ( *File, error)];
    the error [fmt.Errorf("%d parse errors", nerr)] is kept as its count. *)
Definition Parse (f : token.File) (str : string)
  : result ((option File * option Z) * dynParser) :=
  match dynParser_Parse (newParser (newLex str f)) with
  | Ok ((result, nerr), p) =>
    if negb (nerr =? 0) then Ok ((None, Some nerr), p)
    else Ok ((result, None), p)
  | Panic e => Panic e
  | Hang => Hang
  | OutOfFuel => OutOfFuel
  end.

End Parser.
End TokenDump.

(** ** The skeleton parser (src/unnamed/part_000) *)

(** src/unnamed/part_000 holds the parser in outline: the model loop is
    there, [stmtInto] only takes the token that starts the statement, and
    the model is dropped. *)
Module Skeleton.
Section Parser.
Context {UT : UnicodeTables}.
Variable fuel : nat.

(** [func (p *dynParser) stmtInto(m *ModelDecl)]; writing the empty string
    to [errBuf] leaves it as it is. *)
Definition stmtInto : P unit :=
  tok <- p_Token fuel ;;
  if negb (itemType_eqb (t_kind tok) itemIdentifier) then ret tt
  else ret tt.

(** The loop of [declModel]; the write to [errBuf] and [p.nerr++] are what
    the later [errorf] does. *)
Fixpoint declModel_loop (n : nat) : P unit :=
  match n with
  | O => fun _ => OutOfFuel
  | S n' =>
    tok <- p_Peek fuel ;;
    if itemType_eqb (t_kind tok) itemIdentifier && (len (t_val tok) =? 1)
    then stmtInto ;;; declModel_loop n'
    else p_errorf tok ("expected 1 char ident, not '" ++ t_val tok ++ "'")
  end.

(** [func (p *dynParser) declModel(n *Ident)] *)
Definition declModel (n : Ident) : P unit := declModel_loop fuel.

(** [func (p *dynParser) Parse() ( *File, int)] *)
Definition dynParser_Parse : P (File * Z) :=
  modify (fun p => set_file {| File_Name := Some (id "main");
                               File_Decls := File_Decls (p_f p) |} p) ;;;
  declModel (id "main") ;;;
  f <- gets p_f ;;
  nerr <- gets p_nerr ;;
  ret (f, nerr).

(** [func Parse(f *token.File, fset *token.FileSet, str string) ( *File, error)] *)
Definition Parse (f : token.File) (str : string)
  : result ((option File * option ParseError) * dynParser) :=
  match dynParser_Parse (newParser (newLex str f)) with
  | Ok ((result, nerr), p) =>
    if negb (nerr =? 0)
    then Ok ((None, Some {| pe_nerr := nerr; pe_errBuf := p_errBuf p |}), p)
    else Ok ((Some result, None), p)
  | Panic e => Panic e
  | Hang => Hang
  | OutOfFuel => OutOfFuel
  end.

End Parser.
End Skeleton.

(** ** Concrete instances *)

(** The tables left empty: enough for input that stays within Latin-1. *)
Definition latin1_tables : UnicodeTables :=
  {| White_Space := fun _ => false;
     Digit := fun _ => false;
     MapToUpper := fun s => s |}.

(** A stand-in for [float64] and [constEval] on which the pass can be run:
    a value is kept as the text that prints it, a literal evaluates to its
    own text, anything else fails. *)
Definition toy_numerics : Numerics :=
  {| float64 := string;
     float64_0 := "0.000000";
     float64_1 := "1.000000";
     Sprintf_f := fun x => x;
     constEval := fun e =>
       match e with
       | Some (BasicLitExpr b) => (BasicLit_Value b, None)
       | _ => ("", Some "not a constant")
       end |}.

(** ** Vocabulary of the specification *)

Section SpecWords.
Context {UT : UnicodeTables} {NU : Numerics}.

(** The statements of a model. *)
Definition body_of (m : ModelDecl) : list Stmt :=
  BlockStmt_List (ModelDecl_Body m).

(** A statement that is not an assignment to TIME, LENGTH, SAVPER or DT
    (names compared after upper-casing). *)
Definition ordinary (st : Stmt) : bool :=
  match assign_name st with
  | Some name => negb (is_control name)
  | None => true
  end.

(** A statement that assigns to the name [n], byte for byte. *)
Definition named (n : string) (st : Stmt) : bool :=
  match assign_name st with
  | Some x => String.eqb x n
  | None => false
  end.

(** The value the body gives to the control variable [NAME]: what the last
    assignment to it evaluates to, and [dflt] when it is never assigned. *)
Fixpoint assigned_value (NAME : string) (dflt : float64) (stmts : list Stmt)
  : float64 :=
  match stmts with
  | [] => dflt
  | AssignStmt lhs rhs :: rest =>
    if String.eqb (strings.ToUpper (Ident_Name (VarDecl_Name lhs))) NAME
    then assigned_value NAME (fst (constEval rhs)) rest
    else assigned_value NAME dflt rest
  | OtherStmt :: rest => assigned_value NAME dflt rest
  end.

(** No statement of [stmts] assigns to [NAME]. *)
Definition never_assigned (NAME : string) (stmts : list Stmt) : Prop :=
  forall st name, In st stmts -> assign_name st = Some name ->
                  strings.ToUpper name <> NAME.

(** An assignment to a control variable whose right-hand side does not
    evaluate to a constant. *)
Definition fails_to_evaluate (st : Stmt) (name : string) (e : error) : Prop :=
  exists lhs rhs,
    st = AssignStmt lhs rhs /\ name = Ident_Name (VarDecl_Name lhs)
    /\ is_control name = true /\ snd (constEval rhs) = Some e.
End SpecWords.

(** The first character of the input, as the scanner reads it: the rune that
    the first bytes decode to, and 0 when there is no input at all. *)
Definition first_rune (s : string) : rune :=
  match s with
  | EmptyString => eof
  | _ => fst (utf8.DecodeRuneInString s)
  end.

(** The kinds of token that can end a statement: identifier, number,
    kind-declaration, quoted literal, closing bracket, paren or square. *)
Definition ends_statement (k : itemType) : bool :=
  itemType_eqb k itemIdentifier || itemType_eqb k itemNumber
  || itemType_eqb k itemKindDecl || itemType_eqb k itemLiteral
  || itemType_eqb k itemRBracket || itemType_eqb k itemRParen
  || itemType_eqb k itemRSquare.

(** The text of [t] is the piece of the input [s] that ends at the offset
    which the position of [t] records in the file [f]. *)
Definition text_ends_at (s : string) (f : token.File) (t : Token) : Prop :=
  let hi := token.Offset f (t_pos t) in
  slice s (hi - len (t_val t)) hi = Some (t_val t).


(** The cursor of the scanner has moved, and nothing else: the input, the
    file's place in its set, the tokens emitted and the flag are as before. *)
Definition frame (l l' : dynLex) : Prop :=
  l_s l' = l_s l
  /\ token.base (l_f l') = token.base (l_f l)
  /\ token.size (l_f l') = token.size (l_f l)
  /\ l_last l' = l_last l
  /\ l_items l' = l_items l
  /\ l_semi l' = l_semi l
  /\ l_state l' = l_state l
  /\ l_peeked l' = l_peeked l
  /\ l_log l' = l_log l.

(** The position and the width of the last rune lie within the input. *)
Definition bounds (l : dynLex) : Prop :=
  0 <= l_pos l <= len (l_s l) /\ 0 <= l_width l <= len (l_s l).

(** What holds of the scanner of input [s] and file [f] at any point of a
    state function. *)
Definition scanning (s : string) (f : token.File) (l : dynLex) : Prop :=
  l_s l = s
  /\ token.base (l_f l) = token.base f
  /\ token.size (l_f l) = token.size f
  /\ bounds l
  /\ l_semi l = ends_statement (t_kind (l_last l))
  /\ Forall (text_ends_at s f) (l_items l).

(** What holds of it between two state functions: when the next state is
    [statement], no text is pending. *)
Definition settled (s : string) (f : token.File) (l : dynLex) : Prop :=
  scanning s f l /\ (l_state l = statementFn -> l_start l = l_pos l).

Section Reach.
Context {UT : UnicodeTables}.

(** The scanner states that calls of [Token] and of the cursor lead to,
    starting from [newLex s f]. *)
Inductive Reachable (s : string) (f : token.File) : dynLex -> Prop :=
| reach_newLex : Reachable s f (newLex s f)
| reach_advance (l l' : dynLex) :
    Reachable s f l -> l_items l = [] -> advance l = Ok (tt, l') ->
    Reachable s f l'
| reach_receive (l : dynLex) (t : Token) (rest : list Token) :
    Reachable s f l -> l_items l = t :: rest ->
    Reachable s f (set_items rest l)
| reach_slot (l : dynLex) (o : option Token) :
    Reachable s f l -> Reachable s f (set_peeked o l).

(** The first [n] tokens that [Token] hands out. *)
Fixpoint pull (fuel : nat) (n : nat) : L (list Token) :=
  match n with
  | O => ret []
  | S n' =>
    t <- lex_Token fuel ;;
    ts <- pull fuel n' ;;
    ret (t :: ts)
  end.
End Reach.

(** The role that the specification gives to a type tag in upper case. *)
Definition role_of_tag (tag : string) : option string :=
  if String.eqb tag "L" then Some "stock"
  else if String.eqb tag "N" then Some "initial"
  else if String.eqb tag "C" then Some "const"
  else if String.eqb tag "R" then Some "flow"
  else if String.eqb tag "A" then Some "aux"
  else if String.eqb tag "T" then Some "table"
  else None.

(** The same, tag by tag, in either case. *)
Definition tag_roles : list (string * string) :=
  [ ("L", "stock"); ("l", "stock"); ("N", "initial"); ("n", "initial");
    ("C", "const"); ("c", "const"); ("R", "flow"); ("r", "flow");
    ("A", "aux"); ("a", "aux"); ("T", "table"); ("t", "table") ].

Section ParserWords.
Context {UT : UnicodeTables} {NU : Numerics}.

(** The program that holds the model [main] with nothing in it but the
    timespec assignment with the default values. *)
Definition only_timespec : File :=
  {| File_Name := Some (id "main");
     File_Decls :=
       [ {| ModelDecl_Name := id "main";
            ModelDecl_Body :=
              {| BlockStmt_List :=
                   [ timespec_stmt
                       (mkTimespec float64_0 float64_0 float64_1 float64_1) ] |} |} ] |}.

(** [Parse] reports failure: a non-zero error count and a non-nil error. *)
Definition reports_failure
           (r : result ((option File * option ParseError) * dynParser)) : Prop :=
  match r with
  | Ok ((_, Some e), p) => pe_nerr e <> 0 /\ p_nerr p <> 0
  | _ => False
  end.

(** The parser after it has reported [tok] as a bad start of a statement. *)
Definition reported (tok : Token) (p : dynParser) : dynParser :=
  mkParser (p_lex p) (p_f p)
           (p_errBuf p ++ [ {| d_pos := t_pos tok;
                               d_msg := "expected 1 char ident, not '"
                                        ++ t_val tok ++ "'" |} ])
           (p_nerr p + 1) (p_out p).

(** The parser after the token in the lookahead slot is consumed. *)
Definition consumed (p : dynParser) : dynParser :=
  set_lex (set_peeked None (p_lex p)) p.
End ParserWords.

(** ** Vocabulary of the further properties *)

(** Between [l] and [l'] the scanner has sent the tokens [new] on its channel
    and has written the entries [logs] to the log. *)
Definition sent (new : list Token) (logs : list LogEntry) (l l' : dynLex) : Prop :=
  l_items l' = l_items l ++ new /\ l_log l' = l_log l ++ logs.

(** The log entry for a character that no case of [statement] takes. *)
Definition is_unrecognized (e : LogEntry) : bool :=
  match e with
  | LogUnrecognized _ => true
  | _ => false
  end.

(** The backtick and the double quote, as bytes of the input. *)
Definition backtick_char : ascii := ascii_of_nat 96.
Definition quote_char : ascii := ascii_of_nat 34.

(** A byte that can stand in a title line: ASCII, and neither the newline
    nor the 0 that [next] also gives at the end of input. *)
Definition title_byte (b : Z) : bool :=
  (b <? utf8.RuneSelf) && negb (b =? 10) && negb (b =? eof).

(** A program: the asterisk, the rest of the title line, the newline that
    ends it, and what follows. *)
Definition titled (title rest : string) : string :=
  ("*" ++ title ++ nl ++ rest)%string.

(** The parser has moved on from [p] to [p'] and has touched neither the
    program nor the diagnostics. *)
Definition quiet (p p' : dynParser) : Prop :=
  p_f p' = p_f p /\ p_errBuf p' = p_errBuf p /\ p_nerr p' = p_nerr p.

(** The parser has moved on from [p] to [p'], has left the program alone, and
    has counted exactly the diagnostics [more] that it has added. *)
Definition logged (more : list Diag) (p p' : dynParser) : Prop :=
  p_f p' = p_f p
  /\ p_errBuf p' = p_errBuf p ++ more
  /\ p_nerr p' = p_nerr p + Z.of_nat (List.length more).

(** The error count is the number of diagnostics. *)
Definition counted (p : dynParser) : Prop :=
  p_nerr p = Z.of_nat (List.length (p_errBuf p)).

(** The lines that [discardStmt] has printed, one for each token that it has
    thrown away. *)
Definition discarded (p : dynParser) : list string :=
  filter (String.prefix "discard: ") (p_out p).

(** The six role names. *)
Definition role_names : list string :=
  ["stock"; "initial"; "const"; "flow"; "aux"; "table"].

(** A statement as [stmtInto] appends it: an assignment whose declaration
    has one of the six roles, and whose value is a FLOAT literal or nil. *)
Definition parsed_stmt (st : Stmt) : Prop :=
  exists decl rhs,
    st = AssignStmt decl rhs
    /\ (exists ty, VarDecl_Type decl = Some ty /\ In (Ident_Name ty) role_names)
    /\ (rhs = None
        \/ exists b, rhs = Some (BasicLitExpr b) /\ BasicLit_Kind b = token.FLOAT).

(** The five roles of a variable that holds one value. *)
Definition scalar_roles : list string :=
  ["stock"; "initial"; "const"; "flow"; "aux"].

(** An assignment of a FLOAT literal to a variable with one of these roles. *)
Definition valued_stmt (st : Stmt) : Prop :=
  exists decl b ty,
    st = AssignStmt decl (Some (BasicLitExpr b))
    /\ BasicLit_Kind b = token.FLOAT
    /\ VarDecl_Type decl = Some ty /\ In (Ident_Name ty) scalar_roles.

(** The call does not end in the panic of [typeIdent]. *)
Definition no_type_panic {A : Type} (r : result A) : Prop :=
  forall v, r <> Panic (UnknownType v).

(** The panic of [typeIdent], among the faults. *)
Definition is_type_panic (e : fault) : bool :=
  match e with
  | UnknownType _ => true
  | _ => false
  end.

(** A parser method that, called on a parser whose scanner is in a state
    that calls of [Token] lead to, hands no illegal offset to the file and
    leaves the scanner in such a state. *)
Definition keeps_scanner {UT : UnicodeTables} {A : Type}
           (s : string) (f : token.File) (c : P A) : Prop :=
  forall p, Reachable s f (p_lex p) ->
            c p <> Panic IllegalOffset
            /\ forall a p', c p = Ok (a, p') -> Reachable s f (p_lex p').

(** The values of the timespec when no control variable is assigned. *)
Definition default_timespec {NU : Numerics} : Timespec :=
  mkTimespec float64_0 float64_0 float64_1 float64_1.

(** ** Vocabulary of the plain programs *)

(** White space within ASCII: the characters below 128 of which
    [unicode.IsSpace] holds. *)
Definition space_byte (b : Z) : bool :=
  (b =? 9) || (b =? 10) || (b =? 11) || (b =? 12) || (b =? 13) || (b =? 32).






(** The pieces that the text of a plain program is made of: white space,
    the semicolon, names, numbers, one-character operators, comments that
    start with two slashes, and comments between [/*] and [*/]. *)
Inductive lexeme : Type :=
| Blank (c : ascii)
| Newline
| Semicolon
| Name (w : string)
| Number (whole : string) (fraction : option string)
         (exponent : option (ascii * option ascii * string))
| Operator (c : ascii)
| LineComment (body : string)
| BlockComment (body : string).

(** The dot and the digits behind it. *)
Definition fraction_text (fr : option string) : string :=
  match fr with
  | Some d => String "." d
  | None => EmptyString
  end.

(** The exponent marker, the sign, and the digits of the exponent. *)
Definition exponent_text (ex : option (ascii * option ascii * string)) : string :=
  match ex with
  | Some (e, Some sg, d) => String e (String sg d)
  | Some (e, None, d) => String e d
  | None => EmptyString
  end.

Definition lexeme_text (x : lexeme) : string :=
  match x with
  | Blank c => String c EmptyString
  | Newline => nl
  | Semicolon => ";"
  | Name w => w
  | Number w fr ex => w ++ fraction_text fr ++ exponent_text ex
  | Operator c => String c EmptyString
  | LineComment body => String "/" (String "/" body)
  | BlockComment body => String "/" (String "*" (body ++ "*/"))
  end.

Fixpoint text_of (ps : list lexeme) : string :=
  match ps with
  | [] => EmptyString
  | x :: rest => lexeme_text x ++ text_of rest
  end.

(** A program: the title line, and the pieces behind it. *)
Definition program (title : string) (ps : list lexeme) : string :=
  titled title (text_of ps).



















(** [s] without its white space. *)
Fixpoint unspaced (s : string) : string :=
  match s with
  | EmptyString => EmptyString
  | String c rest =>
    if space_byte (byte_val c) then unspaced rest else String c (unspaced rest)
  end.

(** Where a text starts: in the program proper, within a comment that runs
    to the end of the line, or within a comment that runs to the next [*/]. *)
Inductive place : Type := in_code | in_line | in_block.

(** [s] without its comments.  A comment starts at two slashes and ends in
    front of the next newline, or starts at [/*] and ends behind the next
    [*/]; [pl] tells where [s] starts, which for a program is within the
    comment that its title line is. *)
Fixpoint uncommented (pl : place) (s : string) : string :=
  match s with
  | EmptyString => EmptyString
  | String c rest =>
    match pl with
    | in_line =>
      if byte_val c =? 10 then String c (uncommented in_code rest)
      else uncommented in_line rest
    | in_block =>
      match rest with
      | String d rest' =>
        if (byte_val c =? 42) && (byte_val d =? 47) then uncommented in_code rest'
        else uncommented in_block rest
      | EmptyString => EmptyString
      end
    | in_code =>
      match rest with
      | String d rest' =>
        if (byte_val c =? 47) && (byte_val d =? 47) then uncommented in_line rest'
        else if (byte_val c =? 47) && (byte_val d =? 42)
             then uncommented in_block rest'
             else String c (uncommented in_code rest)
      | EmptyString => String c EmptyString
      end
    end
  end.




(** The scanner of the input [s] is about to call [statement] at offset
    [off]: no text is pending, the channel is empty, and [semi] tells
    whether a terminator is due. *)
Definition poised (s : string) (f : token.File) (off : Z) (semi : bool)
           (l : dynLex) : Prop :=
  l_s l = s
  /\ token.base (l_f l) = token.base f
  /\ token.size (l_f l) = token.size f
  /\ l_pos l = off /\ l_start l = off
  /\ l_items l = [] /\ l_state l = statementFn /\ l_semi l = semi.


(** ** Sample input *)

(** The file that [transliterate] registers for a source text: the first file
    of a fresh file set, of the size of the text. *)
Definition file_for (src : string) : token.File := token.NewFile 1 (len src).

Definition prog_no_star : string := "C X=1;".
Definition prog_two_lines : string :=
  ("* x" ++ nl ++ "C X=1" ++ nl ++ "C Y=2" ++ nl)%string.
Definition prog_recover : string :=
  ("*" ++ nl ++ "C X = " ++ nl ++ "C Y=2;")%string.
Definition prog_table : string :=
  ("*" ++ nl ++ "T AHMT=2/2/1.6/1/.2/.005;")%string.
Definition prog_bad_leader : string :=
  ("*" ++ nl ++ "foo" ++ nl ++ "C Y=2;" ++ nl)%string.

(** Sample models for the timespec pass. *)
Definition assign (tag name text : string) : Stmt :=
  AssignStmt (mkVarDecl (mkIdent 0 name) (Some (mkIdent 0 tag)))
             (Some (BasicLitExpr (mkBasicLit 0 token.FLOAT text))).

Definition model_of (stmts : list Stmt) : ModelDecl :=
  {| ModelDecl_Name := mkIdent 0 "main";
     ModelDecl_Body := {| BlockStmt_List := stmts |} |}.

Definition sample_model : ModelDecl :=
  model_of [ assign "const" "TIME" "0"; assign "const" "POPN" "100";
             assign "const" "dt" "0.5" ].

Definition sample_bad_model : ModelDecl :=
  model_of [ assign "const" "POPN" "100";
             AssignStmt (mkVarDecl (mkIdent 0 "Length") (Some (mkIdent 0 "table")))
                        (Some (TableFwdExpr [])) ].

(** The result of a computation that returned, [dflt] otherwise. *)
Definition state_after {S A : Type} (r : result (A * S)) (dflt : S) : S :=
  match r with
  | Ok (_, st) => st
  | _ => dflt
  end.

(** The scanner of a program that is only its title line, once the title is
    skipped: it is in the [statement] state, in front of the newline. *)
Definition title_only : string := ("*" ++ nl)%string.
Definition after_star : dynLex :=
  let l0 := newLex title_only (file_for title_only) in
  state_after (advance (UT := latin1_tables) l0) l0.
Definition after_title : dynLex :=
  state_after (advance (UT := latin1_tables) after_star) after_star.
Definition after_title_newline : dynLex :=
  state_after (next after_title) after_title.

(** The parser in front of the program [prog_bad_leader]. *)
Definition at_bad_leader : dynParser :=
  newParser (newLex prog_bad_leader (file_for prog_bad_leader)).

(** The parser in front of the statement of the program [* / C Y=2;]. *)
Definition prog_one : string := ("*" ++ nl ++ "C Y=2;" ++ nl)%string.
Definition at_statement : dynParser :=
  newParser (newLex prog_one (file_for prog_one)).


(** The token [foo] that starts [prog_bad_leader]. *)
Definition foo_token : Token := {| t_pos := 6; t_val := "foo"; t_kind := itemIdentifier |}.

Definition sample_after : ModelDecl :=
  fst (extractTimespec (UT := latin1_tables) (NU := toy_numerics) sample_model).

(** What a computation that returned has given, [dflt] otherwise. *)
Definition value_of {S A : Type} (r : result (A * S)) (dflt : A) : A :=
  match r with
  | Ok (a, _) => a
  | _ => dflt
  end.

(** The parser after the first three tokens of a program. *)
Definition after_three (src : string) : dynParser :=
  let p0 := newParser (newLex src (file_for src)) in
  state_after ((p_Token (UT := latin1_tables) 40 ;;;
                p_Token (UT := latin1_tables) 40 ;;;
                p_Token (UT := latin1_tables) 40) p0) p0.

(** The parser in front of the values of the table of [prog_table], and the
    parser of [prog_recover] behind the [=] of its first statement. *)
Definition at_table : dynParser := after_three prog_table.
Definition at_value : dynParser := after_three prog_recover.

(** The scanner of [prog_no_star] once it has refused the input. *)
Definition refused : dynLex :=
  let l0 := newLex prog_no_star (file_for prog_no_star) in
  state_after (advance (UT := latin1_tables) l0) l0.

(** A program that ends in a backtick, and its scanner in front of the
    backtick, in the [statement] state. *)
Definition prog_lone_backtick : string := ("*" ++ nl ++ "`")%string.
Definition at_lone_backtick : dynLex :=
  let l0 := newLex prog_lone_backtick (file_for prog_lone_backtick) in
  state_after ((advance (UT := latin1_tables) ;;;
                advance (UT := latin1_tables) ;;;
                advance (UT := latin1_tables)) l0) l0.

(** The scanner in front of a word that ends the input, and in front of a
    word that a semicolon follows. *)
Definition word_only : dynLex := newLex "abc" (file_for "abc").
Definition word_then_semi : dynLex := newLex "abc;" (file_for "abc;").

(** The scanner of the input [12;] as [statement] hands it to [number]: the
    first digit has been read and given back. *)
Definition at_number : dynLex :=
  let l0 := set_state statementFn (newLex "12;" (file_for "12;")) in
  state_after (statement (UT := latin1_tables) l0) l0.

(** The scanner of [prog_two_lines] once the four tokens [C], [X], [=] and
    [1] of its first statement are handed out: it is in the [statement]
    state, in front of the newline that ends the line, and the last token
    emitted is a number. *)
Definition before_newline : dynLex :=
  let l0 := newLex prog_two_lines (file_for prog_two_lines) in
  state_after (pull (UT := latin1_tables) 20 4 l0) l0.

(** A program that ends in a closing paren, and its scanner once that paren
    is handed out: it is in the [statement] state, at the end of the input,
    and the last token emitted is the paren. *)
Definition prog_closed : string := ("*" ++ nl ++ ")")%string.
Definition closed_at_end : dynLex :=
  let l0 := newLex prog_closed (file_for prog_closed) in
  state_after (pull (UT := latin1_tables) 20 1 l0) l0.

(** The scanner of [title_only] once the newline behind the title is read:
    it is at the end of the input and has emitted nothing. *)
Definition title_at_end : dynLex :=
  state_after (advance (UT := latin1_tables) after_title) after_title.

(** The title and the rest of [prog_two_lines]. *)
Definition two_lines_title : string := " x".
Definition two_lines_rest : string :=
  ("C X=1" ++ nl ++ "C Y=2" ++ nl)%string.

(** A model that assigns no control variable. *)
Definition plain_model : ModelDecl := model_of [ assign "const" "POPN" "100" ].

(** A plain program: a title, a constant with an exponent and a comment
    behind it, a comment of two lines, and a table with two values. *)
Definition sample_title : string := " growth".
Definition sample_pieces : list lexeme :=
  [ Name "C"; Blank " "; Name "RATE"; Operator "=";
    Number "1" (Some "5") (Some ("e"%char, Some "-"%char, "3"));
    Blank " "; LineComment " per year"; Newline;
    BlockComment (" the table:" ++ nl ++ "   two values ")%string; Newline;
    Name "T"; Blank " "; Name "TAB"; Blank " "; Operator "="; Blank " ";
    Number "2" None None; Operator "/"; Number "" (Some "5") None;
    Semicolon; Newline ].
Definition plain_sample : string := program sample_title sample_pieces.

(** ** Proof steps *)

(** Case analysis on the first computation of a sequence that returned. *)
Ltac bind_inv_as H a l E :=
  lazymatch type of H with
  | bind ?m ?k ?st = Ok ?r =>
    unfold bind in H at 1; cbv beta in H;
    destruct (m st) as [[a l]| | |] eqn:E;
    [ | discriminate H | discriminate H | discriminate H ]
  end.

Tactic Notation "bind_inv" hyp(H) "as" ident(a) ident(l) ident(E) :=
  bind_inv_as H a l E.

(** * Properties *)

(** ** The timespec pass *)

Section TimespecFacts.
Context {UT : UnicodeTables} {NU : Numerics}.

Lemma firstn_skipn_cut (lst : list Stmt) (i : nat) (stmt : Stmt) :
  nth_error lst i = Some stmt ->
  lst = firstn i lst ++ stmt :: skipn (S i) lst.
Proof.
  revert i; induction lst as [|a lst IH]; intros [|i] H; simpl in *;
    try discriminate.
  - now inversion H.
  - f_equal. now apply IH.
Qed.

Lemma firstn_past (lst : list Stmt) (i : nat) :
  nth_error lst i = None -> firstn i lst = lst /\ skipn i lst = [].
Proof.
  intros H. apply nth_error_None in H. split.
  - now apply firstn_all2.
  - now apply skipn_all2.
Qed.

(** The index loop is a filter: it keeps the statements before [i] and the
    ordinary ones from [i] on, in order. *)
Lemma remove_loop_filter (n : nat) :
  forall (i : nat) (lst : list Stmt),
    (List.length lst - i <= n)%nat ->
    remove_loop n i lst = firstn i lst ++ filter ordinary (skipn i lst).
Proof.
  induction n as [|n IH]; intros i lst Hn; simpl.
  - assert (Hi : nth_error lst i = None) by (apply nth_error_None; lia).
    destruct (firstn_past _ _ Hi) as [-> ->]. simpl. now rewrite app_nil_r.
  - destruct (nth_error lst i) as [stmt|] eqn:Hi.
    + pose proof (firstn_skipn_cut _ _ _ Hi) as Hcut.
      assert (Hlen : (i < List.length lst)%nat)
        by (apply nth_error_Some; congruence).
      assert (Hfl : List.length (firstn i lst) = i)
        by (rewrite length_firstn; lia).
      assert (Hsk : skipn i lst = stmt :: skipn (S i) lst).
      { rewrite Hcut at 1. rewrite skipn_app, Hfl, Nat.sub_diag.
        rewrite skipn_all2 by lia. reflexivity. }
      assert (Hdrop :
                remove_loop n i (firstn i lst ++ skipn (S i) lst)
                = firstn i lst ++ filter ordinary (skipn (S i) lst)).
      { rewrite IH.
        - rewrite firstn_app, Hfl, Nat.sub_diag, firstn_O, app_nil_r.
          rewrite firstn_all2 by lia.
          rewrite skipn_app, Hfl, Nat.sub_diag.
          rewrite (skipn_all2 (firstn i lst)) by lia. reflexivity.
        - rewrite length_app, Hfl, length_skipn. lia. }
      assert (Hmove :
                remove_loop n (S i) lst
                = firstn i lst ++ stmt :: filter ordinary (skipn (S i) lst)).
      { rewrite IH by lia.
        rewrite Hcut at 1.
        rewrite firstn_app, Hfl.
        replace (S i - i)%nat with 1%nat by lia.
        rewrite (firstn_all2 (n := S i) (firstn i lst)) by lia.
        simpl. rewrite <- app_assoc. reflexivity. }
      rewrite Hsk. simpl. unfold ordinary at 1 2.
      destruct (assign_name stmt) as [name|].
      * destruct (is_control name); simpl; assumption.
      * assumption.
    + destruct (firstn_past _ _ Hi) as [-> ->]. simpl. now rewrite app_nil_r.
Qed.

(** What [extractTimespec] leaves when no evaluation fails. *)
Lemma extractTimespec_ok (m m' : ModelDecl) :
  extractTimespec m = (m', None) ->
  exists spec,
    eval_loop (body_of m)
              (mkTimespec float64_0 float64_0 float64_1 float64_1) = inl spec
    /\ m' = set_body (filter ordinary (body_of m) ++ [timespec_stmt spec]) m.
Proof.
  unfold extractTimespec, body_of. intros H.
  destruct (eval_loop _ _) as [spec|err] eqn:He; [|discriminate].
  exists spec. split; [reflexivity|].
  rewrite remove_loop_filter in H by lia. simpl in H.
  now inversion H.
Qed.

Lemma body_of_set_body (lst : list Stmt) (m : ModelDecl) :
  body_of (set_body lst m) = lst.
Proof. reflexivity. Qed.

Lemma is_control_timespec : is_control "timespec" = false.
Proof. reflexivity. Qed.

Lemma filter_ordinary_In (lst : list Stmt) (lhs : VarDecl) (rhs : option Expr) :
  In (AssignStmt lhs rhs) (filter ordinary lst) ->
  is_control (Ident_Name (VarDecl_Name lhs)) = false.
Proof.
  intros H. apply filter_In in H. destruct H as [_ H].
  unfold ordinary in H. simpl in H. now apply negb_true_iff in H.
Qed.

Lemma filter_named_ordinary (lst : list Stmt) :
  filter (named "timespec") (filter ordinary lst)
  = filter (named "timespec") lst.
Proof.
  induction lst as [|st lst IH]; simpl; [reflexivity|].
  destruct (ordinary st) eqn:Ho; simpl; rewrite IH; [reflexivity|].
  destruct (named "timespec" st) eqn:Hn; [|reflexivity].
  exfalso. unfold named, ordinary in *.
  destruct (assign_name st) as [x|]; [|discriminate].
  apply String.eqb_eq in Hn. subst x.
  rewrite is_control_timespec in Ho. discriminate.
Qed.

(** C1: once the timespec pass has run on a model without an evaluation
    failing, the body holds no assignment whose upper-cased target name is
    TIME, LENGTH, SAVPER or DT.  The body is the ordinary statements of the
    old body, in order, followed by exactly one statement built by the pass:
    it assigns to [timespec], it is the last statement, and it is the only
    addition to the statements of that name. *)
Theorem extractTimespec_body (m m' : ModelDecl) :
  extractTimespec m = (m', None) ->
  (forall lhs rhs, In (AssignStmt lhs rhs) (body_of m') ->
                   is_control (Ident_Name (VarDecl_Name lhs)) = false)
  /\ exists ts,
      body_of m' = filter ordinary (body_of m) ++ [ts]
      /\ assign_name ts = Some "timespec"
      /\ List.last (body_of m') OtherStmt = ts
      /\ filter (named "timespec") (body_of m')
         = filter (named "timespec") (body_of m) ++ [ts].
Proof.
  intros H. destruct (extractTimespec_ok _ _ H) as (spec & _ & ->).
  rewrite !body_of_set_body. split.
  - intros lhs rhs Hin. apply in_app_or in Hin. destruct Hin as [Hin|Hin].
    + now apply filter_ordinary_In in Hin.
    + destruct Hin as [Hin|[]]. inversion Hin. apply is_control_timespec.
  - exists (timespec_stmt spec). repeat split.
    + apply last_last.
    + rewrite filter_app, filter_named_ordinary. reflexivity.
Qed.

(** The four values, as the first loop computes them. *)
Lemma eval_loop_values (stmts : list Stmt) :
  forall spec spec',
    eval_loop stmts spec = inl spec' ->
    spec' = {| Start := assigned_value "TIME" (Start spec) stmts;
               End_ := assigned_value "LENGTH" (End_ spec) stmts;
               DT := assigned_value "DT" (DT spec) stmts;
               SaveStep := assigned_value "SAVPER" (SaveStep spec) stmts |}.
Proof.
  induction stmts as [|st stmts IH]; intros spec spec' H; simpl in *.
  - inversion H. now destruct spec'.
  - destruct st as [lhs rhs|]; simpl in H.
    + destruct (constEval rhs) as [v err] eqn:Hce; simpl.
      set (up := strings.ToUpper (Ident_Name (VarDecl_Name lhs))) in *.
      destruct (String.eqb up "TIME") eqn:E1.
      { apply String.eqb_eq in E1. rewrite E1 in *. simpl.
        destruct err; [discriminate|]. now apply IH in H. }
      destruct (String.eqb up "LENGTH") eqn:E2.
      { apply String.eqb_eq in E2. rewrite E2 in *. simpl.
        destruct err; [discriminate|]. now apply IH in H. }
      destruct (String.eqb up "SAVPER") eqn:E3.
      { apply String.eqb_eq in E3. rewrite E3 in *. simpl.
        destruct err; [discriminate|]. now apply IH in H. }
      destruct (String.eqb up "DT") eqn:E4.
      { apply String.eqb_eq in E4. rewrite E4 in *. simpl.
        destruct err; [discriminate|]. now apply IH in H. }
      now apply IH in H.
    + now apply IH in H.
Qed.

Lemma assigned_value_default (NAME : string) (stmts : list Stmt) :
  forall dflt,
    never_assigned NAME stmts -> assigned_value NAME dflt stmts = dflt.
Proof.
  induction stmts as [|st stmts IH]; intros dflt Hn; simpl; [reflexivity|].
  assert (Hrest : never_assigned NAME stmts).
  { intros s n Hin. apply Hn. now right. }
  destruct st as [lhs rhs|]; [|now apply IH].
  destruct (String.eqb _ NAME) eqn:E; [|now apply IH].
  apply String.eqb_eq in E. exfalso.
  eapply (Hn (AssignStmt lhs rhs)); [now left|reflexivity|exact E].
Qed.

(** C2: when the timespec pass runs on a model and no evaluation fails, the
    statement it appends assigns to [timespec] a composite literal of
    exactly four key/value entries, in the order start, end, dt, save_step,
    each value a FLOAT literal: start prints the evaluated TIME, end the
    evaluated LENGTH, dt the evaluated DT and save_step the evaluated
    SAVPER; a control variable the body never assigns gives its default (0
    for start and end, 1 for dt and save_step). *)
Theorem extractTimespec_values (m m' : ModelDecl) :
  extractTimespec m = (m', None) ->
  let start := assigned_value "TIME" float64_0 (body_of m) in
  let end_ := assigned_value "LENGTH" float64_0 (body_of m) in
  let dt := assigned_value "DT" float64_1 (body_of m) in
  let save := assigned_value "SAVPER" float64_1 (body_of m) in
  let lit f := BasicLitExpr (mkBasicLit 0 token.FLOAT (Sprintf_f f)) in
  List.last (body_of m') OtherStmt
  = AssignStmt (mkVarDecl (mkIdent 0 "timespec") None)
               (Some (CompositeLit
                        [ mkKeyValueExpr (mkIdent 0 "start") (lit start);
                          mkKeyValueExpr (mkIdent 0 "end") (lit end_);
                          mkKeyValueExpr (mkIdent 0 "dt") (lit dt);
                          mkKeyValueExpr (mkIdent 0 "save_step") (lit save) ]))
  /\ (never_assigned "TIME" (body_of m) -> start = float64_0)
  /\ (never_assigned "LENGTH" (body_of m) -> end_ = float64_0)
  /\ (never_assigned "DT" (body_of m) -> dt = float64_1)
  /\ (never_assigned "SAVPER" (body_of m) -> save = float64_1).
Proof.
  intros H. destruct (extractTimespec_ok _ _ H) as (spec & He & ->).
  apply eval_loop_values in He. simpl in He. subst spec.
  cbv zeta. rewrite body_of_set_body, last_last.
  repeat split; try reflexivity; intros Hn;
    now apply assigned_value_default.
Qed.

Lemma eval_stmt_err (st : Stmt) (spec spec' : Timespec) (e : error) :
  eval_stmt st spec = (spec', Some e) ->
  exists name, assign_name st = Some name /\ fails_to_evaluate st name e.
Proof.
  destruct st as [lhs rhs|]; simpl; [|discriminate].
  intros H. exists (Ident_Name (VarDecl_Name lhs)). split; [reflexivity|].
  exists lhs, rhs. repeat split. 
  - unfold is_control.
    destruct (String.eqb _ "TIME"); [reflexivity|].
    destruct (String.eqb _ "LENGTH"); [reflexivity|].
    destruct (String.eqb _ "SAVPER"); [reflexivity|].
    destruct (String.eqb _ "DT"); [reflexivity|discriminate].
  - destruct (constEval rhs) as [v err]; simpl.
    destruct (String.eqb _ "TIME"); [congruence|].
    destruct (String.eqb _ "LENGTH"); [congruence|].
    destruct (String.eqb _ "SAVPER"); [congruence|].
    destruct (String.eqb _ "DT"); [congruence|discriminate].
Qed.

Lemma eval_stmt_ok (st : Stmt) (spec spec' : Timespec) :
  eval_stmt st spec = (spec', None) ->
  forall name e, ~ fails_to_evaluate st name e.
Proof.
  intros H name e (lhs & rhs & -> & -> & Hc & He). simpl in H.
  unfold is_control in Hc.
  destruct (constEval rhs) as [v err]; simpl in He; subst err.
  destruct (String.eqb _ "TIME"); [discriminate|].
  destruct (String.eqb _ "LENGTH"); [discriminate|].
  destruct (String.eqb _ "SAVPER"); [discriminate|].
  destruct (String.eqb _ "DT"); discriminate.
Qed.

Lemma eval_loop_fails (stmts : list Stmt) :
  forall spec,
    (exists st name e, In st stmts /\ fails_to_evaluate st name e) ->
    exists st name e,
      In st stmts /\ fails_to_evaluate st name e
      /\ eval_loop stmts spec = inr ("constEval(" ++ name ++ "): " ++ e)%string.
Proof.
  induction stmts as [|st stmts IH]; intros spec (st0 & name & e & Hin & Hf).
  - destruct Hin.
  - simpl. destruct (eval_stmt st spec) as [spec' [err|]] eqn:Hs.
    + destruct (eval_stmt_err _ _ _ _ Hs) as (n & Hn & Hfail).
      exists st, n, err. rewrite Hn. repeat split; [now left|assumption].
    + destruct Hin as [->|Hin].
      * exfalso. eapply eval_stmt_ok; eassumption.
      * destruct (IH spec') as (st1 & n1 & e1 & Hin1 & Hf1 & Hev).
        { now exists st0, name, e. }
        exists st1, n1, e1. repeat split; [now right|assumption|assumption].
Qed.

(** C10: if the body holds an assignment to TIME, LENGTH, SAVPER or DT whose
    right-hand side fails to evaluate, the timespec pass returns an error
    that names such a variable, with the evaluator's message, and the model
    is as it was: nothing is removed and no timespec assignment is added. *)
Theorem extractTimespec_failure (m : ModelDecl) :
  (exists st name e, In st (body_of m) /\ fails_to_evaluate st name e) ->
  exists st name e,
    In st (body_of m) /\ fails_to_evaluate st name e
    /\ extractTimespec m
       = (m, Some ("constEval(" ++ name ++ "): " ++ e)%string).
Proof.
  intros H.
  destruct (eval_loop_fails _ (mkTimespec float64_0 float64_0 float64_1 float64_1) H)
    as (st & name & e & Hin & Hf & Hev).
  exists st, name, e. repeat split; try assumption.
  unfold extractTimespec. unfold body_of in Hev. now rewrite Hev.
Qed.
End TimespecFacts.

(** ** Strings *)

Lemma len_nonneg (s : string) : 0 <= len s.
Proof. unfold len. lia. Qed.

Lemma len_String (c : ascii) (s : string) : len (String c s) = 1 + len s.
Proof. unfold len. simpl String.length. lia. Qed.

Lemma length_substring (s : string) :
  forall n m : nat,
    (n + m <= String.length s)%nat -> String.length (substring n m s) = m.
Proof.
  induction s as [|c s IH]; intros n m H; simpl in *.
  - destruct n, m; simpl; lia.
  - destruct n as [|n].
    + destruct m as [|m]; simpl; [reflexivity|]. rewrite IH; lia.
    + apply IH. lia.
Qed.

Lemma substring_whole (s : string) : substring 0 (String.length s) s = s.
Proof. induction s as [|c s IH]; simpl; [reflexivity|now rewrite IH]. Qed.

Lemma slice_Some (s v : string) (lo hi : Z) :
  slice s lo hi = Some v ->
  0 <= lo /\ lo <= hi /\ hi <= len s /\ len v = hi - lo.
Proof.
  unfold slice. intros H.
  destruct (0 <=? lo) eqn:E1; [|discriminate].
  destruct (lo <=? hi) eqn:E2; [|discriminate].
  destruct (hi <=? len s) eqn:E3; [|discriminate].
  simpl in H. inversion H as [Hv]. clear H.
  apply Z.leb_le in E1, E2, E3. repeat split; try assumption.
  unfold len in *. rewrite length_substring; lia.
Qed.

Lemma slice_ok (s : string) (lo hi : Z) :
  0 <= lo -> lo <= hi -> hi <= len s -> exists v, slice s lo hi = Some v.
Proof.
  intros H1 H2 H3. unfold slice.
  apply Z.leb_le in H1, H2, H3. rewrite H1, H2, H3. simpl. eauto.
Qed.

Lemma slice_from_zero (s : string) : slice_from s 0 = Some s.
Proof.
  unfold slice_from, slice. pose proof (len_nonneg s) as H.
  apply Z.leb_le in H. rewrite H, (Z.leb_refl (len s)). simpl.
  rewrite Z.sub_0_r. unfold len. rewrite Nat2Z.id, substring_whole.
  reflexivity.
Qed.

(** A rune that [DecodeRuneInString] finds is at least one byte wide and
    lies within the string. *)
Lemma decode_width (s : string) :
  s <> EmptyString ->
  1 <= snd (utf8.DecodeRuneInString s) <= len s.
Proof.
  destruct s as [|c0 t0]; [congruence|]. intros _.
  unfold utf8.DecodeRuneInString.
  repeat match goal with
         | |- context [if ?b then _ else _] => destruct b eqn:?
         | |- context [match ?t with EmptyString => _ | String _ _ => _ end] =>
           destruct t
         end;
    simpl snd;
    repeat match goal with
           | H : (_ <? _) = false |- _ => apply Z.ltb_ge in H
           | H : (_ <=? _) = false |- _ => apply Z.leb_gt in H
           | H : (_ <=? _) = true |- _ => apply Z.leb_le in H
           end;
    unfold len in *; simpl String.length in *; lia.
Qed.

(** ** The scanner *)

Section ScannerFacts.
Context {UT : UnicodeTables}.

Lemma frame_refl (l : dynLex) : frame l l.
Proof. unfold frame. tauto. Qed.

Lemma frame_trans (l1 l2 l3 : dynLex) : frame l1 l2 -> frame l2 l3 -> frame l1 l3.
Proof. unfold frame. intuition congruence. Qed.

Lemma next_spec (l l' : dynLex) (r : rune) :
  next l = Ok (r, l') -> bounds l ->
  frame l l' /\ bounds l' /\ l_width l' <= l_pos l'
  /\ l_start l' = l_start l /\ l_pos l <= l_pos l'
  /\ (at_end l = false -> l_pos l < l_pos l').
Proof.
  unfold next, at_end, bounds. intros H (Hp & Hw).
  destruct (len (l_s l) <=? l_pos l) eqn:E.
  - inversion H; subst. apply Z.leb_le in E.
    repeat split; try apply frame_refl; try lia; try discriminate.
  - apply Z.leb_gt in E.
    destruct (slice_from (l_s l) (l_pos l)) as [rest|] eqn:Hs; [|discriminate].
    apply slice_Some in Hs. destruct Hs as (_ & _ & _ & Hlen).
    assert (Hne : rest <> EmptyString).
    { intros ->. change (len "") with 0 in Hlen. lia. }
    pose proof (decode_width rest Hne) as Hw'.
    destruct (utf8.DecodeRuneInString rest) as [r0 w]. simpl in Hw'.
    inversion H; subst r0 l'. clear H.
    destruct (r =? 10); simpl; unfold frame; simpl;
      repeat split; try reflexivity; try lia.
    all: unfold token.AddLine; 
      repeat match goal with |- context [if ?b then _ else _] => destruct b end; reflexivity.
Qed.

Lemma backup_spec (l l' : dynLex) :
  backup l = Ok (tt, l') -> bounds l -> l_width l <= l_pos l ->
  frame l l' /\ bounds l' /\ l_start l' = l_start l.
Proof.
  unfold backup, modify, bounds. intros H Hb Hw. inversion H; subst l'. clear H.
  unfold frame; simpl. repeat split; try reflexivity; lia.
Qed.

Lemma peek_spec (l l' : dynLex) (r : rune) :
  peek l = Ok (r, l') -> bounds l ->
  frame l l' /\ bounds l' /\ l_start l' = l_start l.
Proof.
  unfold peek. intros H Hb. bind_inv H as r1 l1 E1. bind_inv H as u l2 E2.
  destruct u. inversion H; subst. clear H.
  apply next_spec in E1; [|assumption].
  destruct E1 as (F1 & B1 & W1 & S1 & _).
  apply backup_spec in E2; try assumption.
  destruct E2 as (F2 & B2 & S2).
  split; [eapply frame_trans; eassumption|split; [assumption|congruence]].
Qed.

Lemma ignore_spec (l l' : dynLex) :
  ignore l = Ok (tt, l') ->
  frame l l' /\ (bounds l -> bounds l') /\ l_start l' = l_pos l'
  /\ l_pos l' = l_pos l /\ l_width l' = l_width l.
Proof.
  unfold ignore, modify. intros H. inversion H; subst l'.
  unfold frame, bounds; simpl. tauto.
Qed.

Lemma accept_spec (valid : string) (l l' : dynLex) (b : bool) :
  accept valid l = Ok (b, l') -> bounds l ->
  frame l l' /\ bounds l' /\ l_start l' = l_start l.
Proof.
  unfold accept. intros H Hb. bind_inv H as r1 l1 E1.
  apply next_spec in E1; [|assumption].
  destruct E1 as (F1 & B1 & W1 & S1 & _).
  destruct (0 <=? strings.IndexRune valid r1).
  - inversion H; subst. tauto.
  - bind_inv H as u l2 E2. inversion H; subst. clear H. destruct u.
    apply backup_spec in E2; try assumption.
    destruct E2 as (F2 & B2 & S2).
    split; [eapply frame_trans; eassumption|split; [assumption|congruence]].
Qed.

Lemma nextWhile_spec (p : rune -> bool) (n : nat) :
  forall l l',
    nextWhile p n l = Ok (tt, l') -> bounds l ->
    frame l l' /\ bounds l' /\ l_width l' <= l_pos l'
    /\ l_start l' = l_start l.
Proof.
  induction n as [|n IH]; intros l l' H Hb; simpl in H.
  - destruct (next l) as [[r l1]| | |] eqn:E; try discriminate.
    apply next_spec in E; [|assumption].
    destruct (p r); [destruct (at_end l); discriminate|].
    inversion H; subst. tauto.
  - destruct (next l) as [[r l1]| | |] eqn:E; try discriminate.
    apply next_spec in E; [|assumption].
    destruct E as (F1 & B1 & W1 & S1 & _).
    destruct (p r).
    + destruct (at_end l); [discriminate|].
      apply IH in H; [|assumption].
      destruct H as (F2 & B2 & W2 & S2).
      split; [eapply frame_trans; eassumption|].
      split; [assumption|]. split; [assumption|congruence].
    + inversion H; subst. tauto.
Qed.

Lemma acceptRun_spec (valid : string) (l l' : dynLex) :
  acceptRun valid l = Ok (tt, l') -> bounds l ->
  frame l l' /\ bounds l' /\ l_start l' = l_start l.
Proof.
  unfold acceptRun. intros H Hb. bind_inv H as u l1 E1. destruct u.
  apply nextWhile_spec in E1; [|assumption].
  destruct E1 as (F1 & B1 & W1 & S1).
  apply backup_spec in H; try assumption.
  destruct H as (F2 & B2 & S2).
  split; [eapply frame_trans; eassumption|split; [assumption|congruence]].
Qed.

(** One turn of the loop of [multiComment] that does not go round again. *)
Lemma multiComment_loop_spec (n : nat) :
  forall l l',
    multiComment_loop n l = Ok (tt, l') -> bounds l ->
    frame l l' /\ bounds l' /\ l_start l' = l_start l.
Proof.
  induction n as [|n IH]; intros l l' H Hb; simpl in H;
    (destruct (next l) as [[r l1]| | |] eqn:E; try discriminate;
     apply next_spec in E; [|assumption];
     destruct E as (F1 & B1 & W1 & S1 & _);
     destruct (r =? eof);
     [ apply backup_spec in H; try assumption;
       destruct H as (F2 & B2 & S2);
       split; [eapply frame_trans; eassumption|split; [assumption|congruence]] | ]).
  - destruct (negb (r =? 42)); [discriminate|].
    destruct (at_end l1); [discriminate|].
    bind_inv H as c l2 E2. apply peek_spec in E2; [|assumption].
    destruct E2 as (F2 & B2 & S2).
    destruct (c =? 47); [|discriminate].
    bind_inv H as r3 l3 E3. inversion H; subst. clear H.
    apply next_spec in E3; [|assumption].
    destruct E3 as (F3 & B3 & W3 & S3 & _).
    split; [eapply frame_trans; [eassumption|eapply frame_trans; eassumption]
          |split; [assumption|congruence]].
  - destruct (negb (r =? 42)).
    + apply IH in H; [|assumption]. destruct H as (F2 & B2 & S2).
      split; [eapply frame_trans; eassumption|split; [assumption|congruence]].
    + destruct (at_end l1); [discriminate|].
      bind_inv H as c l2 E2. apply peek_spec in E2; [|assumption].
      destruct E2 as (F2 & B2 & S2).
      destruct (c =? 47).
      * bind_inv H as r3 l3 E3. inversion H; subst. clear H.
        apply next_spec in E3; [|assumption].
        destruct E3 as (F3 & B3 & W3 & S3 & _).
        split; [eapply frame_trans; [eassumption|eapply frame_trans; eassumption]
              |split; [assumption|congruence]].
      * apply IH in H; [|assumption]. destruct H as (F3 & B3 & S3).
        split; [eapply frame_trans; [eassumption|eapply frame_trans; eassumption]
              |split; [assumption|congruence]].
Qed.

Lemma sets_semi_ends (ty : itemType) : sets_semi ty = ends_statement ty.
Proof. destruct ty; reflexivity. Qed.

Lemma frame_scanning (s : string) (f : token.File) (l l' : dynLex) :
  scanning s f l -> frame l l' -> bounds l' -> scanning s f l'.
Proof.
  unfold scanning, frame.
  intros (H1 & H2 & H3 & _ & H5 & H6) (F1 & F2 & F3 & F4 & F5 & F6 & _) Hb.
  rewrite F1, F2, F3, F4, F5, F6. tauto.
Qed.

Lemma scanning_bounds (s : string) (f : token.File) (l : dynLex) :
  scanning s f l -> bounds l.
Proof. unfold scanning. tauto. Qed.

Lemma next_scanning (s : string) (f : token.File) (l l' : dynLex) (r : rune) :
  scanning s f l -> next l = Ok (r, l') ->
  scanning s f l' /\ l_width l' <= l_pos l' /\ l_start l' = l_start l.
Proof.
  intros Sc H. apply next_spec in H; [|eapply scanning_bounds; eassumption].
  destruct H as (F & B & W & St & _).
  split; [eapply frame_scanning; eassumption|tauto].
Qed.

Lemma nextWhile_scanning (s : string) (f : token.File) (p : rune -> bool)
      (n : nat) (l l' : dynLex) (u : unit) :
  scanning s f l -> nextWhile p n l = Ok (u, l') ->
  scanning s f l' /\ l_width l' <= l_pos l' /\ l_start l' = l_start l.
Proof.
  intros Sc H. destruct u.
  apply nextWhile_spec in H; [|eapply scanning_bounds; eassumption].
  destruct H as (F & B & W & St).
  split; [eapply frame_scanning; eassumption|tauto].
Qed.

Lemma backup_scanning (s : string) (f : token.File) (l l' : dynLex) (u : unit) :
  scanning s f l -> l_width l <= l_pos l -> backup l = Ok (u, l') ->
  scanning s f l' /\ l_start l' = l_start l.
Proof.
  intros Sc W H. destruct u.
  apply backup_spec in H; [|eapply scanning_bounds; eassumption|assumption].
  destruct H as (F & B & St).
  split; [eapply frame_scanning; eassumption|assumption].
Qed.

Lemma peek_scanning (s : string) (f : token.File) (l l' : dynLex) (r : rune) :
  scanning s f l -> peek l = Ok (r, l') ->
  scanning s f l' /\ l_start l' = l_start l.
Proof.
  intros Sc H. apply peek_spec in H; [|eapply scanning_bounds; eassumption].
  destruct H as (F & B & St).
  split; [eapply frame_scanning; eassumption|assumption].
Qed.

Lemma accept_scanning (s : string) (f : token.File) (valid : string)
      (l l' : dynLex) (b : bool) :
  scanning s f l -> accept valid l = Ok (b, l') ->
  scanning s f l' /\ l_start l' = l_start l.
Proof.
  intros Sc H. apply accept_spec in H; [|eapply scanning_bounds; eassumption].
  destruct H as (F & B & St).
  split; [eapply frame_scanning; eassumption|assumption].
Qed.

Lemma acceptRun_scanning (s : string) (f : token.File) (valid : string)
      (l l' : dynLex) (u : unit) :
  scanning s f l -> acceptRun valid l = Ok (u, l') ->
  scanning s f l' /\ l_start l' = l_start l.
Proof.
  intros Sc H. destruct u.
  apply acceptRun_spec in H; [|eapply scanning_bounds; eassumption].
  destruct H as (F & B & St).
  split; [eapply frame_scanning; eassumption|assumption].
Qed.

Lemma multiComment_loop_scanning (s : string) (f : token.File) (n : nat)
      (l l' : dynLex) (u : unit) :
  scanning s f l -> multiComment_loop n l = Ok (u, l') ->
  scanning s f l' /\ l_start l' = l_start l.
Proof.
  intros Sc H. destruct u.
  apply multiComment_loop_spec in H; [|eapply scanning_bounds; eassumption].
  destruct H as (F & B & St).
  split; [eapply frame_scanning; eassumption|assumption].
Qed.

Lemma ignore_scanning (s : string) (f : token.File) (l l' : dynLex) (u : unit) :
  scanning s f l -> ignore l = Ok (u, l') ->
  scanning s f l' /\ l_start l' = l_pos l'.
Proof.
  intros Sc H. destruct u. apply ignore_spec in H.
  destruct H as (F & B & St & _).
  split; [|assumption].
  eapply frame_scanning; [eassumption|assumption|].
  apply B. eapply scanning_bounds; eassumption.
Qed.

(** What [emit] does when it returns. *)
Lemma emit_spec (ty : itemType) (l l' : dynLex) (u : unit) :
  emit ty l = Ok (u, l') ->
  exists v,
    slice (l_s l) (l_start l) (l_pos l) = Some v
    /\ token.size (l_f l) >= l_pos l
    /\ let t := mkToken (token.base (l_f l) + l_pos l) v ty in
       l' = set_semi (sets_semi ty)
              (set_start (l_pos l)
                 (set_items (l_items l ++ [t]) (set_last t l))).
Proof.
  unfold emit, token.FilePos. intros H.
  destruct (token.size (l_f l) <? l_pos l) eqn:Hsz; [discriminate|].
  destruct (slice (l_s l) (l_start l) (l_pos l)) as [v|]; [|discriminate].
  destruct (items_cap <=? List.length (l_items l))%nat; [discriminate|].
  exists v. apply Z.ltb_ge in Hsz.
  split; [reflexivity|]. split; [lia|]. simpl in *. now inversion H.
Qed.

Lemma emit_scanning (s : string) (f : token.File) (ty : itemType)
      (l l' : dynLex) (u : unit) :
  scanning s f l -> emit ty l = Ok (u, l') ->
  scanning s f l' /\ l_start l' = l_pos l'.
Proof.
  intros (H1 & H2 & H3 & H4 & H5 & H6) H.
  apply emit_spec in H. destruct H as (v & Hv & _ & ->). simpl.
  split; [|reflexivity].
  unfold scanning, bounds in *; simpl.
  repeat split; try tauto.
  - apply sets_semi_ends.
  - apply Forall_app. split; [assumption|]. constructor; [|constructor].
    unfold text_ends_at, token.Offset. simpl. rewrite H2.
    apply slice_Some in Hv as Hv'. destruct Hv' as (_ & _ & _ & Hlen).
    rewrite Hlen, <- H1.
    replace (token.base f + l_pos l - token.base f) with (l_pos l) by lia.
    replace (l_pos l - (l_pos l - l_start l)) with (l_start l) by lia.
    assumption.
Qed.

Lemma log_scanning (s : string) (f : token.File) (g : list LogEntry)
      (l : dynLex) :
  scanning s f l -> scanning s f (set_log g l).
Proof. unfold scanning, bounds. simpl. tauto. Qed.

Lemma errorf_scanning (s : string) (f : token.File) (msg : LogEntry)
      (l l' : dynLex) (st : stateFn) :
  scanning s f l -> errorf msg l = Ok (st, l') ->
  scanning s f l' /\ st = nilFn.
Proof.
  unfold errorf. intros Sc H.
  bind_inv H as u1 l1 E1. unfold modify in E1. inversion E1; subst. clear E1.
  bind_inv H as u2 l2 E2.
  apply emit_scanning with (s := s) (f := f) in E2;
    [|now apply log_scanning].
  inversion H; subst. tauto.
Qed.

Ltac learn E :=
  cbv beta in E;
  let Sc := fresh "Sc" in
  let W := fresh "W" in
  let St := fresh "St" in
  lazymatch type of E with
  | next ?l = Ok _ =>
    match goal with
    | S0 : scanning _ _ l |- _ =>
      destruct (next_scanning _ _ _ _ _ S0 E) as (Sc & W & St)
    end
  | nextWhile _ _ ?l = Ok _ =>
    match goal with
    | S0 : scanning _ _ l |- _ =>
      destruct (nextWhile_scanning _ _ _ _ _ _ _ S0 E) as (Sc & W & St)
    end
  | backup ?l = Ok _ =>
    match goal with
    | S0 : scanning _ _ l, W0 : l_width l <= l_pos l |- _ =>
      destruct (backup_scanning _ _ _ _ _ S0 W0 E) as (Sc & St)
    end
  | peek ?l = Ok _ =>
    match goal with
    | S0 : scanning _ _ l |- _ =>
      destruct (peek_scanning _ _ _ _ _ S0 E) as (Sc & St)
    end
  | accept _ ?l = Ok _ =>
    match goal with
    | S0 : scanning _ _ l |- _ =>
      destruct (accept_scanning _ _ _ _ _ _ S0 E) as (Sc & St)
    end
  | acceptRun _ ?l = Ok _ =>
    match goal with
    | S0 : scanning _ _ l |- _ =>
      destruct (acceptRun_scanning _ _ _ _ _ _ S0 E) as (Sc & St)
    end
  | multiComment_loop _ ?l = Ok _ =>
    match goal with
    | S0 : scanning _ _ l |- _ =>
      destruct (multiComment_loop_scanning _ _ _ _ _ _ S0 E) as (Sc & St)
    end
  | ignore ?l = Ok _ =>
    match goal with
    | S0 : scanning _ _ l |- _ =>
      destruct (ignore_scanning _ _ _ _ _ S0 E) as (Sc & St)
    end
  | emit _ ?l = Ok _ =>
    match goal with
    | S0 : scanning _ _ l |- _ =>
      destruct (emit_scanning _ _ _ _ _ _ S0 E) as (Sc & St)
    end
  | errorf _ ?l = Ok _ =>
    match goal with
    | S0 : scanning _ _ l |- _ =>
      destruct (errorf_scanning _ _ _ _ _ _ S0 E) as (Sc & St)
    end
  | gets _ _ = Ok _ => unfold gets in E; inversion E; subst
  | ret _ _ = Ok _ => unfold ret in E; inversion E; subst
  end.

Ltac step H :=
  cbv beta in H;
  lazymatch type of H with
  | bind _ _ _ = Ok _ =>
    let a := fresh "a" in
    let l := fresh "l" in
    let E := fresh "E" in
    bind_inv_as H a l E; repeat step E
  | (if ?b then _ else _) _ = Ok _ => destruct b eqn:?
  | (let ty := _ in _) _ = Ok _ => cbv zeta in H
  | match slice ?s ?a ?b with _ => _ end = Ok _ =>
    destruct (slice s a b); [|discriminate H]
  | _ => learn H; clear H
  end.

Ltac settle :=
  split; [assumption|]; intros;
  first [assumption | congruence | discriminate].

Lemma call_scanning (s : string) (f : token.File) (st st' : stateFn)
      (l l' : dynLex) :
  scanning s f l -> call st l = Ok (st', l') ->
  scanning s f l' /\ (st' = statementFn -> l_start l' = l_pos l').
Proof.
  intros Sc H. destruct st; simpl in H.
  - discriminate.
  - unfold begin in H. repeat step H; settle.
  - unfold statement in H. repeat step H; settle.
  - unfold operator in H. repeat step H; settle.
  - unfold comment in H. repeat step H; settle.
  - unfold multiComment in H. repeat step H; settle.
  - unfold lexType in H. repeat step H; settle.
  - unfold number in H. repeat step H; settle.
  - unfold literal in H. repeat step H; settle.
  - unfold identifier in H. repeat step H; settle.
Qed.

(** *** The bounds of the scanner's loops are enough *)

Lemma next_returns (l : dynLex) :
  bounds l -> exists r l', next l = Ok (r, l').
Proof.
  intros (Hp & _). unfold next.
  destruct (len (l_s l) <=? l_pos l) eqn:E; [eauto|].
  apply Z.leb_gt in E.
  destruct (slice_ok (l_s l) (l_pos l) (len (l_s l))) as (rest & Hr); try lia.
  unfold slice_from. rewrite Hr.
  destruct (utf8.DecodeRuneInString rest) as [r w]. eauto.
Qed.

Lemma remaining_next (l l' : dynLex) (r : rune) (n : nat) :
  bounds l -> next l = Ok (r, l') -> at_end l = false ->
  (remaining l <= S n)%nat -> (remaining l' <= n)%nat.
Proof.
  intros Hb Hn He Hr.
  destruct (next_spec _ _ _ Hn Hb) as (F & B & _ & _ & _ & Hlt).
  specialize (Hlt He). destruct F as (Fs & _).
  unfold remaining in *. rewrite Fs. lia.
Qed.

Lemma at_end_remaining (l : dynLex) :
  at_end l = false -> (remaining l <= 0)%nat -> False.
Proof.
  unfold at_end, remaining. intros He Hr. apply Z.leb_gt in He. lia.
Qed.

(** The bound [remaining l] is enough for the loop [for p(l.next()) { }]:
    it never stops for want of turns. *)
Lemma nextWhile_fuel (p : rune -> bool) (n : nat) :
  forall l, bounds l -> (remaining l <= n)%nat -> nextWhile p n l <> OutOfFuel.
Proof.
  induction n as [|n IH]; intros l Hb Hr; cbn [nextWhile];
    destruct (next_returns l Hb) as (r & l1 & Hn); rewrite Hn;
    destruct (p r); try discriminate;
    destruct (at_end l) eqn:He; try discriminate.
  - exfalso. eapply at_end_remaining; eassumption.
  - apply IH.
    + now destruct (next_spec _ _ _ Hn Hb) as (_ & B & _).
    + exact (remaining_next l l1 r n Hb Hn He Hr).
Qed.

Lemma peek_returns (l : dynLex) :
  bounds l -> exists r l', peek l = Ok (r, l').
Proof.
  intros Hb. destruct (next_returns l Hb) as (r & l1 & Hn).
  unfold peek, bind. rewrite Hn. unfold backup, modify, ret. eauto.
Qed.

Lemma peek_pos (l l' : dynLex) (r : rune) :
  peek l = Ok (r, l') -> at_end l = false -> l_pos l' = l_pos l.
Proof.
  unfold peek, bind, next, at_end. intros H He. rewrite He in H.
  destruct (slice_from (l_s l) (l_pos l)); [|discriminate].
  destruct (utf8.DecodeRuneInString s) as [r0 w].
  unfold backup, modify, ret in H.
  destruct (r0 =? 10); inversion H; subst; simpl; lia.
Qed.

(** The same for the loop of [multiComment]. *)
Lemma multiComment_loop_fuel (n : nat) :
  forall l, bounds l -> (remaining l <= n)%nat ->
            multiComment_loop n l <> OutOfFuel.
Proof.
  induction n as [|n IH]; intros l Hb Hr; cbn [multiComment_loop];
    destruct (next_returns l Hb) as (r & l1 & Hn); rewrite Hn;
    destruct (next_spec _ _ _ Hn Hb) as (F & B1 & W1 & _ & _ & Hlt);
    (destruct (r =? eof) eqn:Hz; [unfold backup, modify; congruence|]);
    assert (He : at_end l = false)
      by (unfold next in Hn; unfold at_end;
          destruct (len (l_s l) <=? l_pos l); [|reflexivity];
          inversion Hn; subst; discriminate).
  - exfalso. eapply at_end_remaining; eassumption.
  - assert (R1 : (remaining l1 <= n)%nat) by exact (remaining_next l l1 r n Hb Hn He Hr).
    destruct (negb (r =? 42)); [now apply IH|].
    destruct (at_end l1) eqn:He1; [discriminate|].
    destruct (peek_returns l1 B1) as (c & l2 & Hp).
    unfold bind at 1. rewrite Hp.
    destruct (peek_spec _ _ _ Hp B1) as (F2 & B2 & _).
    destruct (c =? 47).
    + destruct (next_returns l2 B2) as (r3 & l3 & H3).
      unfold bind. rewrite H3. discriminate.
    + apply IH; [assumption|].
      pose proof (peek_pos _ _ _ Hp He1) as Hpos.
      destruct F2 as (Fs & _). unfold remaining in *. rewrite Fs, Hpos. exact R1.
Qed.

Lemma bind_fuel {S A B : Type} (c : M S A) (k : A -> M S B) (st : S) :
  c st <> OutOfFuel ->
  (forall a st1, c st = Ok (a, st1) -> k a st1 <> OutOfFuel) ->
  bind c k st <> OutOfFuel.
Proof.
  unfold bind. intros Hc Hk.
  destruct (c st) as [[a st1]| | |]; try discriminate; [now apply Hk|congruence].
Qed.

Lemma next_fuel (l : dynLex) : next l <> OutOfFuel.
Proof.
  unfold next. destruct (_ <=? _); [discriminate|].
  destruct (slice_from _ _); [|discriminate].
  destruct (utf8.DecodeRuneInString _). discriminate.
Qed.

Lemma emit_fuel (ty : itemType) (l : dynLex) : emit ty l <> OutOfFuel.
Proof.
  unfold emit. destruct (token.FilePos _ _); [|discriminate].
  destruct (slice _ _ _); [|discriminate].
  destruct (_ <=? _)%nat; discriminate.
Qed.

Ltac nofuel :=
  cbv beta zeta;
  lazymatch goal with
  | |- bind _ _ _ <> OutOfFuel =>
    apply bind_fuel;
    [ nofuel
    | let a := fresh "a" in
      let l := fresh "l" in
      let E := fresh "E" in
      intros a l E; repeat step E; nofuel ]
  | |- (if ?b then _ else _) _ <> OutOfFuel => destruct b eqn:?; nofuel
  | |- match slice ?s ?a ?b with _ => _ end <> OutOfFuel =>
    destruct (slice s a b); [nofuel|discriminate]
  | |- next _ <> OutOfFuel => apply next_fuel
  | |- emit _ _ <> OutOfFuel => apply emit_fuel
  | |- nextWhile _ (remaining ?l) ?l <> OutOfFuel =>
    apply nextWhile_fuel; [eapply scanning_bounds; eassumption|apply Nat.le_refl]
  | |- multiComment_loop (remaining ?l) ?l <> OutOfFuel =>
    apply multiComment_loop_fuel;
    [eapply scanning_bounds; eassumption|apply Nat.le_refl]
  | |- peek _ <> OutOfFuel => unfold peek; nofuel
  | |- accept _ _ <> OutOfFuel => unfold accept; nofuel
  | |- acceptRun _ _ <> OutOfFuel => unfold acceptRun; nofuel
  | |- errorf _ _ <> OutOfFuel => unfold errorf; nofuel
  | |- backup _ <> OutOfFuel => discriminate
  | |- ignore _ <> OutOfFuel => discriminate
  | |- modify _ _ <> OutOfFuel => discriminate
  | |- gets _ _ <> OutOfFuel => discriminate
  | |- ret _ _ <> OutOfFuel => discriminate
  | |- throw _ _ <> OutOfFuel => discriminate
  end.

(** No state function stops for want of turns: the bounds that the model
    gives to the scanner's inner loops never show in its results. *)
Lemma call_fuel (s : string) (f : token.File) (st : stateFn) (l : dynLex) :
  scanning s f l -> call st l <> OutOfFuel.
Proof.
  intros Sc. destruct st; simpl call.
  - discriminate.
  - unfold begin. nofuel.
  - unfold statement. nofuel.
  - unfold operator. nofuel.
  - unfold comment. nofuel.
  - unfold multiComment. nofuel.
  - unfold lexType. nofuel.
  - unfold number. nofuel.
  - unfold literal. nofuel.
  - unfold identifier. nofuel.
Qed.

Lemma newLex_settled (s : string) (f : token.File) : settled s f (newLex s f).
Proof.
  pose proof (len_nonneg s).
  unfold settled, scanning, bounds; simpl.
  repeat split; try reflexivity; try lia; try constructor; discriminate.
Qed.

Lemma advance_settled (s : string) (f : token.File) (l l' : dynLex) (u : unit) :
  scanning s f l -> advance l = Ok (u, l') -> settled s f l'.
Proof.
  unfold advance. intros Sc H. bind_inv H as st l1 E.
  apply call_scanning with (s := s) (f := f) in E; [|assumption].
  destruct E as (Sc1 & St1).
  unfold modify in H. inversion H; subst. clear H.
  unfold settled, scanning, bounds in *; simpl. tauto.
Qed.

(** Every state the scanner gets into is well-formed. *)
Lemma Reachable_settled (s : string) (f : token.File) (l : dynLex) :
  Reachable s f l -> settled s f l.
Proof.
  induction 1 as [|l l' _ IH _ Ha|l t rest _ IH Hi|l o _ IH].
  - apply newLex_settled.
  - eapply advance_settled; [apply IH|eassumption].
  - unfold settled, scanning, bounds in *; simpl. rewrite Hi in IH.
    destruct IH as ((H1 & H2 & H3 & H4 & H5 & H6) & H7).
    inversion H6; subst. tauto.
  - unfold settled, scanning, bounds in *; simpl. tauto.
Qed.

(** [Token] moves between reachable states, and what it returns is a token
    that [emit] has put on the channel. *)
Lemma lex_Token_Reachable (s : string) (f : token.File) (fuel : nat) :
  forall (l l' : dynLex) (t : Token),
    Reachable s f l -> lex_Token fuel l = Ok (t, l') ->
    Reachable s f l' /\ text_ends_at s f t.
Proof.
  induction fuel as [|fuel IH]; intros l l' t Hr H; simpl in H.
  - destruct (l_items l) as [|t0 rest] eqn:Hi; [discriminate|].
    inversion H; subst. split.
    + now apply reach_receive with (t := t).
    + apply Reachable_settled in Hr.
      destruct Hr as ((_ & _ & _ & _ & _ & H6) & _).
      rewrite Hi in H6. now inversion H6.
  - destruct (l_items l) as [|t0 rest] eqn:Hi.
    + bind_inv H as u l1 E. destruct u.
      eapply IH; [|eassumption].
      eapply reach_advance; eassumption.
    + inversion H; subst. split.
      * now apply reach_receive with (t := t).
      * apply Reachable_settled in Hr.
        destruct Hr as ((_ & _ & _ & _ & _ & H6) & _).
        rewrite Hi in H6. now inversion H6.
Qed.

(** So do any number of calls of [Token]. *)
Lemma pull_Reachable (s : string) (f : token.File) (fuel n : nat) :
  forall (l l' : dynLex) (ts : list Token),
    Reachable s f l -> pull fuel n l = Ok (ts, l') -> Reachable s f l'.
Proof.
  induction n as [|n IH]; intros l l' ts Hr H; cbn [pull] in H.
  - unfold ret in H. inversion H; subst. exact Hr.
  - bind_inv H as t l1 E1. bind_inv H as ts1 l2 E2.
    unfold ret in H. inversion H; subst.
    apply lex_Token_Reachable with (s := s) (f := f) in E1; [|exact Hr].
    eapply IH; [apply E1|exact E2].
Qed.

(** Every token that the scanner hands out, at any point of the scan of any
    input, carries as its text the piece of the input that ends at the
    token's recorded position. *)
Lemma token_text_ends_at_pos (s : string) (f : token.File) (fuel : nat)
        (l l' : dynLex) (t : Token) :
  Reachable s f l -> lex_Token fuel l = Ok (t, l') -> text_ends_at s f t.
Proof.
  intros Hr H. eapply lex_Token_Reachable; eassumption.
Qed.

Lemma emit_ok (ty : itemType) (l : dynLex) :
  0 <= l_start l -> l_start l <= l_pos l -> l_pos l <= len (l_s l) ->
  l_pos l <= token.size (l_f l) -> (List.length (l_items l) < items_cap)%nat ->
  exists v,
    let t := mkToken (token.base (l_f l) + l_pos l) v ty in
    emit ty l = Ok (tt, set_semi (sets_semi ty)
                          (set_start (l_pos l)
                             (set_items (l_items l ++ [t]) (set_last t l)))).
Proof.
  intros H1 H2 H3 H4 H5.
  destruct (slice_ok (l_s l) (l_start l) (l_pos l) H1 H2 H3) as (v & Hv).
  exists v. unfold emit, token.FilePos. rewrite Hv.
  apply Z.ltb_ge in H4. rewrite H4.
  apply Nat.leb_gt in H5. rewrite H5. reflexivity.
Qed.


(** C5: in the [statement] state, at any point of a scan (with a file at
    least as large as the input), reading a newline emits a terminator token
    if and only if the most recently emitted token is an identifier, a
    number, a kind-declaration, a quoted literal or a closing bracket, paren
    or square, and emits nothing otherwise; reading the end of input emits a
    terminator under the same condition, immediately followed by the
    end-of-input token, and the end-of-input token alone otherwise. *)
Theorem statement_terminator (s : string) (f : token.File) (l l1 : dynLex)
        (r : rune) :
  Reachable s f l -> len s <= token.size f ->
  l_items l = [] -> l_state l = statementFn ->
  next l = Ok (r, l1) ->
  (r = 10 ->
   exists l', advance l = Ok (tt, l')
              /\ map t_kind (l_items l')
                 = if ends_statement (t_kind (l_last l))
                   then [itemSemi] else [])
  /\ (r = eof ->
      exists l', advance l = Ok (tt, l')
                 /\ map t_kind (l_items l')
                    = if ends_statement (t_kind (l_last l))
                      then [itemSemi; itemEOF] else [itemEOF]).
Proof.
  intros Hr Hsz Hi Hst Hn.
  apply Reachable_settled in Hr.
  destruct Hr as ((H1 & H2 & H3 & H4 & H5 & H6) & H7).
  specialize (H7 Hst).
  destruct (next_spec _ _ _ Hn H4) as (F & B & W & St & Hle & _).
  destruct F as (F1 & F2 & F3 & F4 & F5 & F6 & F7 & F8 & F9).
  destruct B as (Bp & Bw). destruct H4 as (Hp & Hw).
  assert (Hroom : (List.length (l_items l1) < items_cap)%nat)
    by (rewrite F5, Hi; simpl; unfold items_cap; lia).
  assert (Hlen : len (l_s l1) = len s) by congruence.
  assert (Hsize : token.size (l_f l1) = token.size f) by congruence.
  unfold advance, bind. rewrite Hst. simpl call.
  unfold statement, bind. rewrite Hn.
  split; intros ->.
  - simpl. unfold gets. rewrite F6, H5.
    destruct (ends_statement (t_kind (l_last l))); simpl.
    + destruct (emit_ok itemSemi l1) as (v & Hv); try lia.
      simpl in Hv. rewrite Hv. unfold ignore, modify. simpl.
      eexists. split; [reflexivity|]. simpl. rewrite F5, Hi. reflexivity.
    + unfold ret, ignore, modify. simpl.
      eexists. split; [reflexivity|]. simpl. rewrite F5, Hi. reflexivity.
  - simpl. unfold gets. rewrite F6, H5.
    destruct (ends_statement (t_kind (l_last l))); simpl.
    + destruct (emit_ok itemSemi l1) as (v & Hv); try lia.
      simpl in Hv. rewrite Hv.
      match goal with
      | |- context [emit itemEOF ?l2] =>
        destruct (emit_ok itemEOF l2) as (v' & Hv'); simpl; try lia;
          [rewrite F5, Hi, length_app; simpl; unfold items_cap; lia|]
      end.
      simpl in Hv'. rewrite Hv'. unfold ret, modify. simpl.
      eexists. split; [reflexivity|]. simpl. rewrite F5, Hi. reflexivity.
    + unfold ret at 1. 
      destruct (emit_ok itemEOF l1) as (v & Hv); try lia.
      simpl in Hv. rewrite Hv. unfold ret, modify. simpl.
      eexists. split; [reflexivity|]. simpl. rewrite F5, Hi. reflexivity.
Qed.
(** *** Positions handed to the file are legal *)

Lemma bind_not_Panic {S A B : Type} (e : fault) (c : M S A) (k : A -> M S B)
      (st : S) :
  c st <> Panic e ->
  (forall a st1, c st = Ok (a, st1) -> k a st1 <> Panic e) ->
  bind c k st <> Panic e.
Proof.
  unfold bind. intros Hc Hk.
  destruct (c st) as [[a st1]|e0| |]; try discriminate; auto.
  intros Heq. apply Hc. inversion Heq. reflexivity.
Qed.

Lemma next_legal (l : dynLex) : next l <> Panic IllegalOffset.
Proof.
  unfold next. destruct (_ <=? _); [discriminate|].
  destruct (slice_from _ _); [|discriminate].
  destruct (utf8.DecodeRuneInString _). discriminate.
Qed.

Lemma emit_legal (s : string) (f : token.File) (ty : itemType) (l : dynLex) :
  len s <= token.size f -> scanning s f l -> emit ty l <> Panic IllegalOffset.
Proof.
  unfold emit, token.FilePos.
  intros Hsize (Hs & _ & Hz & (Hp & _) & _). rewrite Hs in Hp.
  replace (token.size (l_f l) <? l_pos l) with false
    by (symmetry; apply Z.ltb_ge; lia).
  destruct (slice _ _ _); [|discriminate].
  destruct (_ <=? _)%nat; discriminate.
Qed.

Lemma errorf_legal (s : string) (f : token.File) (msg : LogEntry) (l : dynLex) :
  len s <= token.size f -> scanning s f l -> errorf msg l <> Panic IllegalOffset.
Proof.
  intros Hsize Sc. unfold errorf.
  apply bind_not_Panic; [discriminate|]. intros u l1 E.
  unfold modify in E. inversion E; subst u l1. clear E.
  apply bind_not_Panic; [|discriminate].
  apply (emit_legal s f); [exact Hsize|now apply log_scanning].
Qed.

Lemma nextWhile_legal (q : rune -> bool) (n : nat) :
  forall l, nextWhile q n l <> Panic IllegalOffset.
Proof.
  induction n as [|n IH]; intros l; cbn [nextWhile];
    pose proof (next_legal l) as Hn;
    destruct (next l) as [[r0 l1]|e0| |]; try discriminate;
    try (intros Heq; apply Hn; inversion Heq; reflexivity);
    destruct (q r0); try discriminate; destruct (at_end l); try discriminate.
  apply IH.
Qed.

Ltac legal :=
  cbv beta zeta;
  lazymatch goal with
  | |- bind _ _ _ <> Panic IllegalOffset =>
    apply bind_not_Panic;
    [ legal
    | let a := fresh "a" in
      let l := fresh "l" in
      let E := fresh "E" in
      intros a l E; repeat step E; legal ]
  | |- (if ?b then _ else _) _ <> Panic IllegalOffset =>
    destruct b eqn:?; legal
  | |- match slice ?s ?a ?b with _ => _ end <> Panic IllegalOffset =>
    destruct (slice s a b); [legal|discriminate]
  | |- next _ <> Panic IllegalOffset => apply next_legal
  | |- emit _ _ <> Panic IllegalOffset => eapply emit_legal; eassumption
  | |- errorf _ _ <> Panic IllegalOffset => eapply errorf_legal; eassumption
  | |- nextWhile _ _ _ <> Panic IllegalOffset => apply nextWhile_legal
  | |- peek _ <> Panic IllegalOffset => unfold peek; legal
  | |- accept _ _ <> Panic IllegalOffset => unfold accept; legal
  | |- acceptRun _ _ <> Panic IllegalOffset => unfold acceptRun; legal
  | |- _ => discriminate
  end.

Lemma multiComment_loop_legal (n : nat) :
  forall l, multiComment_loop n l <> Panic IllegalOffset.
Proof.
  induction n as [|n IH]; intros l; cbn [multiComment_loop];
    pose proof (next_legal l) as Hn;
    (destruct (next l) as [[r0 l1]|e0| |];
     [|intros Heq; apply Hn; inversion Heq; reflexivity|discriminate..]);
    (destruct (r0 =? eof); [discriminate|]);
    destruct (negb _); try discriminate; try apply IH;
    (destruct (at_end l1); [discriminate|]);
    (apply bind_not_Panic; [unfold peek; apply bind_not_Panic;
                            [apply next_legal|intros; discriminate]|]);
    intros c l2 _;
    (destruct (c =? 47);
     [apply bind_not_Panic; [apply next_legal|intros; discriminate]|]);
    try discriminate; apply IH.
Qed.

Lemma call_legal (s : string) (f : token.File) (st : stateFn) (l : dynLex) :
  len s <= token.size f -> scanning s f l -> call st l <> Panic IllegalOffset.
Proof.
  intros Hsize Sc. destruct st; cbn [call];
    unfold throw, begin, statement, operator, comment, multiComment, lexType,
    number, literal, identifier;
    try legal.
  apply bind_not_Panic; [apply multiComment_loop_legal|].
  intros a l1 E. repeat step E. legal.
Qed.

Lemma lex_Token_legal (s : string) (f : token.File) (fuel : nat) :
  len s <= token.size f ->
  forall l, Reachable s f l -> lex_Token fuel l <> Panic IllegalOffset.
Proof.
  intros Hsize. induction fuel as [|fuel IH]; intros l Hr; cbn [lex_Token];
    destruct (l_items l) eqn:Hi; try discriminate.
  apply bind_not_Panic.
  - unfold advance. apply bind_not_Panic; [|intros; discriminate].
    apply (call_legal s f); [exact Hsize|].
    apply Reachable_settled in Hr. apply Hr.
  - intros [] l1 E. apply IH. eapply reach_advance; eassumption.
Qed.

End ScannerFacts.

(** ** The parser *)

Section ParserFacts.
Context {UT : UnicodeTables} {NU : Numerics}.

Lemma lex_Token_first (n : nat) (l l1 : dynLex) (t : Token) (rest : list Token) :
  l_items l = [] -> advance l = Ok (tt, l1) -> l_items l1 = t :: rest ->
  lex_Token (S n) l = Ok (t, set_items rest l1).
Proof.
  intros Hi Ha H1. simpl. rewrite Hi. unfold bind. rewrite Ha.
  destruct n; simpl; rewrite H1; reflexivity.
Qed.

(** The scan of an input that does not begin with an asterisk: one call of
    the first state logs the error, emits the end-of-input token and leaves
    the nil state. *)
Lemma begin_not_star (s : string) (f : token.File) :
  first_rune s <> 42 -> len s <= token.size f ->
  exists l1 t,
    advance (newLex s f) = Ok (tt, l1)
    /\ l_items l1 = [t] /\ t_kind t = itemEOF /\ l_last l1 = t
    /\ l_state l1 = nilFn /\ l_peeked l1 = None
    /\ l_log l1 = [LogMustBegin (first_rune s)].
Proof.
  intros Hr Hsz. pose proof (len_nonneg s) as Hlen.
  unfold advance, bind. simpl call. unfold begin, bind.
  destruct (next (newLex s f)) as [[r l0]| | |] eqn:Hn.
  2-4: (unfold next in Hn; simpl in Hn;
        destruct (len s <=? 0); [discriminate|];
        rewrite slice_from_zero in Hn;
        destruct (utf8.DecodeRuneInString s); destruct (_ =? 10); discriminate).
  assert (Hfacts : r = first_rune s /\ l_start l0 = 0 /\ 0 <= l_pos l0 <= len s
                   /\ l_s l0 = s /\ token.size (l_f l0) = token.size f
                   /\ l_items l0 = [] /\ l_peeked l0 = None /\ l_log l0 = []).
  { unfold next in Hn. simpl in Hn.
    destruct (len s <=? 0) eqn:E.
    - apply Z.leb_le in E. inversion Hn; subst. simpl.
      destruct s; [|rewrite len_String in E; pose proof (len_nonneg s); lia].
      repeat split; try reflexivity; lia.
    - apply Z.leb_gt in E. rewrite slice_from_zero in Hn.
      assert (Hne : s <> EmptyString) by (intros ->; discriminate).
      pose proof (decode_width s Hne) as Hw.
      assert (Hfr : first_rune s = fst (utf8.DecodeRuneInString s))
        by (destruct s; [congruence|reflexivity]).
      destruct (utf8.DecodeRuneInString s) as [r0 w]. simpl in *.
      destruct (r0 =? 10); inversion Hn; subst; simpl;
        repeat split; try reflexivity; try lia;
        unfold token.AddLine;
        repeat match goal with
               | |- context [if ?b then _ else _] => destruct b
               end; reflexivity. }
  destruct Hfacts as (-> & H0 & Hp & Hs & Hf & Hi & Hpk & Hlg).
  apply Z.eqb_neq in Hr. rewrite Hr.
  unfold errorf, bind, modify.
  match goal with
  | |- context [emit itemEOF ?l2] =>
    destruct (emit_ok itemEOF l2) as (v & Hv); simpl; try lia;
      [rewrite Hs; lia|rewrite Hi; unfold items_cap; simpl; lia|]
  end.
  simpl in Hv. rewrite Hv. unfold ret. simpl.
  eexists. eexists. split; [reflexivity|]. simpl.
  rewrite Hi, Hlg, Hpk. repeat split; reflexivity.
Qed.

(** C4 (as the code has it): for every input whose first character is not the
    asterisk (and a file at least as large as the input), the scanner logs
    the fatal error and emits nothing but the end-of-input token; no statement
    is parsed, so the model [main] holds only the timespec assignment with its
    default values; and [Parse] returns that program with a nil error: the
    error count is 0 and no diagnostic is recorded. *)
Theorem Parse_no_star (s : string) (f : token.File) (n : nat) :
  first_rune s <> 42 -> len s <= token.size f ->
  exists p,
    Parse (S n) f s = Ok ((Some only_timespec, None), p)
    /\ p_nerr p = 0 /\ p_errBuf p = []
    /\ l_log (p_lex p) = [LogMustBegin (first_rune s)]
    /\ t_kind (l_last (p_lex p)) = itemEOF
    /\ l_state (p_lex p) = nilFn.
Proof.
  intros Hr Hsz.
  destruct (begin_not_star s f Hr Hsz)
    as (l1 & t & Ha & Hi & Hk & Hl & Hst & Hpk & Hlg).
  assert (HT : lex_Token (S n) (newLex s f) = Ok (t, set_items [] l1))
    by (now apply lex_Token_first).
  unfold Parse, dynParser_Parse, declModel.
  unfold bind at 1. unfold modify at 1.
  unfold bind at 1. unfold bind at 1.
  cbn [declModel_loop]. unfold bind at 1.
  unfold p_Peek, on_lex, Peek. cbn [newParser p_lex set_file l_peeked newLex].
  change {| l_f := f; l_s := s; l_pos := 0; l_start := 0; l_width := 0;
            l_last := Token_zero; l_items := []; l_state := beginFn;
            l_semi := false; l_peeked := None; l_log := [] |}
    with (newLex s f).
  unfold bind at 1. rewrite HT. unfold modify, ret, bind. rewrite Hk.
  cbn. eexists. split; [reflexivity|]. cbn.
  rewrite Hlg, Hl, Hk, Hst. repeat split; reflexivity.
Qed.

Lemma Peek_slot (fuel : nat) (l l' : dynLex) (t : Token) :
  Peek fuel l = Ok (t, l') -> l_peeked l' = Some t.
Proof.
  unfold Peek. destruct (l_peeked l) as [t0|] eqn:Hp.
  - intros H. inversion H; subst. assumption.
  - intros H. bind_inv H as t1 l1 E1. bind_inv H as u l2 E2.
    unfold modify in E2. unfold ret in H. inversion E2; inversion H; subst.
    reflexivity.
Qed.

Lemma p_Peek_slot (fuel : nat) (p p' : dynParser) (t : Token) :
  p_Peek fuel p = Ok (t, p') ->
  l_peeked (p_lex p') = Some t /\ p_f p' = p_f p /\ p_errBuf p' = p_errBuf p
  /\ p_nerr p' = p_nerr p /\ p_out p' = p_out p.
Proof.
  unfold p_Peek, on_lex. intros H.
  destruct (Peek fuel (p_lex p)) as [[t0 l0]| | |] eqn:E; try discriminate.
  inversion H; subst. simpl. apply Peek_slot in E. tauto.
Qed.

(** Consuming right after a peek hands out the peeked token and empties the
    slot. *)
Lemma p_Token_after_Peek (fuel : nat) (p : dynParser) (t : Token) :
  l_peeked (p_lex p) = Some t -> p_Token fuel p = Ok (t, consumed p).
Proof.
  intros H. unfold p_Token, on_lex, Consume. rewrite H. reflexivity.
Qed.

(** C7 (as the code has it): at a statement boundary, a leading token that
    is neither a single-character identifier, nor a terminator, nor the
    end of input is reported as a syntax error at that token; the parser of
    src/dynamo/lex.go then discards that one token and goes round its model
    loop again, so the statements behind it are still parsed.  It is the
    earlier parser of src/dynamo/parse.go that stops there: it reports any
    leading token that is not a single-character identifier, leaves its
    model loop at once and hands the model back as it was. *)
Theorem declModel_loop_bad_leader (fuel n : nat) (m : ModelDecl)
        (p p1 : dynParser) (tok : Token) :
  p_Peek fuel p = Ok (tok, p1) ->
  ~ (t_kind tok = itemIdentifier /\ len (t_val tok) = 1) ->
  (t_kind tok <> itemEOF -> t_kind tok <> itemSemi ->
   declModel_loop fuel (S n) m p
   = declModel_loop fuel n m (consumed (reported tok p1)))
  /\ Earlier.declModel_loop fuel (S n) m p = Ok (m, reported tok p1).
Proof.
  intros HP Hbad.
  destruct (p_Peek_slot _ _ _ _ HP) as (Hslot & _).
  split.
  - intros Heof Hsemi. cbn [declModel_loop]. unfold bind at 1. rewrite HP.
    assert (Hgo :
              (p_errorf tok ("expected 1 char ident, not '" ++ t_val tok ++ "'") ;;;
               p_Token fuel ;;; declModel_loop fuel n m) p1
              = declModel_loop fuel n m (consumed (reported tok p1))).
    { unfold bind at 1. unfold p_errorf, modify.
      unfold bind at 1.
      rewrite (p_Token_after_Peek fuel _ tok) by exact Hslot.
      reflexivity. }
    destruct (t_kind tok) eqn:Hk; try congruence; try exact Hgo.
    destruct (len (t_val tok) =? 1) eqn:Hl; [|exact Hgo].
    apply Z.eqb_eq in Hl. exfalso. apply Hbad. split; reflexivity || assumption.
  - cbn [Earlier.declModel_loop]. unfold bind at 1. rewrite HP.
    destruct (itemType_eqb (t_kind tok) itemIdentifier && (len (t_val tok) =? 1))
             eqn:Hc.
    + apply andb_true_iff in Hc. destruct Hc as (Hk & Hl).
      apply Z.eqb_eq in Hl. exfalso. apply Hbad. split; [|assumption].
      destruct (t_kind tok); try discriminate; reflexivity.
    + unfold bind, p_errorf, modify, ret. reflexivity.
Qed.

Lemma typeIdent_role (typeTok : Token) (p p' : dynParser) (ty : Ident) :
  typeIdent typeTok p = Ok (ty, p') ->
  exists role, role_of_tag (t_val typeTok) = Some role
               /\ ty = mkIdent (t_pos typeTok) role /\ p' = p.
Proof.
  unfold typeIdent, role_of_tag, ret, throw. intros H.
  repeat match type of H with
         | (if ?b then _ else _) _ = _ => destruct b
         end;
    inversion H; subst; eexists; repeat split; reflexivity.
Qed.

Lemma varDecl_role (fuel : nat) (typeTok : Token) (p p' : dynParser)
      (decl : VarDecl) :
  varDecl fuel typeTok p = Ok (Some decl, p') ->
  exists role, role_of_tag (t_val typeTok) = Some role
               /\ VarDecl_Type decl = Some (mkIdent (t_pos typeTok) role).
Proof.
  unfold varDecl. intros H. bind_inv H as nameTok p1 E1.
  destruct (negb (itemType_eqb (t_kind nameTok) itemIdentifier)).
  - bind_inv H as u p2 E2. discriminate.
  - bind_inv H as ty p2 E2. apply typeIdent_role in E2.
    destruct E2 as (role & Hr & -> & ->).
    unfold ret in H. inversion H; subst. simpl. eauto.
Qed.

Lemma decl_and_equal_role (fuel : nat) (typeTok : Token) (p p' : dynParser)
      (decl : VarDecl) :
  decl_and_equal fuel typeTok p = Ok (Some decl, p') ->
  exists role, role_of_tag (t_val typeTok) = Some role
               /\ VarDecl_Type decl = Some (mkIdent (t_pos typeTok) role).
Proof.
  unfold decl_and_equal. intros H. bind_inv H as d p1 E1.
  destruct d as [d|]; [|discriminate].
  bind_inv H as eq p2 E2. destruct eq; [|discriminate].
  unfold ret in H. inversion H; subst.
  eapply varDecl_role; eassumption.
Qed.

Lemma upper_byte_cases (c : ascii) :
  let u := strings.upper_byte c in
  (u = "L"%char -> c = "L"%char \/ c = "l"%char)
  /\ (u = "N"%char -> c = "N"%char \/ c = "n"%char)
  /\ (u = "C"%char -> c = "C"%char \/ c = "c"%char)
  /\ (u = "R"%char -> c = "R"%char \/ c = "r"%char)
  /\ (u = "A"%char -> c = "A"%char \/ c = "a"%char)
  /\ (u = "T"%char -> c = "T"%char \/ c = "t"%char).
Proof.
  destruct c as [[] [] [] [] [] [] [] []]; vm_compute;
    repeat split; intros H; try discriminate H; auto.
Qed.

Lemma role_of_tag_ascii (v role : string) :
  role_of_tag (strings.upper_ascii v) = Some role -> In (v, role) tag_roles.
Proof.
  destruct v as [|c [|c' v']]; simpl.
  - discriminate.
  - pose proof (upper_byte_cases c) as Hc. cbv zeta in Hc.
    destruct Hc as (HL & HN & HC & HR & HA & HT).
    unfold role_of_tag.
    destruct (String.eqb_spec (String (strings.upper_byte c) "") "L") as [E|_];
      [inversion E as [E']; intros H; inversion H;
       destruct (HL E'); subst; simpl; tauto|].
    destruct (String.eqb_spec (String (strings.upper_byte c) "") "N") as [E|_];
      [inversion E as [E']; intros H; inversion H;
       destruct (HN E'); subst; simpl; tauto|].
    destruct (String.eqb_spec (String (strings.upper_byte c) "") "C") as [E|_];
      [inversion E as [E']; intros H; inversion H;
       destruct (HC E'); subst; simpl; tauto|].
    destruct (String.eqb_spec (String (strings.upper_byte c) "") "R") as [E|_];
      [inversion E as [E']; intros H; inversion H;
       destruct (HR E'); subst; simpl; tauto|].
    destruct (String.eqb_spec (String (strings.upper_byte c) "") "A") as [E|_];
      [inversion E as [E']; intros H; inversion H;
       destruct (HA E'); subst; simpl; tauto|].
    destruct (String.eqb_spec (String (strings.upper_byte c) "") "T") as [E|_];
      [inversion E as [E']; intros H; inversion H;
       destruct (HT E'); subst; simpl; tauto|].
    discriminate.
  - unfold role_of_tag.
    repeat match goal with
           | |- (if String.eqb ?a ?b then _ else _) = _ -> _ =>
             destruct (String.eqb_spec a b) as [E|_]; [inversion E|]
           end.
    discriminate.
Qed.

Lemma bind_Ok {S A B : Type} (c : M S A) (k : A -> M S B) (st : S)
      (r : B * S) :
  bind c k st = Ok r -> exists a st1, c st = Ok (a, st1) /\ k a st1 = Ok r.
Proof.
  unfold bind. destruct (c st) as [[a st1]| | |]; try discriminate. eauto.
Qed.

(** C8: whenever [stmtInto] appends a statement to the model, the role
    recorded on the new declaration is the one that the upper-cased type tag
    stands for: L is stock, N is initial, C is const, R is flow, A is aux
    and T is table; for a tag of ASCII letters that is each of the six
    letters in either case. *)
Theorem stmtInto_role (fuel : nat) (m m' : ModelDecl) (p p' : dynParser) :
  stmtInto fuel m p = Ok (m', p') ->
  m' = m
  \/ exists tok p1 decl rhs role,
      p_Token fuel p = Ok (tok, p1)
      /\ m' = body_append (AssignStmt decl rhs) m
      /\ VarDecl_Type decl = Some (mkIdent (t_pos tok) role)
      /\ role_of_tag (strings.ToUpper (t_val tok)) = Some role
      /\ (strings.isASCII (t_val tok) = true -> In (t_val tok, role) tag_roles).
Proof.
  unfold stmtInto. intros H.
  apply bind_Ok in H. destruct H as (tok & p1 & E1 & H).
  cbv zeta in H. cbn [t_val t_pos] in H.
  assert (Hfin : forall decl rhs p2,
             decl_and_equal fuel
               (mkToken (t_pos tok) (strings.ToUpper (t_val tok)) (t_kind tok)) p1
             = Ok (Some decl, p2) ->
             m' = body_append (AssignStmt decl rhs) m ->
             m' = m
             \/ exists tok p1 decl rhs role,
                 p_Token fuel p = Ok (tok, p1)
                 /\ m' = body_append (AssignStmt decl rhs) m
                 /\ VarDecl_Type decl = Some (mkIdent (t_pos tok) role)
                 /\ role_of_tag (strings.ToUpper (t_val tok)) = Some role
                 /\ (strings.isASCII (t_val tok) = true ->
                     In (t_val tok, role) tag_roles)).
  { intros decl rhs p2 Hd ->. right.
    apply decl_and_equal_role in Hd. destruct Hd as (role & Hr & Hty).
    simpl in Hr, Hty.
    exists tok, p1, decl, rhs, role. repeat split; try assumption.
    intros Hasc. apply role_of_tag_ascii.
    unfold strings.ToUpper in Hr. now rewrite Hasc in Hr. }
  destruct (_ || _) in H.
  - apply bind_Ok in H. destruct H as (d & p2 & E2 & H).
    destruct d as [decl|].
    + apply bind_Ok in H. destruct H as ([rhs ok] & p3 & E3 & H).
      destruct (negb ok).
      * apply bind_Ok in H. destruct H as (u & p4 & E4 & H).
        unfold ret in H. inversion H. now left.
      * unfold ret in H. inversion H; subst. eapply Hfin; [eassumption|reflexivity].
    + apply bind_Ok in H. destruct H as (u & p4 & E4 & H).
      unfold ret in H. inversion H. now left.
  - destruct (String.eqb _ "T") in H.
    + apply bind_Ok in H. destruct H as (d & p2 & E2 & H).
      destruct d as [decl|].
      * apply bind_Ok in H. destruct H as ([rhs ok] & p3 & E3 & H).
        destruct (negb ok).
        -- apply bind_Ok in H. destruct H as (u & p4 & E4 & H).
           unfold ret in H. inversion H. now left.
        -- unfold ret in H. inversion H; subst. eapply Hfin; [eassumption|reflexivity].
      * apply bind_Ok in H. destruct H as (u & p4 & E4 & H).
        unfold ret in H. inversion H. now left.
    + apply bind_Ok in H. destruct H as (u & p2 & E2 & H).
      unfold ret in H. inversion H. now left.
Qed.

(** [declModel] runs the timespec pass on the model named [main] and on no
    other; whatever the pass returns, the model as the pass leaves it is
    appended to the declarations of the file, and an error of the pass is
    counted. *)
Lemma declModel_finish_spec (n : Ident) (m : ModelDecl) (p : dynParser) :
  exists p',
    declModel_finish n m p = Ok (tt, p')
    /\ p_lex p' = p_lex p
    /\ (Ident_Name n <> "main" ->
        File_Decls (p_f p') = File_Decls (p_f p) ++ [m]
        /\ p_nerr p' = p_nerr p)
    /\ (Ident_Name n = "main" ->
        File_Decls (p_f p') = File_Decls (p_f p) ++ [fst (extractTimespec m)]
        /\ p_nerr p' = match snd (extractTimespec m) with
                       | Some _ => p_nerr p + 1
                       | None => p_nerr p
                       end).
Proof.
  unfold declModel_finish.
  destruct (String.eqb_spec (Ident_Name n) "main") as [E|E].
  - destruct (extractTimespec m) as [m1 [e|]]; eexists;
      (split; [reflexivity|]); simpl; (split; [reflexivity|]);
      split; intros H; try contradiction; split; reflexivity.
  - eexists. split; [reflexivity|]. simpl. split; [reflexivity|].
    split; intros H; try contradiction; split; reflexivity.
Qed.

(** C6 (as the code has it): for the program [C X = ], newline, [C Y=2;]
    under a title line, the first statement fails at its right-hand side,
    where [expr] reads the [C] of the next line, and the tokens discarded run
    up to and including the next terminator.  No terminator is inserted at
    the newline behind [=], so that terminator is the semicolon behind [2]:
    [Y], [=] and [2] are discarded, the semicolon ends the discard, and the
    scanner is at the end of the input.  The statement [C Y=2;] goes with
    the first one, and the body holds no declaration named Y but only the
    timespec assignment. *)
Theorem Parse_recover (k : nat) :
  exists r p,
    Parse (40 + k) (file_for prog_recover) prog_recover = Ok (r, p)
    /\ discarded p = [ "discard: (ident Y)" ++ nl; "discard: (op =)" ++ nl;
                       "discard: (num 2)" ++ nl ]%string
    /\ t_kind (l_last (p_lex p)) = itemEOF
    /\ map (fun m => map assign_name (body_of m)) (File_Decls (p_f p))
       = [[Some "timespec"]].
Proof.
  eexists. eexists. split; [vm_compute; reflexivity|].
  split; [reflexivity|]. split; reflexivity.
Qed.

(** C3 (what the code does): the table statement of the specification is
    read to its end and then dropped.  The body holds no assignment to AHMT,
    only the timespec assignment, and no error is counted. *)
Theorem Parse_table_dropped (k : nat) :
  exists file p,
    Parse (40 + k) (file_for prog_table) prog_table
    = Ok ((Some file, None), p)
    /\ p_nerr p = 0
    /\ map (fun m => map assign_name (body_of m)) (File_Decls file)
       = [[Some "timespec"]].
Proof.
  exists only_timespec. eexists. split; [vm_compute; reflexivity|].
  split; reflexivity.
Qed.

(** Why: [tableDef] builds the table of the six values and returns it with
    the flag [false], which [stmtInto] takes for a failure. *)
Lemma tableDef_flag (k : nat) :
  exists p,
    (p_Token (40 + k) ;;; p_Token (40 + k) ;;; p_Token (40 + k) ;;;
     tableDef (40 + k))
      (newParser (newLex prog_table (file_for prog_table)))
    = Ok ((Some (TableFwdExpr
                   [ mkBasicLit 11 token.FLOAT "2"; mkBasicLit 13 token.FLOAT "2";
                     mkBasicLit 17 token.FLOAT "1.6"; mkBasicLit 19 token.FLOAT "1";
                     mkBasicLit 22 token.FLOAT ".2";
                     mkBasicLit 27 token.FLOAT ".005" ]),
           false), p).
Proof. eexists. vm_compute. reflexivity. Qed.
End ParserFacts.

(** ** What the scanner sends, logs and can fail with *)

Section ScannerEffects.
Context {UT : UnicodeTables}.

Lemma next_frame (l l' : dynLex) (r : rune) : next l = Ok (r, l') -> frame l l'.
Proof.
  unfold next. intros H.
  destruct (_ <=? _); [inversion H; subst; apply frame_refl|].
  destruct (slice_from _ _); [|discriminate].
  destruct (utf8.DecodeRuneInString _) as [r0 w]. inversion H; subst r0 l'.
  destruct (r =? 10); unfold frame; simpl; repeat split; try reflexivity.
  all: unfold token.AddLine;
    repeat match goal with |- context [if ?b then _ else _] => destruct b end;
    reflexivity.
Qed.

Lemma backup_frame (l l' : dynLex) (u : unit) : backup l = Ok (u, l') -> frame l l'.
Proof.
  unfold backup, modify. intros H. inversion H; subst.
  unfold frame. simpl. tauto.
Qed.

Lemma ignore_frame (l l' : dynLex) (u : unit) : ignore l = Ok (u, l') -> frame l l'.
Proof.
  unfold ignore, modify. intros H. inversion H; subst.
  unfold frame. simpl. tauto.
Qed.

Lemma peek_frame (l l' : dynLex) (r : rune) : peek l = Ok (r, l') -> frame l l'.
Proof.
  unfold peek. intros H.
  apply bind_Ok in H. destruct H as (r1 & l1 & E1 & H).
  apply bind_Ok in H. destruct H as (u & l2 & E2 & H).
  unfold ret in H. inversion H; subst.
  apply next_frame in E1. apply backup_frame in E2.
  eapply frame_trans; eassumption.
Qed.

Lemma accept_frame (valid : string) (l l' : dynLex) (b : bool) :
  accept valid l = Ok (b, l') -> frame l l'.
Proof.
  unfold accept. intros H.
  apply bind_Ok in H. destruct H as (r1 & l1 & E1 & H).
  apply next_frame in E1.
  destruct (0 <=? _).
  - unfold ret in H. inversion H; subst. exact E1.
  - apply bind_Ok in H. destruct H as (u & l2 & E2 & H).
    unfold ret in H. inversion H; subst. apply backup_frame in E2.
    eapply frame_trans; eassumption.
Qed.

Lemma nextWhile_frame (q : rune -> bool) (n : nat) :
  forall (l l' : dynLex) (u : unit), nextWhile q n l = Ok (u, l') -> frame l l'.
Proof.
  induction n as [|n IH]; intros l l' u H; cbn [nextWhile] in H;
    destruct (next l) as [[r0 l1]| | |] eqn:E; try discriminate;
    apply next_frame in E;
    (destruct (q r0); [destruct (at_end l); try discriminate|]);
    try (inversion H; subst; exact E).
  apply IH in H. eapply frame_trans; eassumption.
Qed.

Lemma acceptRun_frame (valid : string) (l l' : dynLex) (u : unit) :
  acceptRun valid l = Ok (u, l') -> frame l l'.
Proof.
  unfold acceptRun. intros H.
  apply bind_Ok in H. destruct H as (u1 & l1 & E1 & H).
  apply nextWhile_frame in E1. apply backup_frame in H.
  eapply frame_trans; eassumption.
Qed.

Lemma multiComment_loop_frame (n : nat) :
  forall (l l' : dynLex) (u : unit),
    multiComment_loop n l = Ok (u, l') -> frame l l'.
Proof.
  assert (Hend : forall (again : L unit) (l1 l' : dynLex) (u : unit),
             (forall l2, again l2 = Ok (u, l') -> frame l2 l') ->
             (c <- peek ;; if c =? 47 then next ;;; ret tt else again) l1
             = Ok (u, l') -> frame l1 l').
  { intros again l1 l' u Hagain H.
    apply bind_Ok in H. destruct H as (c & l2 & E2 & H).
    apply peek_frame in E2. destruct (c =? 47).
    - apply bind_Ok in H. destruct H as (r3 & l3 & E3 & H).
      unfold ret in H. inversion H; subst. apply next_frame in E3.
      eapply frame_trans; eassumption.
    - apply Hagain in H. eapply frame_trans; eassumption. }
  induction n as [|n IH]; intros l l' u H; cbn [multiComment_loop] in H;
    destruct (next l) as [[r0 l1]| | |] eqn:E; try discriminate;
    apply next_frame in E;
    (destruct (r0 =? eof);
     [apply backup_frame in H; eapply frame_trans; eassumption|]);
    (destruct (negb _);
     [|destruct (at_end l1); [discriminate|]]).
  - discriminate.
  - eapply frame_trans; [exact E|].
    eapply Hend; [|exact H]. intros l2 Habs. discriminate.
  - apply IH in H. eapply frame_trans; eassumption.
  - eapply frame_trans; [exact E|].
    eapply Hend; [|exact H]. intros l2. apply IH.
Qed.

Lemma sent_refl (l : dynLex) : sent [] [] l l.
Proof. unfold sent. now rewrite !app_nil_r. Qed.

Lemma sent_trans (a b : list Token) (x y : list LogEntry) (l1 l2 l3 : dynLex) :
  sent a x l1 l2 -> sent b y l2 l3 -> sent (a ++ b) (x ++ y) l1 l3.
Proof.
  unfold sent. intros (I1 & G1) (I2 & G2).
  rewrite I2, I1, G2, G1, !app_assoc. tauto.
Qed.

Lemma frame_sent (l l' : dynLex) : frame l l' -> sent [] [] l l'.
Proof.
  unfold frame, sent. intros (_ & _ & _ & _ & I & _ & _ & _ & G).
  rewrite I, G, !app_nil_r. tauto.
Qed.

Lemma emit_sent (ty : itemType) (l l' : dynLex) (u : unit) :
  emit ty l = Ok (u, l') ->
  exists t, sent [t] [] l l' /\ t_kind t = ty.
Proof.
  intros H. apply emit_spec in H. destruct H as (v & _ & _ & H).
  cbv zeta in H. subst l'. eexists. unfold sent. simpl.
  rewrite app_nil_r. repeat split.
Qed.

Lemma errorf_sent (msg : LogEntry) (l l' : dynLex) (st : stateFn) :
  errorf msg l = Ok (st, l') ->
  st = nilFn /\ exists t, sent [t] [msg] l l' /\ t_kind t = itemEOF.
Proof.
  unfold errorf. intros H.
  apply bind_Ok in H. destruct H as (u1 & l1 & E1 & H).
  unfold modify in E1. inversion E1; subst u1 l1. clear E1.
  apply bind_Ok in H. destruct H as (u2 & l2 & E2 & H).
  unfold ret in H. inversion H; subst. split; [reflexivity|].
  apply emit_sent in E2. destruct E2 as (t & (I & G) & K).
  exists t. unfold sent. simpl in I, G. rewrite app_nil_r in G. tauto.
Qed.

(** What a computation that returned has sent, added to what has been sent
    since the state function was entered. *)
Ltac sent_since E lem :=
  lazymatch type of E with
  | _ ?l = Ok _ =>
    match goal with
    | S0 : sent _ _ _ l |- _ =>
      let S1 := fresh "S" in
      pose proof (sent_trans _ _ _ _ _ _ _ S0 (frame_sent _ _ (lem E))) as S1;
      clear S0 E
    end
  end.

Ltac sent_learn E :=
  cbv beta in E;
  lazymatch type of E with
  | next ?l = Ok _ =>
    match goal with
    | S0 : sent _ _ _ l |- _ =>
      let S1 := fresh "S" in
      pose proof (sent_trans _ _ _ _ _ _ _ S0
                    (frame_sent _ _ (next_frame _ _ _ E))) as S1;
      clear S0 E
    end
  | nextWhile _ _ ?l = Ok _ =>
    match goal with
    | S0 : sent _ _ _ l |- _ =>
      let S1 := fresh "S" in
      pose proof (sent_trans _ _ _ _ _ _ _ S0
                    (frame_sent _ _ (nextWhile_frame _ _ _ _ _ E))) as S1;
      clear S0 E
    end
  | backup ?l = Ok _ =>
    match goal with
    | S0 : sent _ _ _ l |- _ =>
      let S1 := fresh "S" in
      pose proof (sent_trans _ _ _ _ _ _ _ S0
                    (frame_sent _ _ (backup_frame _ _ _ E))) as S1;
      clear S0 E
    end
  | peek ?l = Ok _ =>
    match goal with
    | S0 : sent _ _ _ l |- _ =>
      let S1 := fresh "S" in
      pose proof (sent_trans _ _ _ _ _ _ _ S0
                    (frame_sent _ _ (peek_frame _ _ _ E))) as S1;
      clear S0 E
    end
  | accept _ ?l = Ok _ =>
    match goal with
    | S0 : sent _ _ _ l |- _ =>
      let S1 := fresh "S" in
      pose proof (sent_trans _ _ _ _ _ _ _ S0
                    (frame_sent _ _ (accept_frame _ _ _ _ E))) as S1;
      clear S0 E
    end
  | acceptRun _ ?l = Ok _ =>
    match goal with
    | S0 : sent _ _ _ l |- _ =>
      let S1 := fresh "S" in
      pose proof (sent_trans _ _ _ _ _ _ _ S0
                    (frame_sent _ _ (acceptRun_frame _ _ _ _ E))) as S1;
      clear S0 E
    end
  | multiComment_loop _ ?l = Ok _ =>
    match goal with
    | S0 : sent _ _ _ l |- _ =>
      let S1 := fresh "S" in
      pose proof (sent_trans _ _ _ _ _ _ _ S0
                    (frame_sent _ _ (multiComment_loop_frame _ _ _ _ E))) as S1;
      clear S0 E
    end
  | ignore ?l = Ok _ =>
    match goal with
    | S0 : sent _ _ _ l |- _ =>
      let S1 := fresh "S" in
      pose proof (sent_trans _ _ _ _ _ _ _ S0
                    (frame_sent _ _ (ignore_frame _ _ _ E))) as S1;
      clear S0 E
    end
  | emit _ ?l = Ok _ =>
    match goal with
    | S0 : sent _ _ _ l |- _ =>
      let t := fresh "t" in
      let S1 := fresh "S" in
      let S2 := fresh "S" in
      let K := fresh "K" in
      destruct (emit_sent _ _ _ _ E) as (t & S1 & K);
      pose proof (sent_trans _ _ _ _ _ _ _ S0 S1) as S2;
      clear S0 S1 E
    end
  | errorf _ ?l = Ok _ =>
    match goal with
    | S0 : sent _ _ _ l |- _ =>
      let t := fresh "t" in
      let S1 := fresh "S" in
      let S2 := fresh "S" in
      let K := fresh "K" in
      let N := fresh "N" in
      destruct (errorf_sent _ _ _ _ E) as (N & t & S1 & K);
      pose proof (sent_trans _ _ _ _ _ _ _ S0 S1) as S2;
      clear S0 S1 E
    end
  | gets _ _ = Ok _ => unfold gets in E; inversion E; subst; clear E
  | ret _ _ = Ok _ => unfold ret in E; inversion E; subst; clear E
  end.

Ltac sent_step H :=
  cbv beta in H;
  lazymatch type of H with
  | bind _ _ _ = Ok _ =>
    let a := fresh "a" in
    let l := fresh "l" in
    let E := fresh "E" in
    bind_inv_as H a l E; repeat sent_step E
  | (if ?b then _ else _) _ = Ok _ => destruct b eqn:?
  | (let ty := _ in _) _ = Ok _ => cbv zeta in H
  | match slice ?s ?a ?b with _ => _ end = Ok _ =>
    destruct (slice s a b); [|discriminate H]
  | _ => sent_learn H
  end.

(** In [statement] the case [isOperator] takes every character that the
    cases before it leave over. *)
Lemma statement_cases (r : rune) :
  unicode.IsSpace r = false ->
  unicode.IsDigit r || (r =? 46) = false ->
  isIdentifierStart r = false ->
  isOperator r = true.
Proof.
  unfold isIdentifierStart. intros Hs Hd Hi.
  apply orb_false_elim in Hd. destruct Hd as (Hd & _).
  rewrite Hd, Hs in Hi. simpl in Hi. now apply negb_false_iff in Hi.
Qed.

(** What one call of a state function does to the channel and to the log. *)
Lemma call_sent (st st' : stateFn) (l l' : dynLex) :
  call st l = Ok (st', l') ->
  exists new logs,
    sent new logs l l' /\ (List.length new <= 2)%nat
    /\ ((st' <> nilFn /\ logs = [])
        \/ (st' = nilFn
            /\ map t_kind new = [itemEOF]
            /\ exists e, logs = [e] /\ is_unrecognized e = false)).
Proof.
  intros H. pose proof (sent_refl l) as S0.
  destruct st; cbn [call] in H;
    unfold throw, begin, statement, operator, comment, multiComment, lexType,
    number, literal, identifier in H;
    try discriminate H;
    repeat sent_step H;
    try match goal with
        | Hs : unicode.IsSpace ?r = false,
          Hd : unicode.IsDigit ?r || (?r =? 46) = false,
          Hi : isIdentifierStart ?r = false,
          Ho : isOperator ?r = false |- _ =>
          exfalso; rewrite (statement_cases r Hs Hd Hi) in Ho; discriminate Ho
        end;
    (eexists; eexists; split; [eassumption|]; split; [simpl; lia|];
     first [ left; split; [discriminate|reflexivity]
           | right; split; [first [reflexivity|assumption]|]; split;
             [simpl; congruence|eexists; split; reflexivity] ]).
Qed.

(** X1: the scanner stops once, and says why.  In every state that calls of
    [Token] lead to, either nothing has been logged and the next state is
    not nil, or the next state is nil and exactly one entry has been logged,
    which is not the one for an unrecognized character: that case of
    [statement] is dead, since [isOperator] takes every character that is
    left over for it. *)
Theorem scanner_stops_once (s : string) (f : token.File) (l : dynLex) :
  Reachable s f l ->
  (l_state l <> nilFn /\ l_log l = [])
  \/ (l_state l = nilFn
      /\ exists e, l_log l = [e] /\ is_unrecognized e = false).
Proof.
  induction 1 as [|l l' _ IH _ Hadv|l t rest _ IH _|l o _ IH].
  - left. split; [discriminate|reflexivity].
  - unfold advance in Hadv.
    apply bind_Ok in Hadv. destruct Hadv as (st & l1 & E & Hset).
    unfold modify in Hset. inversion Hset; subst l'. clear Hset. simpl.
    destruct IH as [(_ & Hlog)|(Hnil & _)].
    + apply call_sent in E.
      destruct E as (new & logs & (_ & G) & _ & [(Hst & ->)|(-> & _ & e & -> & He)]).
      * left. rewrite G, Hlog. split; [exact Hst|reflexivity].
      * right. rewrite G, Hlog. split; [reflexivity|]. exists e. tauto.
    + rewrite Hnil in E. discriminate E.
  - exact IH.
  - exact IH.
Qed.

(** X2: a comment sends no token.  The state functions [comment] and
    [multiComment], when they return, hand over to [statement] with no text
    pending, and have changed nothing but the cursor: the channel, the last
    token and the flag that asks for a terminator at the end of the line are
    as they were. *)
Theorem comment_sends_nothing (st st' : stateFn) (l l' : dynLex) :
  st = commentFn \/ st = multiCommentFn ->
  call st l = Ok (st', l') ->
  st' = statementFn /\ frame l l' /\ l_start l' = l_pos l'.
Proof.
  intros [->| ->] H; cbn [call] in H; unfold comment, multiComment in H.
  - apply bind_Ok in H. destruct H as (u1 & l1 & E1 & H).
    apply bind_Ok in H. destruct H as (u2 & l2 & E2 & H).
    apply bind_Ok in H. destruct H as (u3 & l3 & E3 & H).
    unfold ret in H. inversion H; subst. clear H.
    apply nextWhile_frame in E1. apply backup_frame in E2.
    destruct u3. apply ignore_spec in E3. destruct E3 as (F3 & _ & S3 & _).
    split; [reflexivity|]. split; [|exact S3].
    eapply frame_trans; [exact E1|]. eapply frame_trans; eassumption.
  - apply bind_Ok in H. destruct H as (u1 & l1 & E1 & H).
    apply bind_Ok in H. destruct H as (u3 & l3 & E3 & H).
    unfold ret in H. inversion H; subst. clear H.
    apply multiComment_loop_frame in E1.
    destruct u3. apply ignore_spec in E3. destruct E3 as (F3 & _ & S3 & _).
    split; [reflexivity|]. split; [|exact S3].
    eapply frame_trans; eassumption.
Qed.

(** *** What can keep a state function from returning *)

Lemma bind_not_Hang {S A B : Type} (c : M S A) (k : A -> M S B) (st : S) :
  c st <> Hang ->
  (forall a st1, c st = Ok (a, st1) -> k a st1 <> Hang) ->
  bind c k st <> Hang.
Proof.
  unfold bind. intros Hc Hk.
  destruct (c st) as [[a st1]| | |]; try discriminate; auto.
Qed.

Lemma next_not_Hang (l : dynLex) : next l <> Hang.
Proof.
  unfold next. destruct (_ <=? _); [discriminate|].
  destruct (slice_from _ _); [|discriminate].
  destruct (utf8.DecodeRuneInString _). discriminate.
Qed.

(** A loop [for q(l.next()) { }] ends when [q] does not hold of 0. *)
Lemma nextWhile_not_Hang (q : rune -> bool) (n : nat) :
  q eof = false -> forall l, nextWhile q n l <> Hang.
Proof.
  intros Hq. induction n as [|n IH]; intros l; cbn [nextWhile];
    pose proof (next_not_Hang l) as Hn;
    destruct (next l) as [[r0 l1]| | |] eqn:E; try discriminate; try congruence;
    (destruct (q r0) eqn:Hr; [|discriminate]);
    (destruct (at_end l) eqn:He; [|try discriminate; try apply IH]);
    unfold next in E; unfold at_end in He; rewrite He in E;
    inversion E; subst; unfold eof in Hq; congruence.
Qed.

(** [emit] blocks only on a full channel. *)
Lemma emit_not_Hang (ty : itemType) (l0 l : dynLex)
      (new : list Token) (logs : list LogEntry) :
  l_items l0 = [] -> sent new logs l0 l -> (List.length new < 2)%nat ->
  emit ty l <> Hang.
Proof.
  unfold emit, items_cap. intros H0 (I & _) Hlen.
  destruct (token.FilePos _ _); [|discriminate].
  destruct (slice _ _ _); [|discriminate].
  rewrite I, H0. simpl app.
  destruct (2 <=? List.length new)%nat eqn:E; [|discriminate].
  apply Nat.leb_le in E. lia.
Qed.

Lemma errorf_not_Hang (msg : LogEntry) (l0 l : dynLex)
      (new : list Token) (logs : list LogEntry) :
  l_items l0 = [] -> sent new logs l0 l -> (List.length new < 2)%nat ->
  errorf msg l <> Hang.
Proof.
  intros H0 (I & G) Hlen. unfold errorf.
  apply bind_not_Hang; [discriminate|]. intros u l1 E.
  unfold modify in E. inversion E; subst u l1. clear E.
  apply bind_not_Hang; [|discriminate].
  apply (emit_not_Hang _ l0 _ new (logs ++ [msg])); [exact H0| |exact Hlen].
  unfold sent. simpl. rewrite I, G, app_assoc. tauto.
Qed.

Ltac nohang :=
  cbv beta zeta;
  lazymatch goal with
  | |- bind _ _ _ <> Hang =>
    apply bind_not_Hang;
    [ nohang
    | let a := fresh "a" in
      let l := fresh "l" in
      let E := fresh "E" in
      intros a l E; repeat sent_step E; nohang ]
  | |- (if ?b then _ else _) _ <> Hang => destruct b eqn:?; nohang
  | |- next _ <> Hang => apply next_not_Hang
  | |- emit _ _ <> Hang =>
    eapply emit_not_Hang; [eassumption|eassumption|simpl; lia]
  | |- nextWhile _ _ _ <> Hang =>
    apply nextWhile_not_Hang; cbv beta;
    first [reflexivity|apply andb_false_iff; right; reflexivity]
  | |- peek _ <> Hang => unfold peek; nohang
  | |- accept _ _ <> Hang => unfold accept; nohang
  | |- acceptRun _ _ <> Hang => unfold acceptRun; nohang
  | |- errorf _ _ <> Hang =>
    eapply errorf_not_Hang; [eassumption|eassumption|simpl; lia]
  | |- _ => discriminate
  end.

(** X3: only an identifier or a block comment can keep the scanner from
    returning.  [Token] calls a state function when the channel is empty;
    called so, no state function but [identifier] and [multiComment] can
    fail to return: the channel of two tokens is never too small for what a
    state function sends, and every other loop ends at the end of input. *)
Theorem hang_only_in_identifier_or_comment (st : stateFn) (l : dynLex) :
  l_items l = [] ->
  call st l = Hang ->
  st = identifierFn \/ st = multiCommentFn.
Proof.
  intros H0 H. pose proof (sent_refl l) as S0.
  destruct st; try (left; reflexivity); try (right; reflexivity); exfalso;
    refine ((_ : call _ l <> Hang) H); cbn [call];
    unfold throw, begin, statement, operator, comment, lexType, number, literal;
    nohang.
Qed.
End ScannerEffects.

Section ScannerEnd.
Context {UT : UnicodeTables}.

(** A call of [next] that returns a rune other than 0 has read it from the
    input and has moved by its width. *)
Lemma next_moved (l l' : dynLex) (r : rune) :
  next l = Ok (r, l') -> bounds l -> r <> eof ->
  l_s l' = l_s l /\ 1 <= l_width l'
  /\ l_pos l' = l_pos l + l_width l' /\ l_pos l' <= len (l_s l).
Proof.
  unfold next, bounds, eof. intros H (Hp & Hw) Hr.
  destruct (len (l_s l) <=? l_pos l) eqn:E.
  - inversion H; subst. congruence.
  - apply Z.leb_gt in E.
    destruct (slice_from (l_s l) (l_pos l)) as [rest|] eqn:Hs; [|discriminate].
    apply slice_Some in Hs. destruct Hs as (_ & _ & _ & Hlen).
    assert (Hne : rest <> EmptyString).
    { intros ->. change (len "") with 0 in Hlen. lia. }
    pose proof (decode_width rest Hne) as Hw'.
    destruct (utf8.DecodeRuneInString rest) as [r0 w]. simpl in Hw'.
    inversion H; subst r0 l'. clear H.
    destruct (r =? 10); simpl; repeat split; try reflexivity; lia.
Qed.

(** A loop [for q(l.next()) { }] whose [q] holds of 0 can only be left at a
    rune of the input: when it is left, the last rune read lies between the
    place where the loop started and the end of the input. *)
Lemma nextWhile_left (q : rune -> bool) (n : nat) :
  q eof = true ->
  forall (l l' : dynLex) (u : unit),
    nextWhile q n l = Ok (u, l') -> bounds l ->
    l_s l' = l_s l /\ 1 <= l_width l'
    /\ l_pos l <= l_pos l' - l_width l' /\ l_pos l' <= len (l_s l).
Proof.
  intros Hq. induction n as [|n IH]; intros l l' u H Hb; cbn [nextWhile] in H;
    destruct (next l) as [[r0 l1]| | |] eqn:E; try discriminate;
    (destruct (q r0) eqn:Hr;
     [destruct (at_end l); try discriminate|]).
  - inversion H; subst l1. apply next_moved in E; [|exact Hb|congruence].
    destruct E as (A & B & C & D). repeat split; try assumption; lia.
  - apply next_spec in E; [|exact Hb].
    destruct E as ((Fs & _) & B1 & _ & _ & Hle & _).
    apply IH in H; [|exact B1]. rewrite Fs in H.
    destruct H as (A & B & C & D). repeat split; try assumption; lia.
  - inversion H; subst l1. apply next_moved in E; [|exact Hb|congruence].
    destruct E as (A & B & C & D). repeat split; try assumption; lia.
Qed.

Lemma isAlphaNumeric_eof : isAlphaNumeric eof = true.
Proof. reflexivity. Qed.

(** X4: an identifier is never the last thing in the input.  [isAlphaNumeric]
    holds of the 0 that [next] returns at the end of input, so the loop of
    [identifier] can only be left at a character of the input: whenever
    [identifier] returns, the text it has sent ends in front of a character
    that is still to be read. *)
Theorem identifier_needs_follower (l l' : dynLex) (st : stateFn) :
  bounds l ->
  identifier l = Ok (st, l') ->
  l_pos l <= l_pos l' /\ l_pos l' < len (l_s l).
Proof.
  unfold identifier. intros Hb H.
  apply bind_Ok in H. destruct H as (u1 & l1 & E1 & H). cbv beta in E1.
  apply bind_Ok in H. destruct H as (u2 & l2 & E2 & H).
  apply (nextWhile_left _ _ isAlphaNumeric_eof) in E1; [|exact Hb].
  unfold backup, modify in E2. inversion E2; subst u2 l2. clear E2.
  destruct (slice _ _ _) as [id0|]; [|discriminate].
  apply bind_Ok in H. destruct H as (u3 & l3 & E3 & H).
  unfold ret in H. inversion H; subst st l3. clear H.
  assert (Hpos : l_pos l' = l_pos l1 - l_width l1).
  { destruct (is_keyword id0); apply emit_spec in E3;
      destruct E3 as (v & _ & _ & ->); reflexivity. }
  lia.
Qed.

Lemma substring_tail (s : string) :
  forall (n m : nat) (c : ascii) (rest : string),
    substring n (S m) s = String c rest -> substring (S n) m s = rest.
Proof.
  induction s as [|a s IH]; intros n m c rest H.
  - destruct n; discriminate.
  - destruct n as [|n].
    + simpl in H. inversion H; subst. reflexivity.
    + simpl in H. apply IH in H. exact H.
Qed.

Lemma slice_from_tail (s : string) (p : Z) (c : ascii) (rest : string) :
  slice_from s p = Some (String c rest) -> slice_from s (p + 1) = Some rest.
Proof.
  unfold slice_from. intros H. pose proof (slice_Some _ _ _ _ H) as Hs.
  rewrite len_String in Hs. pose proof (len_nonneg rest).
  unfold slice in *.
  destruct ((0 <=? p) && (p <=? len s) && (len s <=? len s)); [|discriminate].
  replace ((0 <=? p + 1) && (p + 1 <=? len s) && (len s <=? len s)) with true
    by (symmetry; rewrite !andb_true_iff, !Z.leb_le; lia).
  inversion H as [Hsub]. f_equal.
  replace (Z.to_nat (len s - p)) with (S (Z.to_nat (len s - (p + 1)))) in Hsub
    by lia.
  replace (Z.to_nat (p + 1)) with (S (Z.to_nat p)) by lia.
  eapply substring_tail. exact Hsub.
Qed.

(** Reading an ASCII character. *)
Lemma next_ascii (l : dynLex) (c : ascii) (rest : string) :
  slice_from (l_s l) (l_pos l) = Some (String c rest) ->
  (byte_val c <? utf8.RuneSelf) = true ->
  exists l1,
    next l = Ok (byte_val c, l1) /\ at_end l = false
    /\ l_s l1 = l_s l /\ l_pos l1 = l_pos l + 1 /\ l_width l1 = 1.
Proof.
  intros Hs Hc. pose proof (slice_Some _ _ _ _ Hs) as Hb.
  rewrite len_String in Hb. pose proof (len_nonneg rest) as Hr.
  unfold next, at_end.
  replace (len (l_s l) <=? l_pos l) with false by (symmetry; apply Z.leb_gt; lia).
  rewrite Hs. cbn [utf8.DecodeRuneInString]. cbv zeta. rewrite Hc.
  eexists. split; [reflexivity|]. split; [reflexivity|].
  destruct (byte_val c =? 10); simpl; repeat split.
Qed.

(** A loop [for q(l.next()) { }] whose [q] holds of 0 and of every character
    that is left never ends. *)
Lemma nextWhile_to_end (q : rune -> bool) :
  q eof = true ->
  forall (rest : string) (n : nat) (l : dynLex),
    slice_from (l_s l) (l_pos l) = Some rest ->
    forallb (fun b => (b <? utf8.RuneSelf) && q b) (bytes rest) = true ->
    (remaining l <= n)%nat ->
    nextWhile q n l = Hang.
Proof.
  intros Hq. induction rest as [|c rest IH]; intros n l Hs Hall Hn.
  - apply slice_Some in Hs. change (len "") with 0 in Hs.
    assert (He : (len (l_s l) <=? l_pos l) = true) by (apply Z.leb_le; lia).
    destruct n; cbn [nextWhile]; unfold next, at_end; rewrite He;
      unfold eof in Hq; rewrite Hq; reflexivity.
  - cbn [bytes forallb] in Hall. apply andb_true_iff in Hall.
    destruct Hall as (Hc & Hall). apply andb_true_iff in Hc.
    destruct Hc as (Hc & Hqc).
    destruct (next_ascii l c rest Hs Hc) as (l1 & E & He & Fs & Fp & _).
    assert (Hrem : (remaining l1 <= pred n)%nat /\ (0 < n)%nat).
    { apply slice_Some in Hs. rewrite len_String in Hs.
      pose proof (len_nonneg rest).
      unfold remaining in *. rewrite Fs, Fp. lia. }
    destruct n as [|n]; [lia|]. cbn [nextWhile]. rewrite E, Hqc, He.
    apply IH; [|exact Hall|simpl in Hrem; tauto].
    rewrite Fs, Fp. eapply slice_from_tail. exact Hs.
Qed.

(** X5: an identifier that runs to the end of the input is never returned.  If
    everything from the cursor to the end of the input is ASCII and holds no
    white space, no operator and no semicolon, [identifier] does not return:
    at the end of input [next] gives 0 without moving, [isAlphaNumeric]
    holds of 0, and the loop reads that 0 for ever. *)
Theorem identifier_hangs_at_end (l : dynLex) (rest : string) :
  slice_from (l_s l) (l_pos l) = Some rest ->
  forallb (fun b => (b <? utf8.RuneSelf) && isAlphaNumeric b) (bytes rest) = true ->
  identifier l = Hang.
Proof.
  intros Hs Hall. unfold identifier, bind.
  rewrite (nextWhile_to_end isAlphaNumeric isAlphaNumeric_eof rest
             (remaining l) l Hs Hall (Nat.le_refl _)).
  reflexivity.
Qed.

(** X6: the scanner cannot be asked twice after it has refused the input.
    When the input does not begin with an asterisk, the first call of [Token]
    gives the end-of-input token and leaves the nil state function behind;
    a second call of [Token] finds the channel empty, calls the nil
    function, and panics. *)
Theorem Token_after_refusal_panics (s : string) (f : token.File) (n : nat) :
  first_rune s <> 42 -> len s <= token.size f ->
  exists t l1,
    lex_Token (S n) (newLex s f) = Ok (t, l1)
    /\ t_kind t = itemEOF
    /\ lex_Token (S n) l1 = Panic NilFunc
    /\ pull (S n) 2 (newLex s f) = Panic NilFunc.
Proof.
  intros H1 H2.
  destruct (begin_not_star s f H1 H2) as (l1 & t & Hadv & Hit & Hk & _ & Hst & _).
  assert (Hfirst : lex_Token (S n) (newLex s f) = Ok (t, set_items [] l1)).
  { apply lex_Token_first with (l1 := l1); [reflexivity|exact Hadv|exact Hit]. }
  assert (Hsecond : lex_Token (S n) (set_items [] l1) = Panic NilFunc).
  { cbn [lex_Token]. simpl l_items. unfold bind, advance, bind.
    simpl l_state. rewrite Hst. reflexivity. }
  exists t, (set_items [] l1).
  split; [exact Hfirst|]. split; [exact Hk|]. split; [exact Hsecond|].
  cbn [pull]. unfold bind at 1. rewrite Hfirst.
  unfold bind at 1. unfold bind at 1. rewrite Hsecond. reflexivity.
Qed.

(** At the end of input a loop [for q(l.next()) { }] whose [q] does not hold
    of 0 is left at once, and nothing has moved. *)
Lemma nextWhile_at_end (q : rune -> bool) (n : nat) (l : dynLex) :
  q eof = false -> at_end l = true -> nextWhile q n l = Ok (tt, l).
Proof.
  unfold at_end, eof. intros Hq He.
  destruct n; cbn [nextWhile]; unfold next; rewrite He, Hq; reflexivity.
Qed.

(** What [lexType] and [literal] do once the opening delimiter is read and
    the text is made to start behind it, when that delimiter was the last
    character of the input: the loop is left at once, [backup] steps back by
    the width of the delimiter, [peek] finds the opening delimiter and takes
    it for the closing one, and [emit] slices from behind it to in front of
    it. *)
Lemma unclosed_tail (c : ascii) (ty : itemType) (l : dynLex) :
  (byte_val c <? utf8.RuneSelf) = true -> byte_val c <> 10 ->
  l_start l = l_pos l -> l_width l = 1 ->
  slice_from (l_s l) (l_pos l - 1) = Some (String c EmptyString) ->
  l_pos l - 1 <= token.size (l_f l) ->
  ((fun l' => nextWhile (fun r => negb (r =? byte_val c) && negb (r =? eof))
                        (remaining l') l') ;;;
   backup ;;;
   c0 <- peek ;;
   if negb (c0 =? byte_val c) then errorf LogUnexpectedEOF
   else emit ty ;;; next ;;; ignore ;;; ret statementFn) l
  = Panic SliceBounds.
Proof.
  intros Hc Hnl Hstart Hw Hs Hsize.
  pose proof (slice_Some _ _ _ _ Hs) as Hb. rewrite len_String in Hb.
  change (len "") with 0 in Hb.
  destruct l as [f s pos start width last items state semi peeked log].
  simpl in *. subst start width.
  unfold bind at 1. cbv beta.
  rewrite nextWhile_at_end;
    [|apply andb_false_iff; right; reflexivity
     |unfold at_end; simpl; apply Z.leb_le; lia].
  unfold bind at 1. unfold backup at 1, modify. simpl.
  unfold bind at 1. unfold peek, bind, next. simpl.
  replace (len s <=? pos - 1) with false by (symmetry; apply Z.leb_gt; lia).
  rewrite Hs. cbn [utf8.DecodeRuneInString]. cbv zeta. rewrite Hc.
  replace (byte_val c =? 10) with false by (symmetry; apply Z.eqb_neq; exact Hnl).
  unfold backup, modify, ret. simpl.
  rewrite Z.eqb_refl. simpl. unfold emit. simpl.
  unfold token.FilePos.
  replace (token.size f <? pos - 1 + 1 - 1) with false
    by (symmetry; apply Z.ltb_ge; lia).
  unfold slice.
  replace ((0 <=? pos) && (pos <=? pos - 1 + 1 - 1)) with false
    by (symmetry; apply andb_false_iff; right; apply Z.leb_gt; lia).
  reflexivity.
Qed.

(** X7: a backtick or a double quote that is the last character of the input
    makes [Token] panic.  [lexType] and [literal] mean to log "unexpected
    EOF" when the closing delimiter is missing; but when the opening
    delimiter is the last character, stepping back from the end of input
    lands in front of that delimiter, it is taken for the closing one, and
    [emit] slices the input with a start behind the end: slice bounds out
    of range. *)
Theorem lone_delimiter_panics (c : ascii) (l : dynLex) (n : nat) :
  c = backtick_char \/ c = quote_char ->
  l_state l = statementFn -> l_items l = [] ->
  slice_from (l_s l) (l_pos l) = Some (String c EmptyString) ->
  l_pos l <= token.size (l_f l) ->
  lex_Token (S (S n)) l = Panic SliceBounds.
Proof.
  intros Hc Hst Hit Hs Hsize.
  pose proof (slice_Some _ _ _ _ Hs) as Hb. rewrite len_String in Hb.
  change (len "") with 0 in Hb.
  destruct l as [f s pos start width last items state semi peeked log].
  simpl in *. subst state items.
  cbn [lex_Token]. simpl l_items. unfold bind at 1. unfold advance at 1.
  unfold bind at 1. simpl l_state. cbn [call].
  unfold statement. unfold bind at 1. unfold next at 1. simpl.
  replace (len s <=? pos) with false by (symmetry; apply Z.leb_gt; lia).
  rewrite Hs. cbn [utf8.DecodeRuneInString]. cbv zeta.
  destruct Hc as [-> | ->].
  - change (byte_val backtick_char) with 96. simpl.
    unfold ret, modify. simpl. unfold bind at 1. unfold advance.
    unfold bind at 1. simpl l_state. cbn [call]. unfold lexType.
    unfold bind at 1. unfold ignore at 1, modify. simpl.
    change 96 with (byte_val backtick_char).
    rewrite (unclosed_tail backtick_char itemKindDecl);
      simpl; try reflexivity; try discriminate;
      rewrite ?Z.add_simpl_r; assumption.
  - change (byte_val quote_char) with 34. simpl.
    unfold bind at 1. unfold advance.
    unfold bind at 1. simpl l_state. cbn [call]. unfold literal.
    unfold bind at 1. unfold next at 1. simpl.
    rewrite Z.add_simpl_r.
    replace (len s <=? pos) with false by (symmetry; apply Z.leb_gt; lia).
    rewrite Hs. cbn [utf8.DecodeRuneInString]. cbv zeta.
    change (byte_val quote_char) with 34. simpl.
    unfold bind at 1. unfold ignore at 1, modify. simpl.
    change 34 with (byte_val quote_char).
    rewrite (unclosed_tail quote_char itemLiteral);
      simpl; try reflexivity; try discriminate;
      rewrite ?Z.add_simpl_r; assumption.
Qed.
End ScannerEnd.

Section ScannerLines.
Context {UT : UnicodeTables}.

(** Once a rune has been read, the width of the last rune stays positive. *)
Lemma next_width (l l' : dynLex) (r : rune) :
  next l = Ok (r, l') -> bounds l -> 1 <= l_width l ->
  bounds l' /\ 1 <= l_width l' /\ l_width l' <= l_pos l' /\ l_s l' = l_s l.
Proof.
  intros H Hb Hw.
  pose proof (next_spec l l' r H Hb) as ((Fs & _) & Hb' & Hwp & _).
  refine (conj Hb' (conj _ (conj Hwp Fs))).
  unfold next in H. destruct (len (l_s l) <=? l_pos l) eqn:E.
  - inversion H; subst. exact Hw.
  - apply Z.leb_gt in E.
    destruct (slice_from (l_s l) (l_pos l)) as [rest|] eqn:Hs; [|discriminate].
    apply slice_Some in Hs. destruct Hs as (_ & _ & _ & Hlen).
    assert (Hne : rest <> EmptyString).
    { intros ->. change (len "") with 0 in Hlen. lia. }
    pose proof (decode_width rest Hne) as Hw'.
    destruct (utf8.DecodeRuneInString rest) as [r0 w]. simpl in Hw'.
    inversion H; subst r0 l'. destruct (r =? 10); simpl; lia.
Qed.

Lemma nextWhile_width (q : rune -> bool) (n : nat) :
  forall (l l' : dynLex) (u : unit),
    nextWhile q n l = Ok (u, l') -> bounds l -> 1 <= l_width l ->
    bounds l' /\ 1 <= l_width l' /\ l_width l' <= l_pos l' /\ l_s l' = l_s l.
Proof.
  induction n as [|n IH]; intros l l' u H Hb Hw; cbn [nextWhile] in H;
    destruct (next l) as [[r0 l1]| | |] eqn:E; try discriminate;
    apply next_width in E; try assumption;
    (destruct (q r0); [destruct (at_end l); try discriminate|]);
    try (inversion H; subst; exact E).
  destruct E as (Hb1 & Hw1 & _ & Fs).
  apply IH in H; try assumption. rewrite Fs in H. exact H.
Qed.

(** After [backup] the cursor is in front of the end of the input. *)
Lemma backup_below (l l' : dynLex) (u : unit) :
  backup l = Ok (u, l') ->
  bounds l -> 1 <= l_width l -> l_width l <= l_pos l ->
  bounds l' /\ 1 <= l_width l' /\ l_pos l' < len (l_s l) /\ l_s l' = l_s l.
Proof.
  unfold backup, modify, bounds. intros H Hb Hw Hwp.
  inversion H; subst. simpl. repeat split; lia.
Qed.

Lemma acceptRun_below (valid : string) (l l' : dynLex) (u : unit) :
  acceptRun valid l = Ok (u, l') -> bounds l -> 1 <= l_width l ->
  bounds l' /\ 1 <= l_width l' /\ l_pos l' < len (l_s l) /\ l_s l' = l_s l.
Proof.
  unfold acceptRun. intros H Hb Hw.
  apply bind_Ok in H. destruct H as (u1 & l1 & E1 & H).
  apply nextWhile_width in E1; try assumption.
  destruct E1 as (Hb1 & Hw1 & Hwp1 & Fs).
  apply backup_below in H; try assumption. rewrite Fs in H. exact H.
Qed.

Lemma accept_below (valid : string) (l l' : dynLex) (b : bool) :
  accept valid l = Ok (b, l') -> bounds l -> 1 <= l_width l ->
  bounds l' /\ 1 <= l_width l' /\ l_s l' = l_s l
  /\ (b = false -> l_pos l' < len (l_s l)).
Proof.
  unfold accept. intros H Hb Hw.
  apply bind_Ok in H. destruct H as (r1 & l1 & E1 & H).
  apply next_width in E1; try assumption.
  destruct E1 as (Hb1 & Hw1 & Hwp1 & Fs).
  destruct (0 <=? _).
  - unfold ret in H. inversion H; subst.
    refine (conj Hb1 (conj Hw1 (conj Fs _))). discriminate.
  - apply bind_Ok in H. destruct H as (u & l2 & E2 & H).
    unfold ret in H. inversion H; subst.
    apply backup_below in E2; try assumption. rewrite Fs in E2.
    destruct E2 as (A & B & C & D).
    refine (conj A (conj B (conj D _))). intros _. exact C.
Qed.

(** X8: a number is never the last thing in the input either.  Every path
    through [number] ends in a [backup], and at the end of input [next]
    gives 0 without moving while [backup] still steps back by the width of
    the rune read before: whenever [number] returns, called as [statement]
    calls it after a digit or a dot has been read, the text it has sent ends
    strictly before the end of the input.  The last character of an input is
    never part of a number token. *)
Theorem number_needs_follower (l l' : dynLex) (st : stateFn) :
  bounds l -> 1 <= l_width l ->
  number l = Ok (st, l') ->
  l_pos l' < len (l_s l).
Proof.
  unfold number. intros Hb Hw H.
  apply bind_Ok in H. destruct H as (u1 & l1 & E1 & H).
  apply acceptRun_below in E1; try assumption.
  destruct E1 as (Hb1 & Hw1 & _ & Fs1).
  apply bind_Ok in H. destruct H as (b2 & l2 & E2 & H).
  apply accept_below in E2; try assumption.
  destruct E2 as (Hb2 & Hw2 & Fs2 & _).
  apply bind_Ok in H. destruct H as (u3 & l3 & E3 & H).
  apply acceptRun_below in E3; try assumption.
  destruct E3 as (Hb3 & Hw3 & _ & Fs3).
  apply bind_Ok in H. destruct H as (e & l4 & E4 & H).
  apply accept_below in E4; try assumption.
  destruct E4 as (Hb4 & Hw4 & Fs4 & Hlt4).
  apply bind_Ok in H. destruct H as (u5 & l5 & E5 & H).
  apply bind_Ok in H. destruct H as (u6 & l6 & E6 & H).
  unfold ret in H. inversion H; subst st l6. clear H.
  apply emit_spec in E6. destruct E6 as (v & _ & _ & ->). simpl.
  assert (Hs : l_s l4 = l_s l) by congruence.
  assert (Hs3 : l_s l3 = l_s l) by congruence.
  destruct e.
  - apply bind_Ok in E5. destruct E5 as (b7 & l7 & E7 & E8).
    apply accept_below in E7; try assumption.
    destruct E7 as (Hb7 & Hw7 & Fs7 & _).
    apply acceptRun_below in E8; try assumption.
    destruct E8 as (_ & _ & Hlt & _). rewrite Fs7, Hs in Hlt. exact Hlt.
  - unfold ret in E5. inversion E5; subst l5.
    rewrite <- Hs3. apply Hlt4. reflexivity.
Qed.

(** Reading an ASCII character, and what it leaves alone. *)
Lemma next_ascii_frame (l : dynLex) (c : ascii) (rest : string) :
  slice_from (l_s l) (l_pos l) = Some (String c rest) ->
  (byte_val c <? utf8.RuneSelf) = true ->
  exists l1,
    next l = Ok (byte_val c, l1) /\ at_end l = false
    /\ frame l l1 /\ l_pos l1 = l_pos l + 1 /\ l_width l1 = 1
    /\ l_start l1 = l_start l.
Proof.
  intros Hs Hc.
  destruct (next_ascii l c rest Hs Hc) as (l1 & E & He & _ & Hp & Hw).
  exists l1. pose proof (next_frame _ _ _ E) as F.
  refine (conj E (conj He (conj F (conj Hp (conj Hw _))))).
  unfold next in E. destruct (len (l_s l) <=? l_pos l);
    [inversion E; reflexivity|].
  destruct (slice_from _ _); [|discriminate].
  destruct (utf8.DecodeRuneInString _) as [r0 w].
  inversion E; subst. destruct (byte_val c =? 10); reflexivity.
Qed.

(** A loop [for q(l.next()) { }] over ASCII characters of which [q] holds,
    up to one of which it does not hold. *)
Lemma nextWhile_through (q : rune -> bool) (c : ascii) (rest : string) :
  (byte_val c <? utf8.RuneSelf) = true -> q (byte_val c) = false ->
  forall (text : string) (n : nat) (l : dynLex),
    slice_from (l_s l) (l_pos l) = Some (text ++ String c rest)%string ->
    forallb (fun b => (b <? utf8.RuneSelf) && q b) (bytes text) = true ->
    (String.length text <= n)%nat ->
    exists l',
      nextWhile q n l = Ok (tt, l') /\ frame l l'
      /\ l_pos l' = l_pos l + len text + 1 /\ l_width l' = 1
      /\ l_start l' = l_start l.
Proof.
  intros Hc Hq. induction text as [|a text IH]; intros n l Hs Hall Hn.
  - simpl in Hs.
    destruct (next_ascii_frame l c rest Hs Hc) as (l1 & E & _ & F & Hp & Hw & St).
    exists l1. change (len "") with 0.
    replace (nextWhile q n l) with (Ok (tt, l1) : result (unit * dynLex)).
    + refine (conj eq_refl (conj F (conj _ (conj Hw St)))). lia.
    + destruct n; cbn [nextWhile]; rewrite E, Hq; reflexivity.
  - cbn [bytes forallb] in Hall. apply andb_true_iff in Hall.
    destruct Hall as (Ha & Hall). apply andb_true_iff in Ha.
    destruct Ha as (Ha & Hqa). simpl in Hs.
    destruct (next_ascii_frame l a _ Hs Ha) as (l1 & E & He & F & Hp & Hw & St).
    destruct n as [|n]; [simpl in Hn; lia|].
    assert (Hs1 : slice_from (l_s l1) (l_pos l1) = Some (text ++ String c rest)%string).
    { destruct F as (Fs & _). rewrite Fs, Hp.
      eapply slice_from_tail. exact Hs. }
    destruct (IH n l1 Hs1 Hall) as (l' & E' & F' & Hp' & Hw' & St');
      [simpl in Hn; lia|].
    exists l'. cbn [nextWhile]. rewrite E, Hqa, He.
    split; [exact E'|]. split; [eapply frame_trans; eassumption|].
    rewrite len_String. refine (conj _ (conj Hw' _)); [lia|congruence].
Qed.

Lemma len_app (a b : string) : len (a ++ b)%string = len a + len b.
Proof.
  unfold len. induction a as [|c a IH]; simpl String.length; [reflexivity|].
  simpl in IH. lia.
Qed.

(** X9: the title line is skipped.  For a program that begins with an
    asterisk, whatever ASCII text follows it on the first line (no newline
    and no 0 byte in it), the state functions [begin] and [comment] read the
    line and send nothing: after two turns of [Token] the scanner is in the
    [statement] state, in front of the newline that ends the title, with no
    text pending, nothing on the channel, nothing logged, and no terminator
    asked for. *)
Theorem title_is_skipped (title rest : string) (f : token.File) :
  forallb title_byte (bytes title) = true ->
  exists l2,
    (advance ;;; advance) (newLex (titled title rest) f) = Ok (tt, l2)
    /\ l_state l2 = statementFn
    /\ l_pos l2 = 1 + len title /\ l_start l2 = l_pos l2
    /\ l_items l2 = [] /\ l_log l2 = [] /\ l_semi l2 = false
    /\ l_last l2 = Token_zero.
Proof.
  intros Hall. set (s := titled title rest).
  assert (Hs0 : slice_from (l_s (newLex s f)) (l_pos (newLex s f))
                = Some (String "*" (title ++ nl ++ rest))).
  { simpl. apply slice_from_zero. }
  destruct (next_ascii_frame (newLex s f) "*"%char _ Hs0 eq_refl)
    as (l1 & E1 & _ & F1 & Hp1 & Hw1 & St1).
  simpl l_pos in Hp1. simpl l_start in St1.
  assert (Hs1 : slice_from (l_s l1) (l_pos l1)
                = Some (title ++ String (ascii_of_nat 10) rest)%string).
  { destruct F1 as (Fs & _). rewrite Fs, Hp1.
    apply (slice_from_tail _ 0 "*"%char). exact Hs0. }
  assert (Hq : forallb (fun b => (b <? utf8.RuneSelf)
                                 && (negb (b =? 10) && negb (b =? eof)))
                       (bytes title) = true).
  { rewrite forallb_forall in *. intros b Hin. specialize (Hall b Hin).
    unfold title_byte in Hall. rewrite <- andb_assoc in Hall. exact Hall. }
  set (l1c := set_state commentFn l1).
  assert (Hrem : (String.length title <= remaining l1c)%nat).
  { unfold remaining, l1c. simpl. destruct F1 as (Fs & _). rewrite Fs, Hp1.
    simpl l_s. unfold s, titled.
    change ("*" ++ title ++ nl ++ rest)%string
      with (String "*" (title ++ nl ++ rest))%string.
    rewrite len_String, !len_app.
    pose proof (len_nonneg rest). pose proof (len_nonneg nl).
    unfold len at 1. lia. }
  destruct (nextWhile_through
              (fun r => negb (r =? 10) && negb (r =? eof))
              (ascii_of_nat 10) rest eq_refl eq_refl
              title (remaining l1c) l1c Hs1 Hq Hrem)
    as (l3 & E3 & F3 & Hp3 & Hw3 & St3).
  eexists. split.
  - unfold bind at 1. unfold advance at 1. unfold bind at 1.
    simpl l_state. cbn [call]. unfold begin. unfold bind at 1.
    rewrite E1. change (byte_val "*" =? 42) with true. cbv iota.
    unfold ret at 1. unfold modify at 1.
    fold l1c. unfold advance. unfold bind at 1.
    simpl l_state. cbn [call]. unfold comment.
    unfold bind at 1. rewrite E3.
    unfold bind, backup, ignore, modify, ret. reflexivity.
  - cbn -[Z.add Z.sub len].
    destruct F3 as (_ & _ & _ & La & It & Se & _ & _ & Lo).
    destruct F1 as (_ & _ & _ & La1 & It1 & Se1 & _ & _ & Lo1).
    cbn -[Z.add Z.sub len] in La, It, Se, Lo, Hp3.
    rewrite Hp3, Hw3, La, It, Se, Lo, La1, It1, Se1, Lo1, Hp1.
    cbn -[Z.add Z.sub len].
    repeat split; try reflexivity. lia.
Qed.
End ScannerLines.

(** ** The scan of a plain program *)

Section ScannerPrograms.
Context {UT : UnicodeTables}.

(** *** Calls of [Token], one behind the other *)










(** *** Characters *)













(** *** Pieces of the input *)





Lemma slice_from_room (s rest : string) (off : Z) :
  slice_from s off = Some rest -> 0 <= off /\ off + len rest = len s.
Proof.
  unfold slice_from. intros H. apply slice_Some in H. lia.
Qed.

(** *** The cursor *)











(** *** One piece at a time *)

Lemma poised_room (s : string) (f : token.File) (off : Z) (semi : bool)
      (l : dynLex) (text : string) :
  poised s f off semi l -> len s <= token.size f ->
  slice_from s off = Some text ->
  forall d, 0 <= d <= len text -> off + d <= token.size f.
Proof.
  intros _ Hsz Hs d Hd. apply slice_from_room in Hs. lia.
Qed.











(** *** Numbers *)










(** *** The end of the input, and the title line *)




(** *** All the pieces *)












(** *** What the tokens say about the text *)

































End ScannerPrograms.

(** ** What the parser records and returns *)

Section ParserFrame.
Context {UT : UnicodeTables} {NU : Numerics}.
Variable fuel : nat.

Lemma quiet_refl (p : dynParser) : quiet p p.
Proof. unfold quiet. tauto. Qed.

Lemma quiet_trans (p1 p2 p3 : dynParser) :
  quiet p1 p2 -> quiet p2 p3 -> quiet p1 p3.
Proof. unfold quiet. intuition congruence. Qed.

Lemma quiet_logged (p p' : dynParser) : quiet p p' -> logged [] p p'.
Proof.
  unfold quiet, logged. intros (H1 & H2 & H3).
  rewrite H1, H2, H3, app_nil_r. simpl. repeat split; lia.
Qed.

Lemma logged_trans (a b : list Diag) (p1 p2 p3 : dynParser) :
  logged a p1 p2 -> logged b p2 p3 -> logged (a ++ b) p1 p3.
Proof.
  unfold logged. intros (F1 & E1 & N1) (F2 & E2 & N2).
  rewrite F2, F1, E2, E1, N2, N1, length_app, app_assoc.
  repeat split; lia.
Qed.

Lemma logged_quiet (a : list Diag) (p1 p2 p3 : dynParser) :
  logged a p1 p2 -> quiet p2 p3 -> logged a p1 p3.
Proof.
  intros H1 H2. apply quiet_logged in H2.
  rewrite <- (app_nil_r a). eapply logged_trans; eassumption.
Qed.

Lemma quiet_then_logged (a : list Diag) (p1 p2 p3 : dynParser) :
  quiet p1 p2 -> logged a p2 p3 -> logged a p1 p3.
Proof.
  intros H1 H2. apply quiet_logged in H1.
  change a with ([] ++ a). eapply logged_trans; eassumption.
Qed.

Lemma on_lex_quiet {A : Type} (c : L A) (p p' : dynParser) (a : A) :
  on_lex c p = Ok (a, p') -> quiet p p'.
Proof.
  unfold on_lex. destruct (c (p_lex p)) as [[a0 l0]| | |]; try discriminate.
  intros H. inversion H; subst. unfold quiet. simpl. tauto.
Qed.

Lemma p_errorf_logged (tok : Token) (msg : string) (p p' : dynParser) (u : unit) :
  p_errorf tok msg p = Ok (u, p') ->
  logged [ {| d_pos := t_pos tok; d_msg := msg |} ] p p'.
Proof.
  unfold p_errorf, modify. intros H. inversion H; subst.
  unfold logged. simpl. repeat split; lia.
Qed.

Lemma Printf_quiet (line : string) (p p' : dynParser) (u : unit) :
  Printf line p = Ok (u, p') -> quiet p p'.
Proof.
  unfold Printf, modify. intros H. inversion H; subst.
  unfold quiet. simpl. tauto.
Qed.

Lemma typeIdent_same (typeTok : Token) (p p' : dynParser) (ty : Ident) :
  typeIdent typeTok p = Ok (ty, p') ->
  p' = p /\ In (Ident_Name ty) role_names.
Proof.
  unfold typeIdent, ret, throw. intros H.
  repeat match type of H with
         | (if ?b then _ else _) _ = _ => destruct b
         end;
    inversion H; subst; simpl; tauto.
Qed.

(** [varDecl] either reports one error and gives no declaration, or reports
    nothing and gives a declaration with one of the six roles. *)
Lemma varDecl_logged (typeTok : Token) (p p' : dynParser) (d : option VarDecl) :
  varDecl fuel typeTok p = Ok (d, p') ->
  exists more,
    logged more p p'
    /\ match d with
       | None => List.length more = 1%nat
       | Some decl =>
         more = []
         /\ exists ty, VarDecl_Type decl = Some ty
                       /\ In (Ident_Name ty) role_names
       end.
Proof.
  unfold varDecl. intros H.
  apply bind_Ok in H. destruct H as (nameTok & p1 & E1 & H).
  apply on_lex_quiet in E1.
  destruct (negb _).
  - apply bind_Ok in H. destruct H as (u & p2 & E2 & H).
    apply p_errorf_logged in E2. unfold ret in H. inversion H; subst.
    eexists. split; [eapply quiet_then_logged; eassumption|reflexivity].
  - apply bind_Ok in H. destruct H as (ty & p2 & E2 & H).
    apply typeIdent_same in E2. destruct E2 as (-> & Hin).
    unfold ret in H. inversion H; subst.
    exists []. split; [now apply quiet_logged|]. simpl. eauto.
Qed.

Lemma consumeEqual_logged (p p' : dynParser) (b : bool) :
  consumeEqual fuel p = Ok (b, p') ->
  exists more, logged more p p'
               /\ if b then more = [] else List.length more = 1%nat.
Proof.
  unfold consumeEqual. intros H.
  apply bind_Ok in H. destruct H as (tok & p1 & E1 & H).
  apply on_lex_quiet in E1.
  destruct (negb _).
  - apply bind_Ok in H. destruct H as (u & p2 & E2 & H).
    apply p_errorf_logged in E2. unfold ret in H. inversion H; subst.
    eexists. split; [eapply quiet_then_logged; eassumption|reflexivity].
  - unfold ret in H. inversion H; subst.
    exists []. split; [now apply quiet_logged|reflexivity].
Qed.

(** [expr] counts no error, whether it succeeds or not; what it gives with
    the flag [true] is a FLOAT literal, and nil with the flag [false]. *)
Lemma expr_quiet (p p' : dynParser) (e : option Expr) (ok : bool) :
  expr fuel p = Ok ((e, ok), p') ->
  quiet p p'
  /\ if ok then exists b, e = Some (BasicLitExpr b)
                          /\ BasicLit_Kind b = token.FLOAT
     else e = None.
Proof.
  unfold expr. intros H.
  apply bind_Ok in H. destruct H as (tok & p1 & E1 & H).
  apply on_lex_quiet in E1.
  destruct (t_kind tok);
    try (apply bind_Ok in H; destruct H as (u & p2 & E2 & H);
         apply Printf_quiet in E2; unfold ret in H; inversion H; subst;
         split; [eapply quiet_trans; eassumption|reflexivity]).
  unfold ret in H. inversion H; subst. split; [assumption|]. eauto.
Qed.

Lemma discardStmt_loop_quiet (n : nat) :
  forall (tok : Token) (p p' : dynParser) (u : unit),
    discardStmt_loop fuel n tok p = Ok (u, p') -> quiet p p'.
Proof.
  induction n as [|n IH]; intros tok p p' u H; simpl in H;
    destruct (_ && _).
  - discriminate.
  - unfold ret in H. inversion H; subst. apply quiet_refl.
  - apply bind_Ok in H. destruct H as (u1 & p1 & E1 & H).
    apply Printf_quiet in E1.
    apply bind_Ok in H. destruct H as (tok' & p2 & E2 & H).
    apply on_lex_quiet in E2. apply IH in H.
    eapply quiet_trans; [eassumption|]. eapply quiet_trans; eassumption.
  - unfold ret in H. inversion H; subst. apply quiet_refl.
Qed.

Lemma discardStmt_quiet (p p' : dynParser) (u : unit) :
  discardStmt fuel p = Ok (u, p') -> quiet p p'.
Proof.
  unfold discardStmt. intros H.
  apply bind_Ok in H. destruct H as (tok & p1 & E1 & H).
  apply on_lex_quiet in E1. apply discardStmt_loop_quiet in H.
  eapply quiet_trans; eassumption.
Qed.

(** What [tableDef] can return: nil with the flag [true], after it has
    reported the token that is not a number; or, with the flag [false], a
    table that holds what it was given and at least one more FLOAT literal. *)
Lemma tableDef_loop_result (n : nat) :
  forall (ys : list BasicLit) (p p' : dynParser) (e : option Expr) (ok : bool),
    tableDef_loop fuel n ys p = Ok ((e, ok), p') ->
    exists more,
      logged more p p'
      /\ ((ok = true /\ e = None /\ more <> [])
          \/ (ok = false
              /\ exists new,
                  e = Some (TableFwdExpr (ys ++ new)) /\ new <> []
                  /\ Forall (fun b => BasicLit_Kind b = token.FLOAT) new)).
Proof.
  induction n as [|n IH]; intros ys p p' e ok H; cbn [tableDef_loop] in H;
    [discriminate|].
  apply bind_Ok in H. destruct H as (tok & p1 & E1 & H).
  apply on_lex_quiet in E1.
  destruct (negb _).
  - apply bind_Ok in H. destruct H as (u & p2 & E2 & H).
    apply p_errorf_logged in E2. unfold ret in H. inversion H; subst.
    eexists. split; [eapply quiet_then_logged; eassumption|].
    left. repeat split. discriminate.
  - cbv zeta in H.
    apply bind_Ok in H. destruct H as (tok' & p2 & E2 & H).
    apply on_lex_quiet in E2.
    assert (Q12 : quiet p p2) by (eapply quiet_trans; eassumption).
    assert (Hstep : forall more p3,
               logged more p2 p3 ->
               tableDef_loop fuel n (ys ++ [floatLitS tok]) p3 = Ok ((e, ok), p') ->
               exists more0,
                 logged more0 p p'
                 /\ ((ok = true /\ e = None /\ more0 <> [])
                     \/ (ok = false
                         /\ exists new,
                             e = Some (TableFwdExpr (ys ++ new)) /\ new <> []
                             /\ Forall (fun b => BasicLit_Kind b = token.FLOAT)
                                       new))).
    { intros more p3 L3 Hrec. apply IH in Hrec.
      destruct Hrec as (more1 & L1 & Hcase).
      exists (more ++ more1). split.
      - eapply quiet_then_logged; [exact Q12|].
        eapply logged_trans; eassumption.
      - destruct Hcase as [(-> & -> & Hne)|(-> & new & -> & _ & Hall)].
        + left. repeat split. intros Habs. apply app_eq_nil in Habs. tauto.
        + right. split; [reflexivity|].
          exists (floatLitS tok :: new). rewrite <- app_assoc. simpl.
          repeat split; [discriminate|]. constructor; [reflexivity|assumption]. }
    destruct (String.eqb _ "/").
    + eapply (Hstep []); [apply quiet_logged, quiet_refl|exact H].
    + destruct (_ || _).
      * unfold ret in H. inversion H; subst.
        exists []. split; [now apply quiet_logged|]. right.
        split; [reflexivity|]. exists [floatLitS tok].
        repeat split; [discriminate|]. constructor; [reflexivity|constructor].
      * apply bind_Ok in H. destruct H as (u & p3 & E3 & H).
        apply p_errorf_logged in E3. eapply Hstep; eassumption.
Qed.

(** X10: whatever state the parser is in, [tableDef] returns either nil with
    the flag [true], and then it has counted an error, or a table with the
    flag [false], and then the table holds at least one value and only FLOAT
    literals.  It never returns a table with the flag [true], and never an
    empty table. *)
Theorem tableDef_result (p p' : dynParser) (e : option Expr) (ok : bool) :
  tableDef fuel p = Ok ((e, ok), p') ->
  (ok = true /\ e = None /\ p_nerr p < p_nerr p')
  \/ (ok = false
      /\ exists ys, e = Some (TableFwdExpr ys) /\ ys <> []
                    /\ Forall (fun b => BasicLit_Kind b = token.FLOAT) ys).
Proof.
  unfold tableDef. intros H. apply tableDef_loop_result in H.
  destruct H as (more & (_ & _ & Hn) & [(-> & -> & Hne)|(-> & new & -> & Hne & Hall)]).
  - left. repeat split. destruct more; [congruence|]. simpl List.length in Hn. lia.
  - right. split; [reflexivity|]. exists new. simpl. tauto.
Qed.

Lemma decl_and_equal_logged (typeTok : Token) (p p' : dynParser)
      (d : option VarDecl) :
  decl_and_equal fuel typeTok p = Ok (d, p') ->
  exists more,
    logged more p p'
    /\ match d with
       | None => True
       | Some decl => exists ty, VarDecl_Type decl = Some ty
                                /\ In (Ident_Name ty) role_names
       end.
Proof.
  unfold decl_and_equal. intros H.
  apply bind_Ok in H. destruct H as (d0 & p1 & E1 & H).
  apply varDecl_logged in E1. destruct E1 as (more1 & L1 & Hd).
  destruct d0 as [decl|].
  - destruct Hd as (-> & Hty).
    apply bind_Ok in H. destruct H as (b & p2 & E2 & H).
    apply consumeEqual_logged in E2. destruct E2 as (more2 & L2 & _).
    exists ([] ++ more2).
    destruct b; unfold ret in H; inversion H; subst;
      (split; [eapply logged_trans; eassumption|]); [assumption|exact I].
  - unfold ret in H. inversion H; subst. exists more1. tauto.
Qed.

Lemma scalar_tag (v role : string) :
  String.eqb v "L" || String.eqb v "N" || String.eqb v "C"
  || String.eqb v "R" || String.eqb v "A" = true ->
  role_of_tag v = Some role -> In role scalar_roles.
Proof.
  unfold role_of_tag, scalar_roles. intros Hv Hr.
  destruct (String.eqb v "L"); [inversion Hr; simpl; tauto|].
  destruct (String.eqb v "N"); [inversion Hr; simpl; tauto|].
  destruct (String.eqb v "C"); [inversion Hr; simpl; tauto|].
  destruct (String.eqb v "R"); [inversion Hr; simpl; tauto|].
  destruct (String.eqb v "A"); [inversion Hr; simpl; tauto|].
  discriminate Hv.
Qed.

(** [stmtInto] leaves the model as it is or appends one statement to it; a
    statement appended without any error being counted has a value and is
    not a table. *)
Lemma stmtInto_logged (m m' : ModelDecl) (p p' : dynParser) :
  stmtInto fuel m p = Ok (m', p') ->
  exists more,
    logged more p p'
    /\ (m' = m
        \/ exists st, m' = body_append st m /\ parsed_stmt st
                      /\ (more = [] -> valued_stmt st)).
Proof.
  unfold stmtInto. intros H.
  apply bind_Ok in H. destruct H as (tok & p1 & E1 & H).
  apply on_lex_quiet in E1. cbv zeta in H. cbn [t_val] in H.
  assert (Hdiscard : forall more p2 p3 (u : unit),
             logged more p1 p2 -> discardStmt fuel p2 = Ok (u, p3) ->
             logged more p p3).
  { intros more p2 p3 u L2 Hd. apply discardStmt_quiet in Hd.
    eapply quiet_then_logged; [eassumption|].
    eapply logged_quiet; eassumption. }
  destruct (_ || _) eqn:Htag.
  - apply bind_Ok in H. destruct H as (d & p2 & E2 & H).
    pose proof E2 as Erole.
    apply decl_and_equal_logged in E2. destruct E2 as (more & L2 & Hd).
    destruct d as [decl|].
    + apply decl_and_equal_role in Erole.
      destruct Erole as (role & Hrole & Hty). cbn [t_val] in Hrole.
      apply (scalar_tag _ _ Htag) in Hrole.
      apply bind_Ok in H. destruct H as ([rhs ok] & p3 & E3 & H).
      apply expr_quiet in E3. destruct E3 as (Q3 & Hrhs).
      destruct ok; simpl in H.
      * unfold ret in H. inversion H; subst. exists more. split.
        -- eapply quiet_then_logged; [eassumption|].
           eapply logged_quiet; eassumption.
        -- right. eexists. split; [reflexivity|]. split.
           ++ exists decl, rhs. repeat split; [assumption|now right].
           ++ intros _. destruct Hrhs as (b & -> & Hb).
              exists decl, b. eexists.
              repeat split; [exact Hb|exact Hty|exact Hrole].
      * apply bind_Ok in H. destruct H as (u & p4 & E4 & H).
        unfold ret in H. inversion H; subst. exists more. split; [|now left].
        eapply Hdiscard; [|eassumption]. eapply logged_quiet; eassumption.
    + apply bind_Ok in H. destruct H as (u & p4 & E4 & H).
      unfold ret in H. inversion H; subst. exists more. split; [|now left].
      eapply Hdiscard; eassumption.
  - destruct (String.eqb _ "T").
    + apply bind_Ok in H. destruct H as (d & p2 & E2 & H).
      apply decl_and_equal_logged in E2. destruct E2 as (more & L2 & Hd).
      destruct d as [decl|].
      * apply bind_Ok in H. destruct H as ([rhs ok] & p3 & E3 & H).
        apply tableDef_loop_result in E3.
        destruct E3 as (more3 & L3 & Hcase).
        destruct ok; simpl in H.
        -- unfold ret in H. inversion H; subst.
           destruct Hcase as [(_ & -> & Hne)|(Habs & _)]; [|discriminate].
           exists (more ++ more3). split.
           ++ eapply quiet_then_logged; [eassumption|].
              eapply logged_trans; eassumption.
           ++ right. eexists. split; [reflexivity|]. split.
              ** exists decl, None. repeat split; [assumption|now left].
              ** intros Hnil. apply app_eq_nil in Hnil. tauto.
        -- apply bind_Ok in H. destruct H as (u & p4 & E4 & H).
           unfold ret in H. inversion H; subst.
           exists (more ++ more3). split; [|now left].
           eapply Hdiscard; [|eassumption]. eapply logged_trans; eassumption.
      * apply bind_Ok in H. destruct H as (u & p4 & E4 & H).
        unfold ret in H. inversion H; subst. exists more. split; [|now left].
        eapply Hdiscard; eassumption.
    + apply bind_Ok in H. destruct H as (u & p2 & E2 & H).
      apply p_errorf_logged in E2. unfold ret in H. inversion H; subst.
      eexists. split; [eapply quiet_then_logged; eassumption|now left].
Qed.

Lemma declModel_loop_logged (n : nat) :
  forall (m m' : ModelDecl) (p p' : dynParser),
    declModel_loop fuel n m p = Ok (m', p') ->
    exists new more,
      body_of m' = body_of m ++ new
      /\ ModelDecl_Name m' = ModelDecl_Name m
      /\ Forall parsed_stmt new
      /\ logged more p p'
      /\ (more = [] -> Forall valued_stmt new).
Proof.
  induction n as [|n IH]; intros m m' p p' H; cbn [declModel_loop] in H;
    [discriminate|].
  apply bind_Ok in H. destruct H as (tok & p1 & E1 & H).
  apply on_lex_quiet in E1. cbv zeta in H.
  assert (Hbad :
            (p_errorf tok ("expected 1 char ident, not '" ++ t_val tok ++ "'") ;;;
             p_Token fuel ;;; declModel_loop fuel n m) p1 = Ok (m', p') ->
            exists new more,
              body_of m' = body_of m ++ new
              /\ ModelDecl_Name m' = ModelDecl_Name m
              /\ Forall parsed_stmt new
              /\ logged more p p'
              /\ (more = [] -> Forall valued_stmt new)).
  { intros Hb.
    apply bind_Ok in Hb. destruct Hb as (u & p2 & E2 & Hb).
    apply p_errorf_logged in E2.
    apply bind_Ok in Hb. destruct Hb as (t2 & p3 & E3 & Hb).
    apply on_lex_quiet in E3. apply IH in Hb.
    destruct Hb as (new & more & Hb1 & Hb2 & Hb3 & Hb4 & _).
    exists new. eexists.
    refine (conj Hb1 (conj Hb2 (conj Hb3 (conj _ _)))).
    - eapply quiet_then_logged; [exact E1|].
      eapply logged_trans; [eapply logged_quiet; eassumption|exact Hb4].
    - discriminate. }
  destruct (t_kind tok); try (apply Hbad; exact H).
  - unfold ret in H. inversion H; subst.
    exists [], []. rewrite app_nil_r.
    refine (conj eq_refl (conj eq_refl (conj _ (conj _ _))));
      [constructor|now apply quiet_logged|constructor].
  - destruct (len (t_val tok) =? 1); [|apply Hbad; exact H].
    apply bind_Ok in H. destruct H as (m1 & p2 & E2 & H).
    apply stmtInto_logged in E2. destruct E2 as (more1 & L1 & Hm1).
    apply IH in H. destruct H as (new & more & H1 & H2 & H3 & H4 & H5).
    destruct Hm1 as [->|(st & -> & Hst & Hval)].
    + exists new. eexists.
      refine (conj H1 (conj H2 (conj H3 (conj _ _)))).
      * eapply quiet_then_logged; [exact E1|]. eapply logged_trans; eassumption.
      * intros Hnil. apply app_eq_nil in Hnil. tauto.
    + exists (st :: new). eexists.
      refine (conj _ (conj _ (conj _ (conj _ _)))).
      * rewrite H1. unfold body_of, body_append. simpl.
        rewrite <- app_assoc. reflexivity.
      * rewrite H2. reflexivity.
      * constructor; assumption.
      * eapply quiet_then_logged; [exact E1|]. eapply logged_trans; eassumption.
      * intros Hnil. apply app_eq_nil in Hnil. constructor; tauto.
  - apply bind_Ok in H. destruct H as (t2 & p2 & E2 & H).
    apply on_lex_quiet in E2. apply IH in H.
    destruct H as (new & more & H1 & H2 & H3 & H4 & H5).
    exists new, more.
    refine (conj H1 (conj H2 (conj H3 (conj _ H5)))).
    eapply quiet_then_logged; [exact E1|].
    eapply quiet_then_logged; eassumption.
Qed.

(** X11: the model loop only ever appends.  Whatever the tokens are, the body
    it returns is the body it was given followed by statements that
    [stmtInto] has parsed: assignments with one of the six roles, whose value
    is a FLOAT literal or nil, never a table; and the name of the model is
    untouched. *)
Theorem declModel_loop_appends (n : nat) (m m' : ModelDecl) (p p' : dynParser) :
  declModel_loop fuel n m p = Ok (m', p') ->
  ModelDecl_Name m' = ModelDecl_Name m
  /\ exists new, body_of m' = body_of m ++ new /\ Forall parsed_stmt new.
Proof.
  intros H. apply declModel_loop_logged in H.
  destruct H as (new & more & H1 & H2 & H3 & _ & _). eauto.
Qed.

Lemma logged_counted (more : list Diag) (p p' : dynParser) :
  logged more p p' -> counted p -> counted p'.
Proof.
  unfold logged, counted. intros (_ & E & N) C.
  rewrite N, E, C, length_app. lia.
Qed.

(** One run of [Parse], taken apart: the model that the loop has built,
    what the pass has made of it, and how the result is chosen. *)
Lemma Parse_run (f : token.File) (s : string)
      (r : option File) (err : option ParseError) (p : dynParser) :
  Parse fuel f s = Ok ((r, err), p) ->
  exists m1,
    Forall parsed_stmt (body_of m1)
    /\ ModelDecl_Name m1 = id "main"
    /\ counted p
    /\ p_f p = {| File_Name := Some (id "main");
                  File_Decls := [fst (extractTimespec m1)] |}
    /\ (p_nerr p = 0 ->
        snd (extractTimespec m1) = None /\ Forall valued_stmt (body_of m1))
    /\ (r, err) = if negb (p_nerr p =? 0)
                  then (None, Some {| pe_nerr := p_nerr p;
                                      pe_errBuf := p_errBuf p |})
                  else (Some (p_f p), None).
Proof.
  unfold Parse. intros H.
  destruct (dynParser_Parse fuel (newParser (newLex s f)))
    as [[[file nerr] p0]| | |] eqn:HP; try discriminate.
  unfold dynParser_Parse in HP.
  apply bind_Ok in HP. destruct HP as (u0 & p1 & E0 & HP).
  unfold modify in E0. inversion E0; subst u0 p1. clear E0.
  apply bind_Ok in HP. destruct HP as (u1 & p2 & E1 & HP).
  unfold declModel in E1.
  apply bind_Ok in E1. destruct E1 as (m1 & p3 & E2 & E3).
  apply declModel_loop_logged in E2.
  destruct E2 as (new & more & Hbody & Hname & Hnew & L3 & Hval).
  simpl in Hname, Hbody.
  assert (C3 : counted p3).
  { eapply logged_counted; [exact L3|]. unfold counted. reflexivity. }
  assert (N3 : p_nerr p3 = 0 -> more = []).
  { destruct L3 as (_ & _ & N). simpl in N. intros Hz.
    destruct more; [reflexivity|]. simpl List.length in N. lia. }
  assert (P3 : 0 <= p_nerr p3) by (unfold counted in C3; lia).
  destruct L3 as (F3 & _). simpl in F3.
  unfold gets, ret, bind in HP. inversion HP; subst file nerr p0. clear HP.
  exists m1. rewrite Hbody.
  assert (Hp2 : counted p2
                /\ p_f p2 = {| File_Name := Some (id "main");
                               File_Decls := [fst (extractTimespec m1)] |}
                /\ (p_nerr p2 = 0 ->
                    snd (extractTimespec m1) = None /\ p_nerr p3 = 0)).
  { unfold declModel_finish in E3. simpl String.eqb in E3. cbv iota in E3.
    destruct (extractTimespec m1) as [m2 [e|]];
      unfold bind, p_errorf, modify, ret in E3; inversion E3; subst p2;
      unfold counted in *; simpl; rewrite F3; simpl.
    - rewrite C3, length_app. simpl. repeat split; lia.
    - repeat split; assumption. }
  destruct Hp2 as (C2 & F2 & Hpass).
  assert (Hzero : p_nerr p2 = 0 ->
                  snd (extractTimespec m1) = None /\ Forall valued_stmt new).
  { intros Hz. destruct (Hpass Hz) as (Hx & Hz3). auto. }
  destruct (negb (p_nerr p2 =? 0)) eqn:Hz; inversion H; subst; clear H;
    rewrite Hz; tauto.
Qed.

(** X12: [Parse] counts what it records.  When it returns, the error count is
    the number of diagnostics; it returns an error exactly when a diagnostic
    was recorded, and then no program; and otherwise the program it returns
    is named [main] and holds exactly one model, named [main]. *)
Theorem Parse_counts (f : token.File) (s : string)
        (r : option File) (err : option ParseError) (p : dynParser) :
  Parse fuel f s = Ok ((r, err), p) ->
  counted p
  /\ match err with
     | Some e =>
       r = None /\ pe_errBuf e = p_errBuf p /\ p_errBuf p <> []
       /\ pe_nerr e = Z.of_nat (List.length (pe_errBuf e))
     | None =>
       p_errBuf p = []
       /\ exists m, r = Some {| File_Name := Some (id "main");
                                File_Decls := [m] |}
                    /\ ModelDecl_Name m = id "main"
     end.
Proof.
  intros H. apply Parse_run in H.
  destruct H as (m1 & _ & Hname & C & F & _ & Hres).
  split; [exact C|]. unfold counted in C.
  destruct (negb (p_nerr p =? 0)) eqn:Hz; inversion Hres; subst; clear Hres.
  - apply negb_true_iff, Z.eqb_neq in Hz. simpl.
    repeat split; [|exact C].
    intros Habs. rewrite Habs in C. simpl in C. lia.
  - apply negb_false_iff, Z.eqb_eq in Hz. split.
    + rewrite Hz in C. destruct (p_errBuf p); [reflexivity|simpl in C; lia].
    + exists (fst (extractTimespec m1)). split; [now rewrite F|].
      unfold extractTimespec. destruct (eval_loop _ _); exact Hname.
Qed.

(** X13: what a successful parse returns.  When [Parse] returns a program, its
    one model is made of assignments of a FLOAT literal to a variable with
    the role stock, initial, const, flow or aux, none of them to TIME,
    LENGTH, SAVPER or DT, followed by the timespec assignment as the last
    statement.  No program that [Parse] accepts holds a table. *)
Theorem Parse_success_body (f : token.File) (s : string) (file : File)
        (p : dynParser) :
  Parse fuel f s = Ok ((Some file, None), p) ->
  exists stmts spec,
    file = {| File_Name := Some (id "main");
              File_Decls :=
                [ {| ModelDecl_Name := id "main";
                     ModelDecl_Body :=
                       {| BlockStmt_List := stmts ++ [timespec_stmt spec] |} |} ] |}
    /\ Forall valued_stmt stmts
    /\ Forall (fun st => ordinary st = true) stmts.
Proof.
  intros H. apply Parse_run in H.
  destruct H as (m1 & _ & Hname & _ & F & Hzero & Hres).
  destruct (negb (p_nerr p =? 0)) eqn:Hz; inversion Hres as [Hfile].
  apply negb_false_iff, Z.eqb_eq in Hz.
  destruct (Hzero Hz) as (Hx & Hall).
  destruct (extractTimespec m1) as [m2 e] eqn:HX. simpl in Hx. subst e.
  apply extractTimespec_ok in HX. destruct HX as (spec & _ & ->).
  exists (filter ordinary (body_of m1)), spec. rewrite F. simpl.
  unfold set_body. rewrite Hname. split; [reflexivity|]. split.
  - apply Forall_forall. intros st Hin. apply filter_In in Hin.
    rewrite Forall_forall in Hall. apply Hall. tauto.
  - apply Forall_forall. intros st Hin. apply filter_In in Hin. tauto.
Qed.

(** X14: a statement whose right-hand side is not a number is dropped without
    a word.  When [stmtInto] reads a tag that upper-cases to L, N, C, R or A,
    then an identifier, then [=], and then a token that is not a number, all
    it does is print the line [expr] and discard the rest of the statement:
    [varDecl], [consumeEqual] and [tableDef] report what they refuse with
    [p.errorf], [expr] does not.  So whenever [stmtInto] returns, the model
    is the one it was given, and the diagnostics, the error count and the
    program are as they were before the statement. *)
Theorem stmtInto_bad_value_uncounted (m : ModelDecl) (p p1 p2 p3 p4 : dynParser)
        (tag name eq val : Token) :
  p_Token fuel p = Ok (tag, p1) ->
  In (strings.ToUpper (t_val tag)) ["L"; "N"; "C"; "R"; "A"] ->
  p_Token fuel p1 = Ok (name, p2) -> t_kind name = itemIdentifier ->
  p_Token fuel p2 = Ok (eq, p3) -> t_val eq = "=" ->
  p_Token fuel p3 = Ok (val, p4) ->
  itemType_eqb (t_kind val) itemNumber = false ->
  stmtInto fuel m p
  = (Printf ("expr" ++ nl) ;;; discardStmt fuel ;;; ret m) p4
  /\ forall (m' : ModelDecl) (p' : dynParser),
      stmtInto fuel m p = Ok (m', p') ->
      m' = m /\ p_f p' = p_f p /\ p_errBuf p' = p_errBuf p
      /\ p_nerr p' = p_nerr p.
Proof.
  intros H1 Htag H2 Hname H3 Heq H4 Hval.
  assert (E : stmtInto fuel m p
              = (Printf ("expr" ++ nl) ;;; discardStmt fuel ;;; ret m) p4).
  { unfold stmtInto. unfold bind at 1. rewrite H1. cbv zeta. cbn [t_val].
    assert (Hif : String.eqb (strings.ToUpper (t_val tag)) "L"
                  || String.eqb (strings.ToUpper (t_val tag)) "N"
                  || String.eqb (strings.ToUpper (t_val tag)) "C"
                  || String.eqb (strings.ToUpper (t_val tag)) "R"
                  || String.eqb (strings.ToUpper (t_val tag)) "A" = true).
    { simpl in Htag.
      destruct Htag as [<-|[<-|[<-|[<-|[<-|[]]]]]]; reflexivity. }
    rewrite Hif.
    unfold bind at 1. unfold decl_and_equal. unfold bind at 1.
    unfold varDecl. unfold bind at 1. rewrite H2. rewrite Hname.
    cbn [negb itemType_eqb].
    assert (Hty : exists ty,
               typeIdent (S := dynParser)
                 (mkToken (t_pos tag) (strings.ToUpper (t_val tag)) (t_kind tag)) p2
               = Ok (ty, p2)).
    { unfold typeIdent. cbn [t_val t_pos]. simpl in Htag.
      destruct Htag as [<-|[<-|[<-|[<-|[<-|[]]]]]]; eexists; reflexivity. }
    destruct Hty as (ty & Hty). unfold bind at 1. rewrite Hty.
    unfold ret at 1. unfold bind at 1. unfold consumeEqual.
    unfold bind at 1. rewrite H3. rewrite Heq.
    change (negb ("=" =? "=")%string) with false. cbv iota.
    unfold ret at 1. unfold ret at 1.
    unfold bind at 1. unfold expr. unfold bind at 1. rewrite H4.
    destruct (t_kind val); try discriminate Hval; reflexivity. }
  split; [exact E|].
  intros m' p' H. rewrite E in H.
  apply on_lex_quiet in H1. apply on_lex_quiet in H2.
  apply on_lex_quiet in H3. apply on_lex_quiet in H4.
  apply bind_Ok in H. destruct H as (u1 & q1 & E1 & H).
  apply Printf_quiet in E1.
  apply bind_Ok in H. destruct H as (u2 & q2 & E2 & H).
  apply discardStmt_quiet in E2.
  unfold ret in H. inversion H; subst m' q2.
  assert (Q : quiet p p').
  { apply (quiet_trans p p1 p' H1). apply (quiet_trans p1 p2 p' H2).
    apply (quiet_trans p2 p3 p' H3). apply (quiet_trans p3 p4 p' H4).
    apply (quiet_trans p4 q1 p' E1). exact E2. }
  destruct Q as (Qf & Qb & Qn). repeat split; assumption.
Qed.

(** *** The panic of [typeIdent] *)

Lemma no_type_panic_Panic {A B : Type} (e : fault) :
  no_type_panic (@Panic A e) -> no_type_panic (@Panic B e).
Proof.
  unfold no_type_panic. intros H v Heq. inversion Heq; subst.
  exact (H v eq_refl).
Qed.

Lemma bind_no_type_panic {S A B : Type} (c : M S A) (k : A -> M S B) (st : S) :
  no_type_panic (c st) ->
  (forall a st1, no_type_panic (k a st1)) ->
  no_type_panic (bind c k st).
Proof.
  unfold no_type_panic, bind. intros Hc Hk v.
  destruct (c st) as [[a st1]| | |] eqn:E; try discriminate.
  - apply Hk.
  - intros Heq. inversion Heq; subst. exact (Hc v eq_refl).
Qed.

Lemma next_no_type_panic (l : dynLex) : no_type_panic (next l).
Proof.
  unfold next. intros v.
  destruct (_ <=? _); [discriminate|].
  destruct (slice_from _ _); [|discriminate].
  destruct (utf8.DecodeRuneInString _). discriminate.
Qed.

Lemma emit_no_type_panic (ty : itemType) (l : dynLex) : no_type_panic (emit ty l).
Proof.
  unfold emit. intros v.
  destruct (token.FilePos _ _); [|discriminate].
  destruct (slice _ _ _); [|discriminate].
  destruct (_ <=? _)%nat; discriminate.
Qed.

Lemma nextWhile_no_type_panic (q : rune -> bool) (n : nat) :
  forall l, no_type_panic (nextWhile q n l).
Proof.
  induction n as [|n IH]; intros l; cbn [nextWhile];
    pose proof (next_no_type_panic l) as Hn; revert Hn;
    (destruct (next l) as [[r0 l1]| | |]; intros Hn;
     [|exact (no_type_panic_Panic _ Hn)|intros ?; discriminate..]);
    destruct (q r0); try (intros ?; discriminate);
    destruct (at_end l); try (intros ?; discriminate).
  apply IH.
Qed.

Ltac type_safe :=
  cbv beta zeta;
  lazymatch goal with
  | |- no_type_panic (bind _ _ _) =>
    apply bind_no_type_panic; [type_safe|intros; type_safe]
  | |- no_type_panic ((if ?b then _ else _) _) => destruct b; type_safe
  | |- no_type_panic (match slice ?s ?a ?b with _ => _ end) =>
    destruct (slice s a b); type_safe
  | |- no_type_panic (next _) => apply next_no_type_panic
  | |- no_type_panic (emit _ _) => apply emit_no_type_panic
  | |- no_type_panic (nextWhile _ _ _) => apply nextWhile_no_type_panic
  | |- no_type_panic (peek _) => unfold peek; type_safe
  | |- no_type_panic (accept _ _) => unfold accept; type_safe
  | |- no_type_panic (acceptRun _ _) => unfold acceptRun; type_safe
  | |- no_type_panic (errorf _ _) => unfold errorf; type_safe
  | |- _ => intros ?; discriminate
  end.

Lemma multiComment_loop_no_type_panic (n : nat) :
  forall l, no_type_panic (multiComment_loop n l).
Proof.
  induction n as [|n IH]; intros l; cbn [multiComment_loop];
    pose proof (next_no_type_panic l) as Hn; revert Hn;
    (destruct (next l) as [[r0 l1]| | |]; intros Hn;
     [|exact (no_type_panic_Panic _ Hn)|intros ?; discriminate..]);
    (destruct (r0 =? eof); [intros ?; discriminate|]);
    destruct (negb _); try (intros ?; discriminate); try apply IH;
    (destruct (at_end l1); [intros ?; discriminate|]);
    (apply bind_no_type_panic; [type_safe|]); intros c l2;
    (destruct (c =? 47); [type_safe|]);
    try (intros ?; discriminate); apply IH.
Qed.

Lemma call_no_type_panic (st : stateFn) (l : dynLex) : no_type_panic (call st l).
Proof.
  destruct st; cbn [call];
    unfold begin, statement, operator, comment, multiComment, lexType, number,
    literal, identifier;
    try type_safe.
  apply bind_no_type_panic;
    [apply multiComment_loop_no_type_panic|intros; type_safe].
Qed.

Lemma lex_Token_no_type_panic (n : nat) :
  forall l, no_type_panic (lex_Token n l).
Proof.
  induction n as [|n IH]; intros l; cbn [lex_Token];
    destruct (l_items l); try (intros ?; discriminate).
  apply bind_no_type_panic; [|intros; apply IH].
  unfold advance. apply bind_no_type_panic;
    [apply call_no_type_panic|intros; intros ?; discriminate].
Qed.

Lemma on_lex_no_type_panic {A : Type} (c : L A) (p : dynParser) :
  no_type_panic (c (p_lex p)) -> no_type_panic (on_lex c p).
Proof.
  unfold on_lex. intros H.
  destruct (c (p_lex p)) as [[a l]| | |]; try (intros ?; discriminate).
  exact (no_type_panic_Panic _ H).
Qed.

Lemma p_Token_no_type_panic (p : dynParser) : no_type_panic (p_Token fuel p).
Proof.
  apply on_lex_no_type_panic. unfold Consume.
  destruct (l_peeked _); [intros ?; discriminate|].
  apply lex_Token_no_type_panic.
Qed.

Lemma p_Peek_no_type_panic (p : dynParser) : no_type_panic (p_Peek fuel p).
Proof.
  apply on_lex_no_type_panic. unfold Peek.
  destruct (l_peeked _); [intros ?; discriminate|].
  apply bind_no_type_panic; [apply lex_Token_no_type_panic|].
  intros. type_safe.
Qed.

Lemma typeIdent_no_type_panic (typeTok : Token) (p : dynParser) :
  role_of_tag (t_val typeTok) <> None ->
  no_type_panic (typeIdent typeTok p).
Proof.
  unfold role_of_tag, typeIdent. intros H v.
  repeat match goal with
         | |- (if ?b then _ else _) _ <> _ => destruct b; [discriminate|]
         end.
  congruence.
Qed.

Lemma decl_and_equal_no_type_panic (typeTok : Token) (p : dynParser) :
  role_of_tag (t_val typeTok) <> None ->
  no_type_panic (decl_and_equal fuel typeTok p).
Proof.
  intros Hrole. unfold decl_and_equal, varDecl, consumeEqual.
  apply bind_no_type_panic.
  - apply bind_no_type_panic; [apply p_Token_no_type_panic|].
    intros nameTok p1. destruct (negb _); [type_safe|].
    apply bind_no_type_panic;
      [apply typeIdent_no_type_panic; exact Hrole|intros; type_safe].
  - intros [decl|] p1; [|type_safe].
    apply bind_no_type_panic.
    + apply bind_no_type_panic; [apply p_Token_no_type_panic|].
      intros; type_safe.
    + intros; type_safe.
Qed.

Lemma discardStmt_loop_no_type_panic (n : nat) :
  forall tok p, no_type_panic (discardStmt_loop fuel n tok p).
Proof.
  induction n as [|n IH]; intros tok p; simpl; destruct (_ && _);
    try (intros ?; discriminate).
  apply bind_no_type_panic; [intros ?; discriminate|]. intros _ p1.
  apply bind_no_type_panic; [apply p_Token_no_type_panic|].
  intros; apply IH.
Qed.

Lemma discardStmt_no_type_panic (p : dynParser) :
  no_type_panic (discardStmt fuel p).
Proof.
  unfold discardStmt.
  apply bind_no_type_panic; [apply p_Token_no_type_panic|].
  intros; apply discardStmt_loop_no_type_panic.
Qed.

Lemma tableDef_loop_no_type_panic (n : nat) :
  forall ys p, no_type_panic (tableDef_loop fuel n ys p).
Proof.
  induction n as [|n IH]; intros ys p; cbn [tableDef_loop];
    [intros ?; discriminate|].
  apply bind_no_type_panic; [apply p_Token_no_type_panic|].
  intros tok p1. destruct (negb _); [type_safe|]. cbv zeta.
  apply bind_no_type_panic; [apply p_Token_no_type_panic|].
  intros tok' p2. destruct (String.eqb _ _); [apply IH|].
  destruct (_ || _); [intros ?; discriminate|].
  apply bind_no_type_panic; [intros ?; discriminate|]. intros; apply IH.
Qed.

Lemma stmtInto_no_type_panic (m : ModelDecl) (p : dynParser) :
  no_type_panic (stmtInto fuel m p).
Proof.
  unfold stmtInto.
  apply bind_no_type_panic; [apply p_Token_no_type_panic|].
  intros tok p1. cbv zeta. cbn [t_val].
  assert (Hd : forall p2, no_type_panic ((discardStmt fuel ;;; ret m) p2)).
  { intros p2. apply bind_no_type_panic;
      [apply discardStmt_no_type_panic|intros; intros ?; discriminate]. }
  destruct (_ || _) eqn:Htag.
  - apply bind_no_type_panic.
    + apply decl_and_equal_no_type_panic. cbn [t_val].
      unfold role_of_tag.
      destruct (String.eqb _ "L"); [discriminate|].
      destruct (String.eqb _ "N"); [discriminate|].
      destruct (String.eqb _ "C"); [discriminate|].
      destruct (String.eqb _ "R"); [discriminate|].
      destruct (String.eqb _ "A"); [discriminate|].
      discriminate Htag.
    + intros [decl|] p2; [|apply Hd].
      apply bind_no_type_panic.
      * unfold expr. apply bind_no_type_panic; [apply p_Token_no_type_panic|].
        intros tok2 p3. destruct (t_kind tok2); type_safe.
      * intros [rhs ok] p3. destruct (negb ok); [apply Hd|intros ?; discriminate].
  - destruct (String.eqb _ "T") eqn:HT.
    + apply bind_no_type_panic.
      * apply decl_and_equal_no_type_panic. cbn [t_val].
        unfold role_of_tag.
        destruct (String.eqb _ "L"); [discriminate|].
        destruct (String.eqb _ "N"); [discriminate|].
        destruct (String.eqb _ "C"); [discriminate|].
        destruct (String.eqb _ "R"); [discriminate|].
        destruct (String.eqb _ "A"); [discriminate|].
        rewrite HT. discriminate.
      * intros [decl|] p2; [|apply Hd].
        apply bind_no_type_panic; [apply tableDef_loop_no_type_panic|].
        intros [rhs ok] p3. destruct (negb ok); [apply Hd|intros ?; discriminate].
    + type_safe.
Qed.

Lemma declModel_loop_no_type_panic (n : nat) :
  forall m p, no_type_panic (declModel_loop fuel n m p).
Proof.
  induction n as [|n IH]; intros m p; cbn [declModel_loop];
    [intros ?; discriminate|].
  apply bind_no_type_panic; [apply p_Peek_no_type_panic|].
  intros tok p1. cbv zeta.
  assert (Hbad : no_type_panic
            ((p_errorf tok ("expected 1 char ident, not '" ++ t_val tok ++ "'") ;;;
              p_Token fuel ;;; declModel_loop fuel n m) p1)).
  { apply bind_no_type_panic; [intros ?; discriminate|]. intros _ p2.
    apply bind_no_type_panic; [apply p_Token_no_type_panic|].
    intros; apply IH. }
  destruct (t_kind tok); try exact Hbad.
  - intros ?; discriminate.
  - destruct (len (t_val tok) =? 1); [|exact Hbad].
    apply bind_no_type_panic; [apply stmtInto_no_type_panic|].
    intros; apply IH.
  - apply bind_no_type_panic; [apply p_Token_no_type_panic|].
    intros; apply IH.
Qed.

Lemma dynParser_Parse_no_type_panic (p : dynParser) :
  no_type_panic (dynParser_Parse fuel p).
Proof.
  unfold dynParser_Parse.
  apply bind_no_type_panic; [intros ?; discriminate|]. intros _ p1.
  apply bind_no_type_panic; [|intros; type_safe].
  unfold declModel.
  apply bind_no_type_panic; [apply declModel_loop_no_type_panic|].
  intros m1 p2. unfold declModel_finish.
  apply bind_no_type_panic; [|intros; intros ?; discriminate].
  simpl String.eqb. cbv iota.
  destruct (extractTimespec m1) as [m2 [e|]]; type_safe.
Qed.

(** X15: the panic of [typeIdent] cannot be reached from [Parse].  [typeIdent]
    panics on a tag that is none of L, N, C, R, A, T; [stmtInto] checks the
    tag before it has a declaration built, so whatever the input and the
    file are, a panic of [Parse] is not that one. *)
Theorem Parse_no_type_panic (f : token.File) (s : string) (e : fault) :
  Parse fuel f s = Panic e -> is_type_panic e = false.
Proof.
  unfold Parse. intros H.
  pose proof (dynParser_Parse_no_type_panic (newParser (newLex s f))) as Hn.
  destruct (dynParser_Parse fuel (newParser (newLex s f)))
    as [[[file nerr] p0]|e0| |]; try discriminate.
  - destruct (negb _); discriminate.
  - inversion H; subst e0. destruct e as [| | |v]; try reflexivity.
    exfalso. exact (Hn v eq_refl).
Qed.

(** *** The earlier parser *)

Lemma Earlier_varDecl_logged (typeTok : Token) (p p' : dynParser)
      (d : option VarDecl) :
  Earlier.varDecl fuel typeTok p = Ok (d, p') ->
  exists more, logged more p p'
               /\ match d with None => more <> [] | Some _ => True end.
Proof.
  unfold Earlier.varDecl. intros H.
  apply bind_Ok in H. destruct H as (nameTok & p1 & E1 & H).
  apply on_lex_quiet in E1.
  destruct (negb _).
  - apply bind_Ok in H. destruct H as (u & p2 & E2 & H).
    apply p_errorf_logged in E2. unfold ret in H. inversion H; subst.
    eexists. split; [eapply quiet_then_logged; eassumption|discriminate].
  - apply bind_Ok in H. destruct H as (ty & p2 & E2 & H).
    assert (p2 = p1).
    { unfold Earlier.typeIdent, ret, throw in E2.
      repeat match type of E2 with
             | (if ?b then _ else _) _ = _ => destruct b
             end; inversion E2; reflexivity. }
    subst p2. unfold ret in H. inversion H; subst.
    exists []. split; [now apply quiet_logged|exact I].
Qed.

(** In the earlier parser [stmtInto] never appends: its [expr] always
    fails. *)
Lemma Earlier_stmtInto_logged (m m' : ModelDecl) (p p' : dynParser) :
  Earlier.stmtInto fuel m p = Ok (m', p') ->
  m' = m /\ exists more, logged more p p'.
Proof.
  unfold Earlier.stmtInto. intros H.
  apply bind_Ok in H. destruct H as (tok & p1 & E1 & H).
  apply on_lex_quiet in E1. cbv zeta in H. cbn [t_val] in H.
  assert (Hdiscard : forall more p2 p3 (u : unit),
             logged more p1 p2 -> discardStmt fuel p2 = Ok (u, p3) ->
             logged more p p3).
  { intros more p2 p3 u L2 Hd. apply discardStmt_quiet in Hd.
    eapply quiet_then_logged; [eassumption|].
    eapply logged_quiet; eassumption. }
  destruct (_ || _).
  - apply bind_Ok in H. destruct H as (d & p2 & E2 & H).
    apply Earlier_varDecl_logged in E2. destruct E2 as (more1 & L1 & _).
    apply bind_Ok in H. destruct H as (ok & p3 & E3 & H).
    assert (L3 : exists more, logged more p1 p3).
    { destruct d as [decl|].
      - apply consumeEqual_logged in E3. destruct E3 as (more2 & L2 & _).
        eexists. eapply logged_trans; eassumption.
      - unfold ret in E3. inversion E3; subst. eauto. }
    destruct L3 as (more & L3).
    assert (Hd : (discardStmt fuel ;;; ret m) p3 = Ok (m', p') ->
                 m' = m /\ exists more, logged more p p').
    { intros Hd. apply bind_Ok in Hd. destruct Hd as (u & p4 & E4 & Hd).
      unfold ret in Hd. inversion Hd; subst. split; [reflexivity|].
      exists more. eapply Hdiscard; eassumption. }
    destruct d as [decl|]; [|exact (Hd H)].
    destruct ok; [|exact (Hd H)].
    apply bind_Ok in H. destruct H as ([rhs ok'] & p4 & E4 & H).
    unfold Earlier.expr, bind, Printf, modify, ret in E4.
    inversion E4; subst. simpl in H.
    apply bind_Ok in H. destruct H as (u & p5 & E5 & H).
    unfold ret in H. inversion H; subst. split; [reflexivity|].
    exists more. eapply Hdiscard; [|exact E5].
    eapply logged_quiet; [exact L3|]. unfold quiet. simpl. tauto.
  - apply bind_Ok in H. destruct H as (u & p2 & E2 & H).
    apply p_errorf_logged in E2. unfold ret in H. inversion H; subst.
    split; [reflexivity|]. eexists. eapply quiet_then_logged; eassumption.
Qed.

Lemma Earlier_declModel_loop_logged (n : nat) :
  forall (m m' : ModelDecl) (p p' : dynParser),
    Earlier.declModel_loop fuel n m p = Ok (m', p') ->
    m' = m /\ exists more, logged more p p' /\ more <> [].
Proof.
  induction n as [|n IH]; intros m m' p p' H; cbn [Earlier.declModel_loop] in H;
    [discriminate|].
  apply bind_Ok in H. destruct H as (tok & p1 & E1 & H).
  apply on_lex_quiet in E1.
  destruct (_ && _).
  - apply bind_Ok in H. destruct H as (m1 & p2 & E2 & H).
    apply Earlier_stmtInto_logged in E2. destruct E2 as (-> & more1 & L1).
    apply IH in H. destruct H as (-> & more & L & Hne).
    split; [reflexivity|]. exists (more1 ++ more). split.
    + eapply quiet_then_logged; [exact E1|]. eapply logged_trans; eassumption.
    + intros Habs. apply app_eq_nil in Habs. tauto.
  - apply bind_Ok in H. destruct H as (u & p2 & E2 & H).
    apply p_errorf_logged in E2. unfold ret in H. inversion H; subst.
    split; [reflexivity|]. eexists.
    split; [eapply quiet_then_logged; eassumption|discriminate].
Qed.

(** X16: the parser of src/dynamo/parse.go rejects every input.  Its [expr]
    always fails, so no statement is ever appended, and its model loop is
    left only through the branch that reports an error: whenever its [Parse]
    returns, it returns no program and an error that counts at least one
    diagnostic, and the program it has built holds no model. *)
Theorem Earlier_Parse_fails (f : token.File) (s : string)
        (r : option File) (err : option ParseError) (p : dynParser) :
  Earlier.Parse fuel f s = Ok ((r, err), p) ->
  r = None
  /\ (exists e, err = Some e /\ 1 <= pe_nerr e
                /\ pe_nerr e = Z.of_nat (List.length (pe_errBuf e)))
  /\ File_Decls (p_f p) = [].
Proof.
  unfold Earlier.Parse. intros H.
  destruct (Earlier.dynParser_Parse fuel (newParser (newLex s f)))
    as [[[file nerr] p0]| | |] eqn:HP; try discriminate.
  unfold Earlier.dynParser_Parse in HP.
  apply bind_Ok in HP. destruct HP as (u0 & p1 & E0 & HP).
  unfold modify in E0. inversion E0; subst u0 p1. clear E0.
  apply bind_Ok in HP. destruct HP as (m1 & p2 & E1 & HP).
  unfold Earlier.declModel in E1.
  apply Earlier_declModel_loop_logged in E1.
  destruct E1 as (_ & more & (F & B & N) & Hne).
  simpl in F, B, N.
  unfold gets, ret, bind in HP. inversion HP; subst file nerr p0. clear HP.
  assert (Hpos : 1 <= p_nerr p2).
  { rewrite N. destruct more; [congruence|]. simpl List.length. lia. }
  destruct (negb (p_nerr p2 =? 0)) eqn:Hz.
  - inversion H; subst r err p. split; [reflexivity|]. split.
    + eexists. split; [reflexivity|]. simpl. rewrite B. split; [exact Hpos|].
      rewrite N. reflexivity.
    + rewrite F. reflexivity.
  - apply negb_false_iff, Z.eqb_eq in Hz. lia.
Qed.
End ParserFrame.

(** ** The timespec pass without control variables *)

Section TimespecMore.
Context {UT : UnicodeTables} {NU : Numerics}.

Lemma eval_stmt_ordinary (st : Stmt) (spec : Timespec) :
  ordinary st = true -> eval_stmt st spec = (spec, None).
Proof.
  unfold ordinary, eval_stmt, is_control. destruct st as [lhs rhs|]; simpl;
    [|reflexivity].
  intros H. apply negb_true_iff in H.
  repeat (apply orb_false_elim in H; destruct H as (H & ?)).
  cbv zeta.
  repeat match goal with
         | E : String.eqb _ _ = false |- _ => rewrite E; clear E
         end.
  reflexivity.
Qed.

Lemma eval_loop_ordinary (stmts : list Stmt) (spec : Timespec) :
  Forall (fun st => ordinary st = true) stmts -> eval_loop stmts spec = inl spec.
Proof.
  induction 1 as [|st rest Hst _ IH]; [reflexivity|].
  simpl. rewrite (eval_stmt_ordinary st spec Hst). exact IH.
Qed.

Lemma filter_ordinary_all (stmts : list Stmt) :
  Forall (fun st => ordinary st = true) stmts -> filter ordinary stmts = stmts.
Proof.
  induction 1 as [|st rest Hst _ IH]; [reflexivity|].
  simpl. rewrite Hst, IH. reflexivity.
Qed.

(** X17: without control variables the pass cannot fail.  When no statement of
    the body assigns to TIME, LENGTH, SAVPER or DT, [constEval] is not
    consulted at all: [extractTimespec] returns nil, keeps every statement,
    and appends the timespec assignment with the values 0, 0, 1, 1. *)
Theorem extractTimespec_defaults (m : ModelDecl) :
  Forall (fun st => ordinary st = true) (body_of m) ->
  extractTimespec m
  = (set_body (body_of m ++ [timespec_stmt default_timespec]) m, None).
Proof.
  intros H. unfold extractTimespec. fold (body_of m). cbv zeta.
  change (mkTimespec float64_0 float64_0 float64_1 float64_1)
    with default_timespec.
  rewrite (eval_loop_ordinary _ _ H).
  rewrite remove_loop_filter by lia.
  simpl. rewrite (filter_ordinary_all _ H). reflexivity.
Qed.

(** X18: the pass is not idempotent.  Run on a model that it has already
    treated, [extractTimespec] keeps what is there, the first timespec
    assignment included, and appends a second timespec assignment that holds
    the default values 0, 0, 1, 1, whatever the first one holds. *)
Theorem extractTimespec_twice (m m' : ModelDecl) :
  extractTimespec m = (m', None) ->
  extractTimespec m'
  = (set_body (body_of m' ++ [timespec_stmt default_timespec]) m', None).
Proof.
  intros H. apply extractTimespec_ok in H. destruct H as (spec & _ & ->).
  assert (Hall : Forall (fun st => ordinary st = true)
                        (filter ordinary (body_of m) ++ [timespec_stmt spec])).
  { apply Forall_app. split.
    - apply Forall_forall. intros st Hin. apply filter_In in Hin. tauto.
    - constructor; [|constructor].
      unfold ordinary, timespec_stmt.
      cbn [assign_name VarDecl_Name Ident_Name id].
      rewrite is_control_timespec. reflexivity. }
  unfold extractTimespec. cbv zeta.
  change (BlockStmt_List (ModelDecl_Body ?x)) with (body_of x).
  rewrite body_of_set_body.
  change (mkTimespec float64_0 float64_0 float64_1 float64_1)
    with default_timespec.
  rewrite (eval_loop_ordinary _ _ Hall).
  rewrite remove_loop_filter by lia.
  simpl skipn. simpl firstn. simpl app at 1.
  rewrite (filter_ordinary_all _ Hall). reflexivity.
Qed.
End TimespecMore.

(** ** The token dump and the skeleton parser *)

Section OldParsers.
Context {UT : UnicodeTables}.
Variable fuel : nat.

Lemma pull_cons (n : nat) (l l1 l2 : dynLex) (t : Token) (ts : list Token) :
  lex_Token fuel l = Ok (t, l1) -> pull fuel n l1 = Ok (ts, l2) ->
  pull fuel (S n) l = Ok (t :: ts, l2).
Proof.
  intros H1 H2. cbn [pull]. unfold bind. rewrite H1, H2. reflexivity.
Qed.

Lemma TokenDump_loop (n : nat) :
  forall (p p' : TokenDump.dynParser) (u : unit),
    TokenDump.Parse_loop fuel n p = Ok (u, p') ->
    exists ts t,
      pull fuel (S (List.length ts)) (TokenDump.lex p)
      = Ok (ts ++ [t], TokenDump.lex p')
      /\ t_kind t = itemEOF
      /\ Forall (fun t0 => t_kind t0 <> itemEOF) ts
      /\ TokenDump.out p' = TokenDump.out p ++ map TokenDump.line_of ts.
Proof.
  induction n as [|n IH]; intros p p' u H; cbn [TokenDump.Parse_loop] in H;
    [discriminate|].
  apply bind_Ok in H. destruct H as (t & p1 & E1 & H).
  unfold TokenDump.p_Token in E1.
  destruct (lex_Token fuel (TokenDump.lex p)) as [[t0 l1]| | |] eqn:ET;
    try discriminate.
  inversion E1; subst t0 p1. clear E1.
  destruct (itemType_eqb (t_kind t) itemEOF) eqn:Hk.
  - unfold ret in H. inversion H; subst. clear H.
    exists [], t. split; [|split; [|split]].
    + apply (pull_cons 0 _ l1 l1 t []); [exact ET|reflexivity].
    + destruct (t_kind t); try discriminate Hk. reflexivity.
    + constructor.
    + simpl. now rewrite app_nil_r.
  - apply bind_Ok in H. destruct H as (u1 & p2 & E2 & H).
    unfold TokenDump.Printf, modify in E2. inversion E2; subst u1 p2. clear E2.
    apply IH in H. destruct H as (ts & t' & Hpull & Hk' & Hall & Hout).
    simpl in Hpull, Hout.
    exists (t :: ts), t'. split; [|split; [exact Hk'|split]].
    + change (List.length (t :: ts)) with (S (List.length ts)).
      change ((t :: ts) ++ [t']) with (t :: (ts ++ [t'])).
      eapply pull_cons; [exact ET|exact Hpull].
    + constructor; [|exact Hall]. intros Habs. rewrite Habs in Hk.
      discriminate.
    + rewrite Hout, <- app_assoc. reflexivity.
Qed.

(** X19: the token dump prints the tokens and fails.  Whenever the [Parse]
    of src/dynamo/lex.go, lines 432-461, returns, it returns no program and
    the error for one parse error, and it has printed one line for each
    token in front of the first end-of-input token, in the order in which
    [Token] hands them out, and no line for that token. *)
Theorem TokenDump_Parse_prints (f : token.File) (s : string)
        (r : option File) (err : option Z) (p : TokenDump.dynParser) :
  TokenDump.Parse fuel f s = Ok ((r, err), p) ->
  r = None /\ err = Some 1
  /\ exists ts t,
      pull fuel (S (List.length ts)) (newLex s f)
      = Ok (ts ++ [t], TokenDump.lex p)
      /\ t_kind t = itemEOF
      /\ Forall (fun t0 => t_kind t0 <> itemEOF) ts
      /\ TokenDump.out p = map TokenDump.line_of ts.
Proof.
  unfold TokenDump.Parse, TokenDump.dynParser_Parse. intros H.
  destruct ((TokenDump.Parse_loop fuel fuel ;;; ret (None, 1))
              (TokenDump.newParser (newLex s f)))
    as [[[res nerr] p0]| | |] eqn:HP; try discriminate.
  apply bind_Ok in HP. destruct HP as (u & p1 & E & HP).
  unfold ret in HP. inversion HP; subst res nerr p1. clear HP.
  simpl in H. inversion H; subst r err p0. clear H.
  split; [reflexivity|]. split; [reflexivity|].
  apply TokenDump_loop in E. exact E.
Qed.

Lemma Skeleton_stmtInto_quiet (p p' : dynParser) (u : unit) :
  Skeleton.stmtInto fuel p = Ok (u, p') -> quiet p p'.
Proof.
  unfold Skeleton.stmtInto. intros H.
  apply bind_Ok in H. destruct H as (tok & p1 & E1 & H).
  apply on_lex_quiet in E1.
  destruct (negb _); unfold ret in H; inversion H; subst; exact E1.
Qed.

Lemma Skeleton_loop (n : nat) :
  forall (p p' : dynParser) (u : unit),
    Skeleton.declModel_loop fuel n p = Ok (u, p') ->
    exists tok,
      (t_kind tok <> itemIdentifier \/ len (t_val tok) <> 1)
      /\ logged [ {| d_pos := t_pos tok;
                     d_msg := "expected 1 char ident, not '" ++ t_val tok ++ "'" |} ]
                p p'.
Proof.
  induction n as [|n IH]; intros p p' u H; cbn [Skeleton.declModel_loop] in H;
    [discriminate|].
  apply bind_Ok in H. destruct H as (tok & p1 & E1 & H).
  apply on_lex_quiet in E1.
  destruct (itemType_eqb (t_kind tok) itemIdentifier && (len (t_val tok) =? 1))
           eqn:Hc.
  - apply bind_Ok in H. destruct H as (u1 & p2 & E2 & H).
    apply Skeleton_stmtInto_quiet in E2. apply IH in H.
    destruct H as (tok' & Hbad & L). exists tok'. split; [exact Hbad|].
    eapply quiet_then_logged; [exact E1|].
    eapply quiet_then_logged; eassumption.
  - apply p_errorf_logged in H. exists tok. split.
    + apply andb_false_iff in Hc. destruct Hc as [Hc|Hc].
      * left. intros Habs. rewrite Habs in Hc. discriminate.
      * right. apply Z.eqb_neq. exact Hc.
    + eapply quiet_then_logged; eassumption.
Qed.

(** X20: the parser of src/unnamed/part_000 rejects every input with exactly
    one error.  Its model loop takes one token for each one-character
    identifier that starts a statement and is left only through the branch
    that reports: whenever its [Parse] returns, it returns no program and an
    error that counts one diagnostic, the one for the first token found in
    the place of a statement that is not a one-character identifier. *)
Theorem Skeleton_Parse_one_error (f : token.File) (s : string)
        (r : option File) (err : option ParseError) (p : dynParser) :
  Skeleton.Parse fuel f s = Ok ((r, err), p) ->
  r = None
  /\ exists tok,
      (t_kind tok <> itemIdentifier \/ len (t_val tok) <> 1)
      /\ err = Some {| pe_nerr := 1;
                       pe_errBuf :=
                         [ {| d_pos := t_pos tok;
                              d_msg := "expected 1 char ident, not '"
                                       ++ t_val tok ++ "'" |} ] |}.
Proof.
  unfold Skeleton.Parse. intros H.
  destruct (Skeleton.dynParser_Parse fuel (newParser (newLex s f)))
    as [[[file nerr] p0]| | |] eqn:HP; try discriminate.
  unfold Skeleton.dynParser_Parse in HP.
  apply bind_Ok in HP. destruct HP as (u0 & p1 & E0 & HP).
  unfold modify in E0. inversion E0; subst u0 p1. clear E0.
  apply bind_Ok in HP. destruct HP as (u1 & p2 & E1 & HP).
  unfold Skeleton.declModel in E1. apply Skeleton_loop in E1.
  destruct E1 as (tok & Hbad & (_ & B & N)). simpl in B, N.
  unfold gets, ret, bind in HP. inversion HP; subst file nerr p0. clear HP.
  rewrite N in H. simpl in H. inversion H; subst r err p. clear H.
  split; [reflexivity|]. exists tok. split; [exact Hbad|].
  rewrite B. reflexivity.
Qed.
End OldParsers.

(** ** The panics of the scanner and of the parser *)

Section ParserSafe.
Context {UT : UnicodeTables} {NU : Numerics}.
Variable fuel : nat.
Variable s : string.
Variable f : token.File.
Hypothesis Hsize : len s <= token.size f.

Lemma bind_keeps {A B : Type} (c : P A) (k : A -> P B) :
  keeps_scanner s f c -> (forall a, keeps_scanner s f (k a)) ->
  keeps_scanner s f (bind c k).
Proof.
  unfold keeps_scanner, bind. intros Hc Hk p Hr.
  destruct (Hc p Hr) as (Hc1 & Hc2).
  destruct (c p) as [[a p1]|e| |] eqn:E.
  - apply Hk. exact (Hc2 a p1 eq_refl).
  - split; [|discriminate]. intros Heq. apply Hc1. inversion Heq. reflexivity.
  - split; discriminate.
  - split; discriminate.
Qed.

Lemma ret_keeps {A : Type} (a : A) : keeps_scanner s f (ret a).
Proof.
  unfold keeps_scanner, ret. intros p Hr. split; [discriminate|].
  intros a0 p' H. inversion H; subst. exact Hr.
Qed.

Lemma p_errorf_keeps (tok : Token) (msg : string) :
  keeps_scanner s f (p_errorf tok msg).
Proof.
  unfold keeps_scanner, p_errorf, modify. intros p Hr. split; [discriminate|].
  intros a0 p' H. inversion H; subst. exact Hr.
Qed.

Lemma Printf_keeps (line : string) : keeps_scanner s f (Printf line).
Proof.
  unfold keeps_scanner, Printf, modify. intros p Hr. split; [discriminate|].
  intros a0 p' H. inversion H; subst. exact Hr.
Qed.

Lemma typeIdent_keeps (typeTok : Token) :
  keeps_scanner s f (typeIdent typeTok).
Proof.
  unfold keeps_scanner, typeIdent, ret, throw. intros p Hr.
  repeat match goal with
         | |- context [if ?b then _ else _] => destruct b
         end;
    (split; [discriminate|]); intros a0 p' H; inversion H; subst; exact Hr.
Qed.

Lemma on_lex_keeps {A : Type} (c : L A) :
  (forall l, Reachable s f l ->
             c l <> Panic IllegalOffset
             /\ forall a l', c l = Ok (a, l') -> Reachable s f l') ->
  keeps_scanner s f (on_lex c).
Proof.
  unfold keeps_scanner, on_lex. intros Hc p Hr.
  destruct (Hc (p_lex p) Hr) as (H1 & H2).
  destruct (c (p_lex p)) as [[a l1]|e| |] eqn:E.
  - split; [discriminate|].
    intros a0 p' H. inversion H; subst. simpl. exact (H2 a0 l1 eq_refl).
  - split; [|discriminate].
    intros Heq. apply H1. inversion Heq. reflexivity.
  - split; discriminate.
  - split; discriminate.
Qed.

Lemma p_Token_keeps : keeps_scanner s f (p_Token fuel).
Proof.
  apply on_lex_keeps. intros l Hr. unfold Consume.
  destruct (l_peeked l).
  - split; [discriminate|]. intros a l' H. inversion H; subst.
    now apply reach_slot.
  - split; [exact (lex_Token_legal s f fuel Hsize l Hr)|].
    intros a l' H. eapply lex_Token_Reachable; eassumption.
Qed.

Lemma p_Peek_keeps : keeps_scanner s f (p_Peek fuel).
Proof.
  apply on_lex_keeps. intros l Hr. unfold Peek.
  destruct (l_peeked l).
  - split; [discriminate|]. intros a l' H. inversion H; subst. exact Hr.
  - pose proof (lex_Token_legal s f fuel Hsize l Hr) as Hl.
    unfold bind, modify, ret.
    destruct (lex_Token fuel l) as [[t l1]|e| |] eqn:E.
    + split; [discriminate|].
      intros a l' H. inversion H; subst. apply reach_slot.
      eapply lex_Token_Reachable; eassumption.
    + split; [|discriminate].
      intros Heq. apply Hl. inversion Heq. reflexivity.
    + split; discriminate.
    + split; discriminate.
Qed.

Ltac keeps :=
  cbv zeta;
  lazymatch goal with
  | |- keeps_scanner _ _ (bind _ _) => apply bind_keeps; [keeps|intros; keeps]
  | |- keeps_scanner _ _ (ret _) => apply ret_keeps
  | |- keeps_scanner _ _ (p_errorf _ _) => apply p_errorf_keeps
  | |- keeps_scanner _ _ (Printf _) => apply Printf_keeps
  | |- keeps_scanner _ _ (typeIdent _) => apply typeIdent_keeps
  | |- keeps_scanner _ _ (p_Token _) => apply p_Token_keeps
  | |- keeps_scanner _ _ (p_Peek _) => apply p_Peek_keeps
  | |- keeps_scanner _ _ (if ?b then _ else _) => destruct b; keeps
  | |- keeps_scanner _ _ (match ?d with Some _ => _ | None => _ end) =>
    destruct d; keeps
  | |- keeps_scanner _ _ (match t_kind ?t with _ => _ end) =>
    destruct (t_kind t); keeps
  | |- keeps_scanner _ _ (let '(_, _) := ?e in _) => destruct e; keeps
  | |- _ => solve [auto]
  end.

Lemma discardStmt_loop_keeps (n : nat) :
  forall tok, keeps_scanner s f (discardStmt_loop fuel n tok).
Proof.
  induction n as [|n IH]; intros tok; simpl; destruct (_ && _);
    try apply ret_keeps.
  - intros p Hr. split; discriminate.
  - keeps.
Qed.

Lemma tableDef_loop_keeps (n : nat) :
  forall ys, keeps_scanner s f (tableDef_loop fuel n ys).
Proof.
  induction n as [|n IH]; intros ys; cbn [tableDef_loop].
  - intros p Hr. split; discriminate.
  - keeps.
Qed.

Lemma stmtInto_keeps (m : ModelDecl) : keeps_scanner s f (stmtInto fuel m).
Proof.
  pose proof discardStmt_loop_keeps as Hd.
  pose proof tableDef_loop_keeps as Ht.
  unfold stmtInto, decl_and_equal, varDecl, consumeEqual, expr, discardStmt,
  tableDef.
  keeps.
Qed.

Lemma declModel_loop_keeps (n : nat) :
  forall m, keeps_scanner s f (declModel_loop fuel n m).
Proof.
  pose proof stmtInto_keeps as Hs.
  induction n as [|n IH]; intros m; cbn [declModel_loop].
  - intros p Hr. split; discriminate.
  - keeps.
Qed.

Lemma dynParser_Parse_legal :
  dynParser_Parse fuel (newParser (newLex s f)) <> Panic IllegalOffset.
Proof.
  assert (H : keeps_scanner s f (dynParser_Parse fuel)).
  { pose proof declModel_loop_keeps as Hl.
    unfold dynParser_Parse, declModel, declModel_finish.
    simpl String.eqb. cbv iota.
    assert (Hm : forall g, keeps_scanner s f (modify (fun p => set_file (g p) p))).
    { intros g p Hr. unfold modify. split; [discriminate|].
      intros a p' H. inversion H; subst. exact Hr. }
    assert (Hg : forall (A : Type) (g : dynParser -> A),
               keeps_scanner s f (gets g)).
    { intros A g p Hr. unfold gets. split; [discriminate|].
      intros a p' H. inversion H; subst. exact Hr. }
    apply bind_keeps; [apply Hm|]. intros _.
    apply bind_keeps.
    - apply bind_keeps; [apply Hl|]. intros m1.
      apply bind_keeps; [|intros; apply Hm].
      destruct (extractTimespec m1) as [m2 [e|]]; keeps.
    - intros _. apply bind_keeps; [apply Hg|]. intros file.
      apply bind_keeps; [apply Hg|]. intros; apply ret_keeps. }
  apply H. simpl. apply reach_newLex.
Qed.
End ParserSafe.

Section Panics.
Context {UT : UnicodeTables} {NU : Numerics}.

(** X21: what [Token] can panic with.  When the file registered for the input
    is at least as large as the input, a call of [Token], in any state that
    calls of [Token] lead to, hands no illegal offset to the file; a panic,
    if there is one, is a slice out of bounds or the call of the nil state
    function. *)
Theorem Token_panics (s : string) (f : token.File) (fuel : nat)
        (l : dynLex) (e : fault) :
  len s <= token.size f ->
  Reachable s f l ->
  lex_Token fuel l = Panic e ->
  e = SliceBounds \/ e = NilFunc.
Proof.
  intros Hsize Hr H. destruct e as [| | |v].
  - left. reflexivity.
  - right. reflexivity.
  - exfalso. exact (lex_Token_legal s f fuel Hsize l Hr H).
  - exfalso. exact (lex_Token_no_type_panic fuel l v H).
Qed.

(** X22: what [Parse] can panic with.  When the file registered for the input
    is at least as large as the input, as it is when [transliterate] calls
    [Parse], the parser hands no illegal offset to the file and does not
    reach the panic of [typeIdent]: a panic of [Parse], if there is one, is
    a slice out of bounds or the call of the nil state function, both of
    them in the scanner. *)
Theorem Parse_panics (s : string) (f : token.File) (fuel : nat) (e : fault) :
  len s <= token.size f ->
  Parse fuel f s = Panic e ->
  e = SliceBounds \/ e = NilFunc.
Proof.
  unfold Parse. intros Hsize H.
  pose proof (dynParser_Parse_legal fuel s f Hsize) as Hl.
  pose proof (dynParser_Parse_no_type_panic fuel (newParser (newLex s f))) as Ht.
  destruct (dynParser_Parse fuel (newParser (newLex s f)))
    as [[[file nerr] p0]|e0| |]; try discriminate.
  - destruct (negb _); discriminate.
  - inversion H; subst e0. destruct e as [| | |v].
    + left. reflexivity.
    + right. reflexivity.
    + exfalso. apply Hl. reflexivity.
    + exfalso. exact (Ht v eq_refl).
Qed.
End Panics.

(** ** Runs on sample input *)

(** The pass on [sample_model]: TIME and dt go, POPN stays, timespec comes
    last. *)
Lemma extractTimespec_body_witness :
  (forall lhs rhs,
      In (AssignStmt lhs rhs) (body_of sample_after) ->
      is_control (UT := latin1_tables) (Ident_Name (VarDecl_Name lhs)) = false)
  /\ exists ts,
      body_of sample_after
      = filter (ordinary (UT := latin1_tables)) (body_of sample_model) ++ [ts]
      /\ assign_name ts = Some "timespec"
      /\ List.last (body_of sample_after) OtherStmt = ts
      /\ filter (named "timespec") (body_of sample_after)
         = filter (named "timespec") (body_of sample_model) ++ [ts].
Proof.
  exact (extractTimespec_body (UT := latin1_tables) (NU := toy_numerics)
                              sample_model sample_after eq_refl).
Defined.

Example sample_after_names :
  map assign_name (body_of sample_after) = [Some "POPN"; Some "timespec"].
Proof. reflexivity. Qed.

Lemma extractTimespec_values_witness :
  List.last (body_of sample_after) OtherStmt
  = AssignStmt (mkVarDecl (mkIdent 0 "timespec") None)
      (Some (CompositeLit
         [ mkKeyValueExpr (mkIdent 0 "start")
             (BasicLitExpr (mkBasicLit 0 token.FLOAT "0"));
           mkKeyValueExpr (mkIdent 0 "end")
             (BasicLitExpr (mkBasicLit 0 token.FLOAT "0.000000"));
           mkKeyValueExpr (mkIdent 0 "dt")
             (BasicLitExpr (mkBasicLit 0 token.FLOAT "0.5"));
           mkKeyValueExpr (mkIdent 0 "save_step")
             (BasicLitExpr (mkBasicLit 0 token.FLOAT "1.000000")) ])).
Proof.
  exact (proj1 (extractTimespec_values (UT := latin1_tables) (NU := toy_numerics)
                                       sample_model sample_after eq_refl)).
Defined.

Lemma extractTimespec_failure_witness :
  exists st name e,
    In st (body_of sample_bad_model)
    /\ fails_to_evaluate (UT := latin1_tables) (NU := toy_numerics) st name e
    /\ extractTimespec (UT := latin1_tables) (NU := toy_numerics) sample_bad_model
       = (sample_bad_model, Some ("constEval(" ++ name ++ "): " ++ e)%string).
Proof.
  apply (extractTimespec_failure (UT := latin1_tables) (NU := toy_numerics)
                                 sample_bad_model).
  exists (AssignStmt (mkVarDecl (mkIdent 0 "Length") (Some (mkIdent 0 "table")))
                     (Some (TableFwdExpr []))), "Length", "not a constant".
  split; [right; left; reflexivity|].
  eexists. eexists. repeat split.
Defined.

Example sample_bad_model_error :
  extractTimespec (UT := latin1_tables) (NU := toy_numerics) sample_bad_model
  = (sample_bad_model, Some "constEval(Length): not a constant").
Proof. reflexivity. Qed.

Lemma after_title_Reachable :
  Reachable (UT := latin1_tables) title_only (file_for title_only) after_title.
Proof.
  apply reach_advance with (l := after_star); [|reflexivity|reflexivity].
  apply reach_advance with (l := newLex title_only (file_for title_only));
    [apply reach_newLex|reflexivity|reflexivity].
Qed.

(** The rule at work.  In [prog_two_lines], at the newline behind the number
    [1], a terminator is inserted; at the newline behind the title, where
    nothing has been emitted yet, none is.  At the end of [prog_closed], behind
    the closing paren, a terminator is inserted in front of the end-of-input
    token; at the end of [title_only] the end-of-input token comes alone. *)
Lemma statement_terminator_witness :
  (ends_statement (t_kind (l_last before_newline)) = true
   /\ exists l', advance (UT := latin1_tables) before_newline = Ok (tt, l')
                 /\ map t_kind (l_items l') = [itemSemi])
  /\ (ends_statement (t_kind (l_last after_title)) = false
      /\ exists l', advance (UT := latin1_tables) after_title = Ok (tt, l')
                    /\ map t_kind (l_items l') = [])
  /\ (ends_statement (t_kind (l_last closed_at_end)) = true
      /\ exists l', advance (UT := latin1_tables) closed_at_end = Ok (tt, l')
                    /\ map t_kind (l_items l') = [itemSemi; itemEOF])
  /\ (ends_statement (t_kind (l_last title_at_end)) = false
      /\ exists l', advance (UT := latin1_tables) title_at_end = Ok (tt, l')
                    /\ map t_kind (l_items l') = [itemEOF]).
Proof.
  split; [|split; [|split]]; (split; [reflexivity|]).
  - refine (proj1 (statement_terminator (UT := latin1_tables) prog_two_lines
                     (file_for prog_two_lines) before_newline
                     (state_after (next before_newline) before_newline) 10
                     _ _ _ _ _) eq_refl).
    + apply (pull_Reachable (UT := latin1_tables) _ _ 20 4
               (newLex prog_two_lines (file_for prog_two_lines)) _
               (value_of (pull (UT := latin1_tables) 20 4
                            (newLex prog_two_lines (file_for prog_two_lines)))
                         []));
        [apply reach_newLex|vm_compute; reflexivity].
    + vm_compute. discriminate.
    + reflexivity.
    + reflexivity.
    + reflexivity.
  - refine (proj1 (statement_terminator (UT := latin1_tables) title_only
                     (file_for title_only) after_title after_title_newline 10
                     _ _ _ _ _) eq_refl).
    + exact after_title_Reachable.
    + vm_compute. discriminate.
    + reflexivity.
    + reflexivity.
    + reflexivity.
  - refine (proj2 (statement_terminator (UT := latin1_tables) prog_closed
                     (file_for prog_closed) closed_at_end closed_at_end eof
                     _ _ _ _ _) eq_refl).
    + apply (pull_Reachable (UT := latin1_tables) _ _ 20 1
               (newLex prog_closed (file_for prog_closed)) _
               (value_of (pull (UT := latin1_tables) 20 1
                            (newLex prog_closed (file_for prog_closed)))
                         []));
        [apply reach_newLex|vm_compute; reflexivity].
    + vm_compute. discriminate.
    + reflexivity.
    + reflexivity.
    + reflexivity.
  - refine (proj2 (statement_terminator (UT := latin1_tables) title_only
                     (file_for title_only) title_at_end title_at_end eof
                     _ _ _ _ _) eq_refl).
    + apply reach_advance with (l := after_title);
        [exact after_title_Reachable|reflexivity|reflexivity].
    + vm_compute. discriminate.
    + reflexivity.
    + reflexivity.
    + reflexivity.
Defined.

(** The terminators of [prog_two_lines] are inserted at the two newlines
    that follow a number, and at no other newline. *)
Example two_lines_kinds :
  exists l,
    pull (UT := latin1_tables) 20 11
         (newLex prog_two_lines (file_for prog_two_lines))
    = Ok ([ mkToken 6 "C" itemIdentifier; mkToken 8 "X" itemIdentifier;
            mkToken 9 "=" itemOperator; mkToken 10 "1" itemNumber;
            mkToken 11 nl itemSemi;
            mkToken 12 "C" itemIdentifier; mkToken 14 "Y" itemIdentifier;
            mkToken 15 "=" itemOperator; mkToken 16 "2" itemNumber;
            mkToken 17 nl itemSemi; mkToken 17 "" itemEOF ], l).
Proof. eexists. vm_compute. reflexivity. Qed.

(** The sample program, and the tokens that the scanner hands out for it. *)
Example plain_sample_text :
  plain_sample
  = ("* growth" ++ nl ++ "C RATE=1.5e-3 // per year" ++ nl
     ++ "/* the table:" ++ nl ++ "   two values */" ++ nl
     ++ "T TAB = 2/.5;" ++ nl)%string.
Proof. reflexivity. Qed.

Example plain_sample_tokens :
  exists l,
    pull (UT := latin1_tables) 50 13
         (newLex plain_sample (file_for plain_sample))
    = Ok ([ mkToken 11 "C" itemIdentifier; mkToken 16 "RATE" itemIdentifier;
            mkToken 17 "=" itemOperator; mkToken 23 "1.5e-3" itemNumber;
            mkToken 36 nl itemSemi;
            mkToken 68 "T" itemIdentifier; mkToken 72 "TAB" itemIdentifier;
            mkToken 74 "=" itemOperator; mkToken 76 "2" itemNumber;
            mkToken 77 "/" itemOperator; mkToken 79 ".5" itemNumber;
            mkToken 80 ";" itemSemi; mkToken 81 "" itemEOF ], l)
    /\ unspaced (uncommented in_line plain_sample) = "CRATE=1.5e-3TTAB=2/.5;".
Proof. eexists. split; vm_compute; reflexivity. Qed.



Lemma Parse_no_star_witness :
  exists p,
    Parse (UT := latin1_tables) (NU := toy_numerics) 1
          (file_for prog_no_star) prog_no_star
    = Ok ((Some (only_timespec (NU := toy_numerics)), None), p)
    /\ p_nerr p = 0 /\ p_errBuf p = []
    /\ l_log (p_lex p) = [LogMustBegin (first_rune prog_no_star)]
    /\ t_kind (l_last (p_lex p)) = itemEOF
    /\ l_state (p_lex p) = nilFn.
Proof.
  apply (Parse_no_star (UT := latin1_tables) (NU := toy_numerics)
                       prog_no_star (file_for prog_no_star) 0).
  - vm_compute. discriminate.
  - vm_compute. discriminate.
Defined.

(** C4 as stated fails: [prog_no_star] does not begin with an asterisk, and
    [Parse] returns a program and a nil error, with an error count of 0. *)
Lemma Parse_no_star_counterexample :
  first_rune prog_no_star <> 42
  /\ exists file p,
      Parse (UT := latin1_tables) (NU := toy_numerics) 40
            (file_for prog_no_star) prog_no_star
      = Ok ((Some file, None), p)
      /\ p_nerr p = 0
      /\ ~ reports_failure
            (Parse (UT := latin1_tables) (NU := toy_numerics) 40
                   (file_for prog_no_star) prog_no_star).
Proof.
  split; [vm_compute; discriminate|].
  eexists. eexists. split; [vm_compute; reflexivity|].
  split; [reflexivity|]. vm_compute. tauto.
Qed.

(** C6 as stated fails: after the failed first statement, the body holds no
    declaration named Y. *)
Lemma Parse_recover_counterexample :
  exists r p,
    Parse (UT := latin1_tables) (NU := toy_numerics) 40
          (file_for prog_recover) prog_recover
    = Ok (r, p)
    /\ forall m st, In m (File_Decls (p_f p)) -> In st (body_of m) ->
                    assign_name st <> Some "Y".
Proof.
  eexists. eexists. split; [vm_compute; reflexivity|].
  intros m st [<-|[]] [<-|[]]. discriminate.
Qed.

Lemma declModel_loop_bad_leader_witness :
  (t_kind foo_token <> itemEOF -> t_kind foo_token <> itemSemi ->
   declModel_loop (UT := latin1_tables) 40 40
                  (model_of []) at_bad_leader
   = declModel_loop (UT := latin1_tables) 40 39
                    (model_of [])
                    (consumed (reported foo_token
                       (state_after (p_Peek (UT := latin1_tables) 40 at_bad_leader)
                                    at_bad_leader))))
  /\ Earlier.declModel_loop (UT := latin1_tables) 40 40 (model_of []) at_bad_leader
     = Ok (model_of [],
           reported foo_token
             (state_after (p_Peek (UT := latin1_tables) 40 at_bad_leader)
                          at_bad_leader)).
Proof.
  apply (declModel_loop_bad_leader (UT := latin1_tables)
           40 39 (model_of []) at_bad_leader).
  - vm_compute. reflexivity.
  - vm_compute. intros [_ H]. discriminate H.
Defined.

(** C7 as stated fails: [prog_bad_leader] starts with the identifier [foo];
    the error is reported at that token, and the statement [C Y=2;] behind it
    is parsed all the same. *)
Lemma bad_leader_counterexample :
  exists p,
    Parse (UT := latin1_tables) (NU := toy_numerics) 40
          (file_for prog_bad_leader) prog_bad_leader
    = Ok ((None, Some {| pe_nerr := 1;
                         pe_errBuf := [ {| d_pos := t_pos foo_token;
                                           d_msg := "expected 1 char ident, not 'foo'" |} ] |}),
          p)
    /\ map (fun m => map assign_name (body_of m)) (File_Decls (p_f p))
       = [[Some "Y"; Some "timespec"]].
Proof. eexists. split; [vm_compute; reflexivity|reflexivity]. Qed.

Lemma stmtInto_role_witness :
  let r := stmtInto (UT := latin1_tables) 40 (model_of [])
                    (state_after (p_Peek (UT := latin1_tables) 40 at_statement)
                                 at_statement) in
  let m' := match r with Ok (m, _) => m | _ => model_of [] end in
  m' = model_of []
  \/ exists tok p1 decl rhs role,
      p_Token (UT := latin1_tables) 40
              (state_after (p_Peek (UT := latin1_tables) 40 at_statement)
                           at_statement) = Ok (tok, p1)
      /\ m' = body_append (AssignStmt decl rhs) (model_of [])
      /\ VarDecl_Type decl = Some (mkIdent (t_pos tok) role)
      /\ role_of_tag (strings.ToUpper (UT := latin1_tables) (t_val tok)) = Some role
      /\ (strings.isASCII (t_val tok) = true -> In (t_val tok, role) tag_roles).
Proof.
  cbv zeta.
  apply (stmtInto_role (UT := latin1_tables) 40 (model_of []) _
           (state_after (p_Peek (UT := latin1_tables) 40 at_statement) at_statement)
           (state_after
              (stmtInto (UT := latin1_tables) 40 (model_of [])
                 (state_after (p_Peek (UT := latin1_tables) 40 at_statement)
                              at_statement))
              at_statement)).
  vm_compute. reflexivity.
Defined.

Example stmtInto_const :
  exists p,
    stmtInto (UT := latin1_tables) 40 (model_of [])
             (state_after (p_Peek (UT := latin1_tables) 40 at_statement)
                          at_statement)
    = Ok (model_of [ AssignStmt (mkVarDecl (mkIdent 6 "Y") (Some (mkIdent 4 "const")))
                                (Some (BasicLitExpr (mkBasicLit 8 token.FLOAT "2"))) ],
          p).
Proof. eexists. vm_compute. reflexivity. Qed.

Lemma scanner_stops_once_witness :
  (l_state refused <> nilFn /\ l_log refused = [])
  \/ (l_state refused = nilFn
      /\ exists e, l_log refused = [e] /\ is_unrecognized e = false).
Proof.
  apply (scanner_stops_once (UT := latin1_tables)
                            prog_no_star (file_for prog_no_star) refused).
  apply reach_advance
    with (l := newLex prog_no_star (file_for prog_no_star));
    [apply reach_newLex|reflexivity|reflexivity].
Defined.

Lemma comment_sends_nothing_witness :
  let r := call (UT := latin1_tables) commentFn after_star in
  value_of r nilFn = statementFn
  /\ frame after_star (state_after r after_star)
  /\ l_start (state_after r after_star) = l_pos (state_after r after_star).
Proof.
  cbv zeta.
  apply (comment_sends_nothing (UT := latin1_tables) commentFn).
  - left. reflexivity.
  - vm_compute. reflexivity.
Defined.

Lemma hang_only_in_identifier_or_comment_witness :
  identifierFn = identifierFn \/ identifierFn = multiCommentFn.
Proof.
  apply (hang_only_in_identifier_or_comment (UT := latin1_tables)
                                            identifierFn word_only).
  - reflexivity.
  - vm_compute. reflexivity.
Defined.

Lemma identifier_needs_follower_witness :
  let l' := state_after (identifier (UT := latin1_tables) word_then_semi)
                        word_then_semi in
  l_pos word_then_semi <= l_pos l' /\ l_pos l' < len (l_s word_then_semi).
Proof.
  cbv zeta.
  apply (identifier_needs_follower (UT := latin1_tables)
                                   word_then_semi _ statementFn).
  - vm_compute. repeat split; discriminate.
  - vm_compute. reflexivity.
Defined.

Lemma identifier_hangs_at_end_witness :
  identifier (UT := latin1_tables) word_only = Hang.
Proof.
  apply (identifier_hangs_at_end (UT := latin1_tables) word_only "abc").
  - reflexivity.
  - vm_compute. reflexivity.
Defined.

Lemma number_needs_follower_witness :
  l_pos (state_after (number at_number) at_number) < len (l_s at_number).
Proof.
  apply (number_needs_follower at_number _ statementFn).
  - vm_compute. repeat split; discriminate.
  - vm_compute. discriminate.
  - vm_compute. reflexivity.
Defined.

Lemma title_is_skipped_witness :
  exists l2,
    (advance (UT := latin1_tables) ;;; advance (UT := latin1_tables))
      (newLex (titled two_lines_title two_lines_rest)
              (file_for prog_two_lines))
    = Ok (tt, l2)
    /\ l_state l2 = statementFn
    /\ l_pos l2 = 1 + len two_lines_title /\ l_start l2 = l_pos l2
    /\ l_items l2 = [] /\ l_log l2 = [] /\ l_semi l2 = false
    /\ l_last l2 = Token_zero.
Proof.
  apply (title_is_skipped (UT := latin1_tables) two_lines_title two_lines_rest
                          (file_for prog_two_lines)).
  reflexivity.
Defined.

Example two_lines_titled :
  titled two_lines_title two_lines_rest = prog_two_lines.
Proof. reflexivity. Qed.

Lemma Token_after_refusal_panics_witness :
  exists t l1,
    lex_Token (UT := latin1_tables) 1
              (newLex prog_no_star (file_for prog_no_star)) = Ok (t, l1)
    /\ t_kind t = itemEOF
    /\ lex_Token (UT := latin1_tables) 1 l1 = Panic NilFunc
    /\ pull (UT := latin1_tables) 1 2
            (newLex prog_no_star (file_for prog_no_star)) = Panic NilFunc.
Proof.
  apply (Token_after_refusal_panics (UT := latin1_tables)
                                    prog_no_star (file_for prog_no_star) 0).
  - vm_compute. discriminate.
  - vm_compute. discriminate.
Defined.

Lemma lone_delimiter_panics_witness :
  lex_Token (UT := latin1_tables) 2 at_lone_backtick = Panic SliceBounds.
Proof.
  apply (lone_delimiter_panics (UT := latin1_tables)
                               backtick_char at_lone_backtick 0).
  - left. reflexivity.
  - reflexivity.
  - reflexivity.
  - vm_compute. reflexivity.
  - vm_compute. discriminate.
Defined.

Lemma Token_panics_witness :
  SliceBounds = SliceBounds \/ SliceBounds = NilFunc.
Proof.
  apply (Token_panics (UT := latin1_tables)
                      prog_lone_backtick (file_for prog_lone_backtick) 10
                      (newLex prog_lone_backtick (file_for prog_lone_backtick))
                      SliceBounds).
  - vm_compute. discriminate.
  - apply reach_newLex.
  - vm_compute. reflexivity.
Defined.

Lemma tableDef_result_witness :
  let r := tableDef (UT := latin1_tables) 40 at_table in
  let e := fst (value_of r (None, true)) in
  let ok := snd (value_of r (None, true)) in
  (ok = true /\ e = None /\ p_nerr at_table < p_nerr (state_after r at_table))
  \/ (ok = false
      /\ exists ys, e = Some (TableFwdExpr ys) /\ ys <> []
                    /\ Forall (fun b => BasicLit_Kind b = token.FLOAT) ys).
Proof.
  cbv zeta.
  apply (tableDef_result (UT := latin1_tables) 40 at_table).
  vm_compute. reflexivity.
Defined.

Lemma declModel_loop_appends_witness :
  let r := declModel_loop (UT := latin1_tables) 40 40 (model_of []) at_statement in
  let m' := value_of r (model_of []) in
  ModelDecl_Name m' = ModelDecl_Name (model_of [])
  /\ exists new, body_of m' = body_of (model_of []) ++ new
                 /\ Forall parsed_stmt new.
Proof.
  cbv zeta.
  apply (declModel_loop_appends (UT := latin1_tables) 40 40 (model_of []) _
           at_statement
           (state_after (declModel_loop (UT := latin1_tables) 40 40
                                        (model_of []) at_statement)
                        at_statement)).
  vm_compute. reflexivity.
Defined.

(** The first statement of [prog_recover]: the tokens are [C], [X], [=] and
    the [C] of the next line. *)
Lemma stmtInto_bad_value_uncounted_witness :
  let p0 := newParser (newLex prog_recover (file_for prog_recover)) in
  let p4 := state_after (p_Token (UT := latin1_tables) 40 at_value) at_value in
  stmtInto (UT := latin1_tables) 40 (model_of []) p0
  = (Printf ("expr" ++ nl) ;;; discardStmt (UT := latin1_tables) 40 ;;;
     ret (model_of [])) p4
  /\ forall (m' : ModelDecl) (p' : dynParser),
      stmtInto (UT := latin1_tables) 40 (model_of []) p0
      = Ok (m', p') ->
      m' = model_of [] /\ p_f p' = p_f p0 /\ p_errBuf p' = p_errBuf p0
      /\ p_nerr p' = p_nerr p0.
Proof.
  cbv zeta.
  apply (stmtInto_bad_value_uncounted (UT := latin1_tables)
           40 (model_of [])
           (newParser (newLex prog_recover (file_for prog_recover)))
           (state_after (p_Token (UT := latin1_tables) 40
                           (newParser (newLex prog_recover (file_for prog_recover))))
                        at_value)
           (state_after ((p_Token (UT := latin1_tables) 40 ;;;
                          p_Token (UT := latin1_tables) 40)
                           (newParser (newLex prog_recover (file_for prog_recover))))
                        at_value)
           at_value
           (state_after (p_Token (UT := latin1_tables) 40 at_value) at_value)
           (mkToken 4 "C" itemIdentifier) (mkToken 6 "X" itemIdentifier)
           (mkToken 8 "=" itemOperator) (mkToken 11 "C" itemIdentifier)).
  - vm_compute. reflexivity.
  - vm_compute. tauto.
  - vm_compute. reflexivity.
  - reflexivity.
  - vm_compute. reflexivity.
  - reflexivity.
  - vm_compute. reflexivity.
  - reflexivity.
Defined.

Lemma Parse_counts_witness :
  let r := Parse (UT := latin1_tables) (NU := toy_numerics) 40
                 (file_for prog_bad_leader) prog_bad_leader in
  let p := state_after r at_bad_leader in
  counted p
  /\ match snd (value_of r (None, None)) with
     | Some e =>
       fst (value_of r (None, None)) = None /\ pe_errBuf e = p_errBuf p
       /\ p_errBuf p <> []
       /\ pe_nerr e = Z.of_nat (List.length (pe_errBuf e))
     | None =>
       p_errBuf p = []
       /\ exists m, fst (value_of r (None, None))
                    = Some {| File_Name := Some (id "main");
                              File_Decls := [m] |}
                    /\ ModelDecl_Name m = id "main"
     end.
Proof.
  cbv zeta.
  apply (Parse_counts (UT := latin1_tables) (NU := toy_numerics) 40
                      (file_for prog_bad_leader) prog_bad_leader).
  vm_compute. reflexivity.
Defined.

Lemma Parse_success_body_witness :
  let r := Parse (UT := latin1_tables) (NU := toy_numerics) 40
                 (file_for prog_one) prog_one in
  let file := match fst (value_of r (None, None)) with
              | Some file => file
              | None => only_timespec (NU := toy_numerics)
              end in
  exists stmts spec,
    file = {| File_Name := Some (id "main");
              File_Decls :=
                [ {| ModelDecl_Name := id "main";
                     ModelDecl_Body :=
                       {| BlockStmt_List :=
                            stmts ++ [timespec_stmt (NU := toy_numerics) spec] |} |} ] |}
    /\ Forall valued_stmt stmts
    /\ Forall (fun st => ordinary (UT := latin1_tables) st = true) stmts.
Proof.
  cbv zeta.
  apply (Parse_success_body (UT := latin1_tables) (NU := toy_numerics) 40
           (file_for prog_one) prog_one _
           (state_after (Parse (UT := latin1_tables) (NU := toy_numerics) 40
                               (file_for prog_one) prog_one)
                        at_statement)).
  vm_compute. reflexivity.
Defined.

Lemma Parse_panics_witness :
  SliceBounds = SliceBounds \/ SliceBounds = NilFunc.
Proof.
  apply (Parse_panics (UT := latin1_tables) (NU := toy_numerics)
                      prog_lone_backtick (file_for prog_lone_backtick) 40
                      SliceBounds).
  - vm_compute. discriminate.
  - vm_compute. reflexivity.
Defined.

Lemma Parse_no_type_panic_witness : is_type_panic SliceBounds = false.
Proof.
  apply (Parse_no_type_panic (UT := latin1_tables) (NU := toy_numerics) 40
                             (file_for prog_lone_backtick) prog_lone_backtick).
  vm_compute. reflexivity.
Defined.

Lemma extractTimespec_defaults_witness :
  extractTimespec (UT := latin1_tables) (NU := toy_numerics) plain_model
  = (set_body (body_of plain_model
               ++ [timespec_stmt (default_timespec (NU := toy_numerics))])
              plain_model, None).
Proof.
  apply (extractTimespec_defaults (UT := latin1_tables) (NU := toy_numerics)
                                  plain_model).
  repeat constructor.
Defined.

Lemma extractTimespec_twice_witness :
  extractTimespec (UT := latin1_tables) (NU := toy_numerics) sample_after
  = (set_body (body_of sample_after
               ++ [timespec_stmt (default_timespec (NU := toy_numerics))])
              sample_after, None).
Proof.
  exact (extractTimespec_twice (UT := latin1_tables) (NU := toy_numerics)
                               sample_model sample_after eq_refl).
Defined.

Lemma Earlier_Parse_fails_witness :
  let r := Earlier.Parse (UT := latin1_tables) 40 (file_for prog_one) prog_one in
  fst (value_of r (None, None)) = None
  /\ (exists e, snd (value_of r (None, None)) = Some e /\ 1 <= pe_nerr e
                /\ pe_nerr e = Z.of_nat (List.length (pe_errBuf e)))
  /\ File_Decls (p_f (state_after r at_statement)) = [].
Proof.
  cbv zeta.
  apply (Earlier_Parse_fails (UT := latin1_tables) 40 (file_for prog_one) prog_one).
  vm_compute. reflexivity.
Defined.

Lemma Skeleton_Parse_one_error_witness :
  let r := Skeleton.Parse (UT := latin1_tables) 40 (file_for prog_one) prog_one in
  fst (value_of r (None, None)) = None
  /\ exists tok,
      (t_kind tok <> itemIdentifier \/ len (t_val tok) <> 1)
      /\ snd (value_of r (None, None))
         = Some {| pe_nerr := 1;
                   pe_errBuf :=
                     [ {| d_pos := t_pos tok;
                          d_msg := "expected 1 char ident, not '"
                                   ++ t_val tok ++ "'" |} ] |}.
Proof.
  cbv zeta.
  apply (Skeleton_Parse_one_error (UT := latin1_tables) 40
           (file_for prog_one) prog_one _ _
           (state_after (Skeleton.Parse (UT := latin1_tables) 40
                                        (file_for prog_one) prog_one)
                        at_statement)).
  vm_compute. reflexivity.
Defined.

Lemma TokenDump_Parse_prints_witness :
  let r := TokenDump.Parse (UT := latin1_tables) 40 (file_for prog_one) prog_one in
  let p := state_after r (TokenDump.newParser
                            (newLex prog_one (file_for prog_one))) in
  fst (value_of r (None, None)) = None
  /\ snd (value_of r (None, None)) = Some 1
  /\ exists ts t,
      pull (UT := latin1_tables) 40 (S (List.length ts))
           (newLex prog_one (file_for prog_one))
      = Ok (ts ++ [t], TokenDump.lex p)
      /\ t_kind t = itemEOF
      /\ Forall (fun t0 => t_kind t0 <> itemEOF) ts
      /\ TokenDump.out p = map TokenDump.line_of ts.
Proof.
  cbv zeta.
  apply (TokenDump_Parse_prints (UT := latin1_tables) 40
                                (file_for prog_one) prog_one).
  vm_compute. reflexivity.
Defined.

Example prog_one_dump :
  TokenDump.out
    (state_after (TokenDump.Parse (UT := latin1_tables) 40
                                  (file_for prog_one) prog_one)
                 (TokenDump.newParser (newLex prog_one (file_for prog_one))))
  = [ TokenDump.mkLine 4 "(ident C)"; TokenDump.mkLine 6 "(ident Y)";
      TokenDump.mkLine 7 "(op =)"; TokenDump.mkLine 8 "(num 2)";
      TokenDump.mkLine 9 "(semi ;)" ].
Proof. vm_compute. reflexivity. Qed.
